(** * UnrealObjectPooler: a shallow embedding of the actor pooling subsystem

    The development follows [UnrealObjectPooler.h] and
    [UnrealObjectPooler.cpp].  The engine (actors, validity, spawning,
    destruction, logging) is modelled as an explicit host state; the
    subsystem's four members are a record; member functions are state
    transformers over both.  A dereference of a null pointer is a fault. *)

From stdpp Require Import gmap strings list fin_maps.
From Stdlib Require Import ZArith.


(** ** The host engine *)

(** A non-null [AActor*] / [UClass*] is the address of the object; a pointer
    that may be null is an [option]. *)
Definition AActor := positive.
Definition UClass := positive.
Abbreviation nullptr := None (only parsing).

(** [AActor::StaticClass()]. *)
Definition AActor_StaticClass : UClass := 1%positive.

(** Coordinates are only stored and copied by the pooler, never computed
    with; they are kept as integer triples. *)
Definition FVector := (Z * Z * Z)%type.
Definition FRotator := (Z * Z * Z)%type.
Definition ZeroVector : FVector := (0, 0, 0)%Z.
Definition ZeroRotator : FRotator := (0, 0, 0)%Z.

(** [enum class EPoolType : uint8]. *)
Inductive EPoolType := Nodes | NodesSpawner | GameObjects | Billboards.

#[global] Instance EPoolType_eq_dec : EqDecision EPoolType.
Proof. solve_decision. Defined.

Definition EPoolType_value (t : EPoolType) : nat :=
  match t with Nodes => 0 | NodesSpawner => 1 | GameObjects => 2 | Billboards => 3 end.

Definition EPoolType_of_value (n : nat) : EPoolType :=
  match n with 0 => Nodes | 1 => NodesSpawner | 2 => GameObjects | _ => Billboards end.

#[global] Instance EPoolType_countable : Countable EPoolType.
Proof. by apply (inj_countable' EPoolType_value EPoolType_of_value); intros []. Defined.

(** [StaticEnum<EPoolType>()->GetNameStringByValue]. *)
Definition EnumName (t : EPoolType) : string :=
  match t with
  | Nodes => "Nodes" | NodesSpawner => "NodesSpawner"
  | GameObjects => "GameObjects" | Billboards => "Billboards"
  end.

(** What the pooler reads and writes of an actor object. *)
Record ActorState := {
  ActorClass : UClass;
  bPendingKill : bool;            (* set by [Destroy]; [IsValid] is then false *)
  bHidden : bool;                 (* [SetActorHiddenInGame] *)
  bEnableCollision : bool;        (* [SetActorEnableCollision] *)
  bTickEnabled : bool;            (* [SetActorTickEnabled] *)
  OwnedComponents : list bool;    (* [bIsActive] of each of [GetComponents] *)
  ActorLocation : FVector;
  ActorRotation : FRotator;
  AttachParent : option AActor;
  ActorLabel : string
}.

(** The single log line the pooler writes ([UE_LOG(LogTemp, Warning, ...)]),
    with the actor it names. *)
Inductive LogLine := Warning_NotPooled (Actor : AActor).

Record Engine := {
  Actors : gmap AActor ActorState;   (* every actor object ever allocated *)
  NextActor : AActor;                (* address of the next allocation *)
  LogTemp : list LogLine;            (* most recent first *)
  HasWorld : bool                    (* [GetWorld()] is not null *)
}.

(** What the pooler cannot decide: whether the world spawns an actor of a
    class, and the defaults an actor of that class starts with. *)
Class HostPolicy := {
  CanSpawn : Engine → UClass → bool;
  ClassDefaults : UClass → ActorState
}.

Definition set_Actors (f : gmap AActor ActorState → gmap AActor ActorState) (e : Engine) : Engine :=
  {| Actors := f (Actors e); NextActor := NextActor e;
     LogTemp := LogTemp e; HasWorld := HasWorld e |}.

(** [IsValid(Actor)]: not null, and not destroyed. *)
Definition IsValid (Actor : option AActor) (e : Engine) : bool :=
  match Actor with
  | None => false
  | Some a =>
      match Actors e !! a with
      | Some st => negb (bPendingKill st)
      | None => false
      end
  end.

Definition kill (st : ActorState) : ActorState :=
  {| ActorClass := ActorClass st; bPendingKill := true; bHidden := bHidden st;
     bEnableCollision := bEnableCollision st; bTickEnabled := bTickEnabled st;
     OwnedComponents := OwnedComponents st; ActorLocation := ActorLocation st;
     ActorRotation := ActorRotation st; AttachParent := AttachParent st;
     ActorLabel := ActorLabel st |}.

Definition set_parent (p : option AActor) (st : ActorState) : ActorState :=
  {| ActorClass := ActorClass st; bPendingKill := bPendingKill st; bHidden := bHidden st;
     bEnableCollision := bEnableCollision st; bTickEnabled := bTickEnabled st;
     OwnedComponents := OwnedComponents st; ActorLocation := ActorLocation st;
     ActorRotation := ActorRotation st; AttachParent := p;
     ActorLabel := ActorLabel st |}.

Definition set_label (l : string) (st : ActorState) : ActorState :=
  {| ActorClass := ActorClass st; bPendingKill := bPendingKill st; bHidden := bHidden st;
     bEnableCollision := bEnableCollision st; bTickEnabled := bTickEnabled st;
     OwnedComponents := OwnedComponents st; ActorLocation := ActorLocation st;
     ActorRotation := ActorRotation st; AttachParent := AttachParent st;
     ActorLabel := l |}.

Definition set_placement (loc : FVector) (rot : FRotator) (st : ActorState) : ActorState :=
  {| ActorClass := ActorClass st; bPendingKill := bPendingKill st; bHidden := bHidden st;
     bEnableCollision := bEnableCollision st; bTickEnabled := bTickEnabled st;
     OwnedComponents := OwnedComponents st; ActorLocation := loc;
     ActorRotation := rot; AttachParent := AttachParent st;
     ActorLabel := ActorLabel st |}.

(** The body of [SetActorActive] on one actor object: hidden is the
    negation of the flag, collision and tick are the flag, and every
    component is activated or deactivated. *)
Definition set_active (bActive : bool) (st : ActorState) : ActorState :=
  {| ActorClass := ActorClass st; bPendingKill := bPendingKill st;
     bHidden := negb bActive;
     bEnableCollision := bActive; bTickEnabled := bActive;
     OwnedComponents := (λ _, bActive) <$> OwnedComponents st;
     ActorLocation := ActorLocation st;
     ActorRotation := ActorRotation st; AttachParent := AttachParent st;
     ActorLabel := ActorLabel st |}.

(** A child of a destroyed actor is detached by the engine, not destroyed. *)
Definition detach_from (a : AActor) (st : ActorState) : ActorState :=
  if decide (AttachParent st = Some a) then set_parent None st else st.

(** [Actor->Destroy()]. *)
Definition Destroy (a : AActor) (e : Engine) : Engine :=
  set_Actors (λ m, detach_from a <$> alter kill a m) e.

Definition SetActorLabel (a : AActor) (l : string) : Engine → Engine :=
  set_Actors (alter (set_label l) a).

Definition SetActorLocationAndRotation (a : AActor) (loc : FVector) (rot : FRotator)
  : Engine → Engine :=
  set_Actors (alter (set_placement loc rot) a).

(** [Child->AttachToActor(Parent, rules)]; a null parent attaches nothing.
    Both rules used by the pooler leave everything but the parent link as
    it is, at the level of this model. *)
Definition AttachToActor (child : AActor) (Parent : option AActor) : Engine → Engine :=
  match Parent with
  | Some p => set_Actors (alter (set_parent (Some p)) child)
  | None => id
  end.

Definition Log (l : LogLine) (e : Engine) : Engine :=
  {| Actors := Actors e; NextActor := NextActor e;
     LogTemp := l :: LogTemp e; HasWorld := HasWorld e |}.

Section Host.
Context `{HostPolicy}.

(** The object a successful spawn allocates. *)
Definition NewActorState (c : UClass) (loc : FVector) (rot : FRotator) : ActorState :=
  {| ActorClass := c; bPendingKill := false;
     bHidden := bHidden (ClassDefaults c);
     bEnableCollision := bEnableCollision (ClassDefaults c);
     bTickEnabled := bTickEnabled (ClassDefaults c);
     OwnedComponents := OwnedComponents (ClassDefaults c);
     ActorLocation := loc; ActorRotation := rot;
     AttachParent := None; ActorLabel := ActorLabel (ClassDefaults c) |}.

(** [World->SpawnActor<AActor>(Class, Location, Rotation, Params)]: null when
    the host refuses, otherwise a freshly allocated valid actor. *)
Definition SpawnActor (c : UClass) (loc : FVector) (rot : FRotator) (e : Engine)
  : option AActor * Engine :=
  if CanSpawn e c then
    (Some (NextActor e),
     {| Actors := <[NextActor e := NewActorState c loc rot]> (Actors e);
        NextActor := Pos.succ (NextActor e);
        LogTemp := LogTemp e; HasWorld := HasWorld e |})
  else (nullptr, e).

End Host.

(** ** The subsystem's data *)

(** [struct FActorPool].  [InactiveActors] is in array order: [Pop] takes the
    last element, [AddUnique] appends at the end. *)
Record FActorPool := {
  InactiveActors : list AActor;
  PoolRoot : option AActor
}.

(** A default-constructed [FActorPool], as [FindOrAdd] inserts it. *)
Definition FActorPool_default : FActorPool :=
  {| InactiveActors := []; PoolRoot := nullptr |}.

(** The members of [UUnrealObjectPooler], and the engine it lives in. *)
Record UUnrealObjectPooler := {
  ObjectPools : gmap UClass FActorPool;
  ActorToClassMap : gmap AActor (option UClass);
  PoolRoots : gmap EPoolType AActor;
  MainPoolRoot : option AActor;
  engine : Engine
}.

(** A newly constructed subsystem: empty maps, [MainPoolRoot = nullptr]. *)
Definition Initialize (e : Engine) : UUnrealObjectPooler :=
  {| ObjectPools := ∅; ActorToClassMap := ∅; PoolRoots := ∅;
     MainPoolRoot := nullptr; engine := e |}.

Definition set_ObjectPools (f : gmap UClass FActorPool → gmap UClass FActorPool)
  (s : UUnrealObjectPooler) : UUnrealObjectPooler :=
  {| ObjectPools := f (ObjectPools s); ActorToClassMap := ActorToClassMap s;
     PoolRoots := PoolRoots s; MainPoolRoot := MainPoolRoot s; engine := engine s |}.

Definition set_ActorToClassMap
  (f : gmap AActor (option UClass) → gmap AActor (option UClass))
  (s : UUnrealObjectPooler) : UUnrealObjectPooler :=
  {| ObjectPools := ObjectPools s; ActorToClassMap := f (ActorToClassMap s);
     PoolRoots := PoolRoots s; MainPoolRoot := MainPoolRoot s; engine := engine s |}.

Definition set_PoolRoots (f : gmap EPoolType AActor → gmap EPoolType AActor)
  (s : UUnrealObjectPooler) : UUnrealObjectPooler :=
  {| ObjectPools := ObjectPools s; ActorToClassMap := ActorToClassMap s;
     PoolRoots := f (PoolRoots s); MainPoolRoot := MainPoolRoot s; engine := engine s |}.

Definition set_MainPoolRoot (r : option AActor)
  (s : UUnrealObjectPooler) : UUnrealObjectPooler :=
  {| ObjectPools := ObjectPools s; ActorToClassMap := ActorToClassMap s;
     PoolRoots := PoolRoots s; MainPoolRoot := r; engine := engine s |}.

Definition set_engine (f : Engine → Engine)
  (s : UUnrealObjectPooler) : UUnrealObjectPooler :=
  {| ObjectPools := ObjectPools s; ActorToClassMap := ActorToClassMap s;
     PoolRoots := PoolRoots s; MainPoolRoot := MainPoolRoot s; engine := f (engine s) |}.

(** The free list of a class; a class without an entry has none. *)
Definition pool_of (c : UClass) (s : UUnrealObjectPooler) : list AActor :=
  InactiveActors (default FActorPool_default (ObjectPools s !! c)).

(** ** Member functions that can fault: a state and fault monad *)

(** A member function returning [A]: from a state, either a fault (a null
    pointer was dereferenced) or a result and a new state. *)
Definition M (A : Type) : Type :=
  UUnrealObjectPooler → option (A * UUnrealObjectPooler).

#[global] Instance M_ret : MRet M := λ A a s, Some (a, s).
#[global] Instance M_bind : MBind M := λ A B f m s,
  match m s with
  | Some (a, s') => f a s'
  | None => None
  end.

Definition fault {A} : M A := λ _, None.
Definition gets {A} (f : UUnrealObjectPooler → A) : M A := λ s, Some (f s, s).
Definition modify (f : UUnrealObjectPooler → UUnrealObjectPooler) : M unit :=
  λ s, Some ((), f s).
Definition host (f : Engine → Engine) : M unit := modify (set_engine f).

(** [TArray::AddUnique]. *)
Definition AddUnique (a : AActor) (arr : list AActor) : list AActor :=
  if decide (a ∈ arr) then arr else arr ++ [a].

(** The loop of [SpawnObject], lines 25-33: pop from the end of the array
    until a valid actor is found or the array is empty.  [fuel] bounds the
    iterations; the length of the array is always enough.  The result is
    [SpawnedActor] after the loop and what is left of the array. *)
Fixpoint PopValid (fuel : nat) (e : Engine) (arr : list AActor)
  : option AActor * list AActor :=
  match fuel with
  | 0 => (nullptr, arr)
  | S fuel' =>
      match last arr with
      | None => (nullptr, arr)
      | Some a =>
          if IsValid (Some a) e then (Some a, removelast arr)
          else PopValid fuel' e (removelast arr)
      end
  end.

(** [SetActorActive], lines 155-179. *)
Definition SetActorActive (Actor : option AActor) (bActive : bool) (e : Engine) : Engine :=
  if negb (IsValid Actor e) then e
  else match Actor with
       | Some a => set_Actors (alter (set_active bActive) a) e
       | None => e
       end.

(** The engine's primitives are reasoned about through their lemmas. *)
Arguments IsValid : simpl never.
Arguments Destroy : simpl never.
Arguments SetActorLabel : simpl never.
Arguments SetActorLocationAndRotation : simpl never.
Arguments AttachToActor : simpl never.
Arguments SetActorActive : simpl never.
Arguments Log : simpl never.
Arguments SpawnActor : simpl never.

Section Pooler.
Context `{HostPolicy}.

Definition SpawnActorM (c : UClass) (loc : FVector) (rot : FRotator) : M (option AActor) :=
  λ s, let '(r, e) := SpawnActor c loc rot (engine s) in Some (r, set_engine (λ _, e) s).

(** [GetOrCreatePoolRoot], lines 126-153.  Neither spawn is checked before
    the result is dereferenced by [SetActorLabel]. *)
Definition GetOrCreatePoolRoot (PoolType : EPoolType) : M (option AActor) :=
  World ← gets (λ s, HasWorld (engine s));
  if negb (World : bool) then mret (M:=M) nullptr else
  MainValid ← gets (λ s, IsValid (MainPoolRoot s) (engine s));
  (if negb (MainValid : bool) then
     Main ← SpawnActorM AActor_StaticClass ZeroVector ZeroRotator;
     modify (set_MainPoolRoot Main);;
     match Main with
     | Some m => host (SetActorLabel m "ObjectPools_Root")
     | None => fault
     end
   else mret (M:=M) ());;
  RootPtr ← gets (λ s, PoolRoots s !! PoolType);
  RootValid ← gets (λ s, IsValid RootPtr (engine s));
  if (RootValid : bool) then mret (M:=M) RootPtr else
  NewRoot ← SpawnActorM AActor_StaticClass ZeroVector ZeroRotator;
  match NewRoot with
  | None => fault
  | Some r =>
      host (SetActorLabel r ("PoolRoot_" +:+ EnumName PoolType));;
      Main ← gets MainPoolRoot;
      host (AttachToActor r Main);;
      modify (set_PoolRoots <[PoolType := r]>);;
      mret (M:=M) (Some r)
  end.

(** [SpawnObject], lines 14-60.  [Pool] is a reference into [ObjectPools];
    nothing else touches the map while it is live, so the array the loop
    leaves is written back right after the loop. *)
Definition SpawnObject (ActorClass : option UClass) (Location : FVector)
  (Rotation : FRotator) (PoolType : EPoolType) : M (option AActor) :=
  match ActorClass with
  | None => mret (M:=M) nullptr
  | Some c =>
      World ← gets (λ s, HasWorld (engine s));
      if negb (World : bool) then mret (M:=M) nullptr else
      Pool ← gets (λ s, default FActorPool_default (ObjectPools s !! c));
      e ← gets engine;
      let '(Popped, rest) :=
        PopValid (length (InactiveActors Pool)) e (InactiveActors Pool) in
      modify (set_ObjectPools
                <[c := {| InactiveActors := rest; PoolRoot := PoolRoot Pool |}]>);;
      SpawnedActor ←
        match Popped with
        | Some a => mret (M:=M) (Some a)
        | None =>
            New ← SpawnActorM c Location Rotation;
            match New with
            | Some a =>
                modify (set_ActorToClassMap <[a := Some c]>);;
                Root ← GetOrCreatePoolRoot PoolType;
                host (AttachToActor a Root);;
                mret (M:=M) (Some a)
            | None => mret (M:=M) nullptr
            end
        end;
      match SpawnedActor with
      | Some a =>
          host (SetActorLocationAndRotation a Location Rotation);;
          host (SetActorActive (Some a) true);;
          mret (M:=M) (Some a)
      | None => mret (M:=M) nullptr
      end
  end.

End Pooler.

Arguments GetOrCreatePoolRoot : simpl never.
Arguments SpawnObject : simpl never.

(** ** The template overload of [SpawnObject] *)

(** The class hierarchy of the host: [IsChildOf c T] is
    [c->IsChildOf(T::StaticClass())]. *)
Class ClassHierarchy := {
  IsChildOf : UClass → UClass → bool
}.

Section Template.
Context `{HostPolicy} `{ClassHierarchy}.

(** [*ActorClass] for a [TSubclassOf<T>]: the class it holds if that is a
    child of [T], null otherwise. *)
Definition TSubclassOf_deref (T : UClass) (ActorClass : option UClass) : option UClass :=
  match ActorClass with
  | Some c => if IsChildOf c T then Some c else nullptr
  | None => nullptr
  end.

(** [Cast<T>(Actor)]: the actor if its class is a child of [T], null
    otherwise. *)
Definition Cast (T : UClass) (Actor : option AActor) (e : Engine) : option AActor :=
  match Actor with
  | Some a =>
      match Actors e !! a with
      | Some st => if IsChildOf (ActorClass st) T then Some a else nullptr
      | None => nullptr
      end
  | None => nullptr
  end.

(** [SpawnObject<T>], lines 57-61 of the header: the class is dereferenced
    as a [TSubclassOf<T>], passed to [SpawnObject], and the result is cast
    to [T]. *)
Definition SpawnObjectT (T : UClass) (ActorClass : option UClass) (Location : FVector)
  (Rotation : FRotator) (PoolType : EPoolType) : M (option AActor) :=
  Spawned ← SpawnObject (TSubclassOf_deref T ActorClass) Location Rotation PoolType;
  e ← gets engine;
  mret (M:=M) (Cast T Spawned e).

End Template.

(** [ReturnObjectToPool], lines 62-83.  It cannot fault: the only
    dereferences are of [Actor], after [IsValid]. *)
Definition ReturnObjectToPool (Actor : option AActor) (s : UUnrealObjectPooler)
  : UUnrealObjectPooler :=
  match Actor with
  | None => s
  | Some a =>
      if negb (IsValid (Some a) (engine s)) then s else
      match ActorToClassMap s !! a with
      | Some (Some c) =>
          let s1 := set_engine (SetActorActive (Some a) false) s in
          let Pool := default FActorPool_default (ObjectPools s1 !! c) in
          set_ObjectPools
            <[c := {| InactiveActors := AddUnique a (InactiveActors Pool);
                      PoolRoot := PoolRoot Pool |}]> s1
      | _ =>
          set_engine (λ e, Destroy a (Log (Warning_NotPooled a) e)) s
      end
  end.

Arguments ReturnObjectToPool : simpl never.

Section Prewarm.
Context `{HostPolicy}.

(** The loop of [InitializePool], lines 89-96, for the iterations left. *)
Fixpoint InitializePool_loop (n : nat) (c : UClass) (PoolType : EPoolType) : M unit :=
  match n with
  | 0 => mret (M:=M) ()
  | S n' =>
      NewActor ← SpawnObject (Some c) ZeroVector ZeroRotator PoolType;
      match NewActor with
      | Some a => modify (ReturnObjectToPool (Some a))
      | None => mret (M:=M) ()
      end;;
      InitializePool_loop n' c PoolType
  end.

(** [InitializePool], lines 85-97.  [Count] is an [int32]; [i < Count] from
    [i = 0] holds [Count] times, or never for a count of zero or less. *)
Definition InitializePool (ActorClass : option UClass) (Count : Z)
  (PoolType : EPoolType) : M unit :=
  match ActorClass with
  | None => mret (M:=M) ()
  | Some c => InitializePool_loop (Z.to_nat Count) c PoolType
  end.

End Prewarm.

(** [if (IsValid(Actor)) Actor->Destroy();] *)
Definition DestroyIfValid (a : AActor) (e : Engine) : Engine :=
  if IsValid (Some a) e then Destroy a e else e.

(** [Deinitialize], lines 99-124.  The pools are visited in the order of
    the map; [Super::Deinitialize] has no effect on this state. *)
Definition Deinitialize (s : UUnrealObjectPooler) : UUnrealObjectPooler :=
  let e1 :=
    map_fold (λ _ Pool e, foldl (λ e a, DestroyIfValid a e) e (InactiveActors Pool))
             (engine s) (ObjectPools s) in
  let '(Main, e2) :=
    match MainPoolRoot s with
    | Some m => if IsValid (Some m) e1 then (nullptr, Destroy m e1)
                else (Some m, e1)
    | None => (nullptr, e1)
    end in
  {| ObjectPools := ∅; ActorToClassMap := ∅; PoolRoots := ∅;
     MainPoolRoot := Main; engine := e2 |}.

Arguments Deinitialize : simpl never.

(** ** Traces of calls *)

(** What can happen to the subsystem: a call of one of its functions, or the
    rest of the game destroying or spawning an actor behind its back. *)
Inductive Call :=
| CallSpawnObject (ActorClass : option UClass) (Location : FVector)
    (Rotation : FRotator) (PoolType : EPoolType)
| CallReturnObjectToPool (Actor : option AActor)
| CallInitializePool (ActorClass : option UClass) (Count : Z) (PoolType : EPoolType)
| CallDeinitialize
| HostDestroys (a : AActor)
| HostSpawns (c : UClass) (Location : FVector) (Rotation : FRotator).

Section Traces.
Context `{HostPolicy}.

Definition exec (op : Call) (s : UUnrealObjectPooler) : option UUnrealObjectPooler :=
  match op with
  | CallSpawnObject c loc rot pt => snd <$> SpawnObject c loc rot pt s
  | CallReturnObjectToPool a => Some (ReturnObjectToPool a s)
  | CallInitializePool c n pt => snd <$> InitializePool c n pt s
  | CallDeinitialize => Some (Deinitialize s)
  | HostDestroys a => Some (set_engine (Destroy a) s)
  | HostSpawns c loc rot => Some (set_engine (λ e, snd (SpawnActor c loc rot e)) s)
  end.

Fixpoint run (ops : list Call) (s : UUnrealObjectPooler) : option UUnrealObjectPooler :=
  match ops with
  | [] => Some s
  | op :: ops' =>
      match exec op s with
      | Some s' => run ops' s'
      | None => None
      end
  end.

End Traces.

(** Every allocated actor lies below the allocation pointer. *)
Definition engine_ok (e : Engine) : Prop :=
  ∀ a : AActor, is_Some (Actors e !! a) → (a < NextActor e)%positive.

(** The states a subsystem can be in: started on a well-formed engine and
    driven by any trace that does not fault. *)
Definition reachable `{HostPolicy} (s : UUnrealObjectPooler) : Prop :=
  ∃ e ops, engine_ok e ∧ run ops (Initialize e) = Some s.

(** The invariant of the subsystem's data. *)
Record inv (s : UUnrealObjectPooler) : Prop := {
  inv_engine : engine_ok (engine s);
  inv_recorded : ∀ a, is_Some (ActorToClassMap s !! a) → is_Some (Actors (engine s) !! a);
  inv_typed : ∀ c a, a ∈ pool_of c s → ActorToClassMap s !! a = Some (Some c);
  inv_nodup : ∀ c, NoDup (pool_of c s);
  inv_main : ∀ m, MainPoolRoot s = Some m →
                is_Some (Actors (engine s) !! m) ∧ ActorToClassMap s !! m = None;
  inv_roots : ∀ pt r, PoolRoots s !! pt = Some r →
                is_Some (Actors (engine s) !! r) ∧ ActorToClassMap s !! r = None ∧
                MainPoolRoot s ≠ Some r
}.

(** ** Notions used in the proofs *)

(** The same actor objects exist, at the same allocation pointer, in the
    same world. *)
Definition same_objects (e e' : Engine) : Prop :=
  (∀ a, is_Some (Actors e' !! a) ↔ is_Some (Actors e !! a)) ∧
  NextActor e' = NextActor e ∧ HasWorld e' = HasWorld e.

(** From [e] to [e']: every object allocated in [e] is as it was, the
    allocation pointer has not gone back, and log and world are the same. *)
Record grows (e e' : Engine) : Prop := {
  grows_old : ∀ a : AActor, (a < NextActor e)%positive → Actors e' !! a = Actors e !! a;
  grows_next : (NextActor e ≤ NextActor e')%positive;
  grows_log : LogTemp e' = LogTemp e;
  grows_world : HasWorld e' = HasWorld e;
  grows_ok : engine_ok e → engine_ok e'
}.

(** Unfolding of the monad's operations. *)
Ltac unfold_M :=
  unfold mbind, M_bind, mret, M_ret, gets, modify, host, fault, SpawnActorM in *;
  simpl in *.

(** The last two calls of [SpawnObject] on a non-null [SpawnedActor]. *)
Definition placed_active (a : AActor) (loc : FVector) (rot : FRotator)
  (s : UUnrealObjectPooler) : UUnrealObjectPooler :=
  set_engine (SetActorActive (Some a) true)
    (set_engine (SetActorLocationAndRotation a loc rot) s).

(** Some pool holds the actor. *)
Definition pooled (s : UUnrealObjectPooler) (a : AActor) : Prop :=
  ∃ c, a ∈ pool_of c s.

(** The four switches of [SetActorActive] all stand at [b]: hidden is its
    negation, collision and tick are [b], every component's [bIsActive] is
    [b]. *)
Definition activation (a : AActor) (e : Engine) (b : bool) : Prop :=
  match Actors e !! a with
  | Some st =>
      bHidden st = negb b ∧ bEnableCollision st = b ∧ bTickEnabled st = b ∧
      Forall (λ x, x = b) (OwnedComponents st)
  | None => False
  end.

(** The actor is handed out: valid, recorded for the class, in no free list
    of that class. *)
Definition active_for (T : UClass) (x : AActor) (s : UUnrealObjectPooler) : Prop :=
  IsValid (Some x) (engine s) = true ∧
  ActorToClassMap s !! x = Some (Some T) ∧
  x ∉ pool_of T s.

(** ** Concrete hosts and states for the examples *)

(** Class defaults of the examples: an actor starts hidden, with collision
    and tick off, and two components of which one is active. *)
Definition example_defaults (c : UClass) : ActorState :=
  {| ActorClass := c; bPendingKill := false; bHidden := true;
     bEnableCollision := false; bTickEnabled := false;
     OwnedComponents := [false; true];
     ActorLocation := ZeroVector; ActorRotation := ZeroRotator;
     AttachParent := None; ActorLabel := "" |}.

(** A host that spawns whatever it is asked for. *)
Definition willing_host : HostPolicy :=
  {| CanSpawn := λ _ _, true; ClassDefaults := example_defaults |}.

(** A host that spawns nothing. *)
Definition refusing_host : HostPolicy :=
  {| CanSpawn := λ _ _, false; ClassDefaults := example_defaults |}.

(** A host that spawns until four actors have been allocated. *)
Definition capped_host : HostPolicy :=
  {| CanSpawn := λ e _, bool_decide (NextActor e < 5)%positive;
     ClassDefaults := example_defaults |}.

(** An empty world. *)
Definition world0 : Engine :=
  {| Actors := ∅; NextActor := 1%positive; LogTemp := []; HasWorld := true |}.

(** The class used in the examples. *)
Definition Bullet : UClass := 7%positive.
Definition Enemy : UClass := 8%positive.

(** The state a trace leads to from the empty world, or the start when the
    trace faults. *)
Definition after `{HostPolicy} (ops : list Call) : UUnrealObjectPooler :=
  default (Initialize world0) (run ops (Initialize world0)).

(** One bullet is spawned and returned, the game spawns an enemy, and the
    pooled bullet is destroyed behind the pooler's back. *)
Definition stale_trace : list Call :=
  [CallSpawnObject (Some Bullet) ZeroVector ZeroRotator GameObjects;
   CallReturnObjectToPool (Some 1%positive);
   HostSpawns Enemy ZeroVector ZeroRotator;
   HostDestroys 1%positive].

(** Two bullets are spawned and returned, and the one on top of the free
    list is destroyed behind the pooler's back. *)
Definition skip_trace : list Call :=
  [CallSpawnObject (Some Bullet) ZeroVector ZeroRotator GameObjects;
   CallSpawnObject (Some Bullet) ZeroVector ZeroRotator GameObjects;
   CallReturnObjectToPool (Some 1%positive);
   CallReturnObjectToPool (Some 4%positive);
   HostDestroys 4%positive].

(** One bullet is spawned and handed out. *)
Definition spawn_trace : list Call :=
  [CallSpawnObject (Some Bullet) ZeroVector ZeroRotator GameObjects].

(** One bullet is spawned and returned. *)
Definition pooled_trace : list Call :=
  [CallSpawnObject (Some Bullet) ZeroVector ZeroRotator GameObjects;
   CallReturnObjectToPool (Some 1%positive)].

(** How often an actor occurs in a free list. *)
Definition occurrences (x : AActor) (l : list AActor) : nat :=
  length (filter (λ y, y = x) l).

(** From [s] to [s'], for the actors allocated in [s]: none has become
    valid again, none has gained a record or had it changed, and none has
    entered a free list without being valid in [s]. *)
Definition evolves (s s' : UUnrealObjectPooler) : Prop :=
  (NextActor (engine s) ≤ NextActor (engine s'))%positive ∧
  ∀ x : AActor, (x < NextActor (engine s))%positive →
    (IsValid (Some x) (engine s') = true → IsValid (Some x) (engine s) = true) ∧
    (∀ v, ActorToClassMap s' !! x = Some v → ActorToClassMap s !! x = Some v) ∧
    (∀ c, x ∈ pool_of c s' → x ∈ pool_of c s ∨ IsValid (Some x) (engine s) = true).

(** From [s] to [s'], the records of the actors allocated in [s] are the
    same. *)
Definition keeps_records (s s' : UUnrealObjectPooler) : Prop :=
  ∀ x : AActor, (x < NextActor (engine s))%positive →
       ActorToClassMap s' !! x = ActorToClassMap s !! x.

(** A call other than [Deinitialize]. *)
Definition not_teardown (op : Call) : Prop :=
  match op with CallDeinitialize => False | _ => True end.

(** Two states that differ at most in a [MainPoolRoot] that is invalid in
    both. *)
Definition same_but_stale_main (s1 s2 : UUnrealObjectPooler) : Prop :=
  ObjectPools s1 = ObjectPools s2 ∧
  ActorToClassMap s1 = ActorToClassMap s2 ∧
  PoolRoots s1 = PoolRoots s2 ∧
  engine s1 = engine s2 ∧
  (MainPoolRoot s1 = MainPoolRoot s2 ∨
   IsValid (MainPoolRoot s1) (engine s1) = false ∧
   IsValid (MainPoolRoot s2) (engine s2) = false).



(** ** Further notions: actor objects *)

(** Two actor objects that differ at most in the four switches of
    [SetActorActive]: class, validity, placement, parent and label are the
    same, and there are as many components. *)
Definition same_but_switches (st st' : ActorState) : Prop :=
  ActorClass st' = ActorClass st ∧
  bPendingKill st' = bPendingKill st ∧
  ActorLocation st' = ActorLocation st ∧
  ActorRotation st' = ActorRotation st ∧
  AttachParent st' = AttachParent st ∧
  ActorLabel st' = ActorLabel st ∧
  length (OwnedComponents st') = length (OwnedComponents st).

(** From [e] to [e'], every actor object of [e] is still there, with its
    class and label, and dead if it was; and unless it is [t], with its
    switches and its placement, and with the parent it had or none. *)
Definition keeps_objects (t : option AActor) (e e' : Engine) : Prop :=
  ∀ (x : AActor) st, Actors e !! x = Some st →
    ∃ st', Actors e' !! x = Some st' ∧
           ActorClass st' = ActorClass st ∧ ActorLabel st' = ActorLabel st ∧
           (bPendingKill st = true → bPendingKill st' = true) ∧
           (t ≠ Some x →
            bHidden st' = bHidden st ∧
            bEnableCollision st' = bEnableCollision st ∧
            bTickEnabled st' = bTickEnabled st ∧
            OwnedComponents st' = OwnedComponents st ∧
            ActorLocation st' = ActorLocation st ∧
            ActorRotation st' = ActorRotation st ∧
            (AttachParent st' = AttachParent st ∨ AttachParent st' = None)).

(** From [e] to [e'], nothing has happened to the actor objects but
    destruction: every object of [e] is still there with its class, label,
    switches, components and placement, dead if it was; and it has the
    parent it had, or none when that parent is an object that is destroyed
    in [e']. *)
Definition destroys_only (e e' : Engine) : Prop :=
  ∀ (x : AActor) st, Actors e !! x = Some st →
    ∃ st', Actors e' !! x = Some st' ∧
           ActorClass st' = ActorClass st ∧ ActorLabel st' = ActorLabel st ∧
           bHidden st' = bHidden st ∧
           bEnableCollision st' = bEnableCollision st ∧
           bTickEnabled st' = bTickEnabled st ∧
           OwnedComponents st' = OwnedComponents st ∧
           ActorLocation st' = ActorLocation st ∧
           ActorRotation st' = ActorRotation st ∧
           (bPendingKill st = true → bPendingKill st' = true) ∧
           (AttachParent st' = AttachParent st ∨
            AttachParent st' = None ∧
            ∃ p stp, AttachParent st = Some p ∧ Actors e' !! p = Some stp ∧
                     bPendingKill stp = true).

(** What holds of the actor objects in every state the subsystem can
    reach: a recorded actor is an object of the class it is recorded for,
    and no record holds a null class; the actors of the free lists are
    switched off; no two categories share a root; and the roots are plain
    actors that carry the labels they were created with, a category root
    attached to nothing or to an actor that has been allocated, the main
    root to nothing. *)
Record inv_objects (s : UUnrealObjectPooler) : Prop := {
  inv_class : ∀ a v, ActorToClassMap s !! a = Some v →
      ∃ c st, v = Some c ∧ Actors (engine s) !! a = Some st ∧ ActorClass st = c;
  inv_off : ∀ c a, a ∈ pool_of c s → activation a (engine s) false;
  inv_roots_inj : ∀ pt1 pt2 r,
      PoolRoots s !! pt1 = Some r → PoolRoots s !! pt2 = Some r → pt1 = pt2;
  inv_root_label : ∀ pt r, PoolRoots s !! pt = Some r →
      ∃ st, Actors (engine s) !! r = Some st ∧
            ActorClass st = AActor_StaticClass ∧
            ActorLabel st = "PoolRoot_" +:+ EnumName pt ∧
            ∀ p, AttachParent st = Some p → is_Some (Actors (engine s) !! p);
  inv_main_label : ∀ m, MainPoolRoot s = Some m →
      ∃ st, Actors (engine s) !! m = Some st ∧
            ActorClass st = AActor_StaticClass ∧
            ActorLabel st = "ObjectPools_Root" ∧ AttachParent st = None
}.

(** A hierarchy for the examples: a class is a child of itself and of the
    plain actor class. *)
Definition flat_hierarchy : ClassHierarchy :=
  {| IsChildOf := λ c T, bool_decide (c = T ∨ T = AActor_StaticClass) |}.

(** ** The engine's primitives *)

Lemma IsValid_None e : IsValid None e = false.
Proof. done. Qed.

Lemma IsValid_is_Some a e : IsValid (Some a) e = true → is_Some (Actors e !! a).
Proof. unfold IsValid. destruct (Actors e !! a); [eauto | done]. Qed.

(** An update of one actor object that leaves [bPendingKill] alone leaves
    every validity alone. *)
Lemma IsValid_alter f a e p :
  (∀ st, bPendingKill (f st) = bPendingKill st) →
  IsValid p (set_Actors (alter f a) e) = IsValid p e.
Proof.
  intros Hf. destruct p as [b|]; [|done]. unfold IsValid; simpl.
  destruct (decide (a = b)) as [->|Hne].
  - rewrite lookup_alter_eq. destruct (Actors e !! b); simpl; [by rewrite Hf | done].
  - by rewrite lookup_alter_ne.
Qed.

Lemma is_Some_alter (f : ActorState → ActorState) a b (m : gmap AActor ActorState) :
  is_Some (alter f a m !! b) ↔ is_Some (m !! b).
Proof.
  destruct (decide (a = b)) as [->|Hne].
  - rewrite lookup_alter_eq. by rewrite fmap_is_Some.
  - by rewrite lookup_alter_ne.
Qed.

Lemma IsValid_Destroy a b e :
  IsValid (Some b) (Destroy a e) = IsValid (Some b) e && bool_decide (b ≠ a).
Proof.
  unfold IsValid, Destroy; simpl. rewrite lookup_fmap.
  destruct (decide (a = b)) as [->|Hne].
  - rewrite lookup_alter_eq. rewrite bool_decide_eq_false_2 by tauto.
    destruct (Actors e !! b) as [st|]; simpl; [|done].
    rewrite andb_false_r. unfold detach_from. by case_decide.
  - rewrite lookup_alter_ne by done. rewrite bool_decide_eq_true_2 by congruence.
    rewrite andb_true_r.
    destruct (Actors e !! b) as [st|]; simpl; [|done].
    unfold detach_from. by case_decide.
Qed.

Lemma is_Some_Destroy a b e :
  is_Some (Actors (Destroy a e) !! b) ↔ is_Some (Actors e !! b).
Proof.
  unfold Destroy; simpl. rewrite lookup_fmap, fmap_is_Some. apply is_Some_alter.
Qed.

Lemma IsValid_SetActorActive p a b e :
  IsValid p (SetActorActive a b e) = IsValid p e.
Proof.
  unfold SetActorActive. destruct (negb (IsValid a e)); [done|].
  destruct a; [|done]. by apply IsValid_alter.
Qed.

Lemma IsValid_SetActorLocationAndRotation p a loc rot e :
  IsValid p (SetActorLocationAndRotation a loc rot e) = IsValid p e.
Proof. by apply IsValid_alter. Qed.

Lemma IsValid_SetActorLabel p a l e :
  IsValid p (SetActorLabel a l e) = IsValid p e.
Proof. by apply IsValid_alter. Qed.

Lemma IsValid_AttachToActor p a q e :
  IsValid p (AttachToActor a q e) = IsValid p e.
Proof. destruct q; [by apply IsValid_alter | done]. Qed.

(** ** The pop loop *)

Lemma PopValid_nil fuel e : PopValid fuel e [] = (None, []).
Proof. by destruct fuel. Qed.

Lemma PopValid_snoc fuel e arr a :
  PopValid (S fuel) e (arr ++ [a]) =
  if IsValid (Some a) e then (Some a, arr) else PopValid fuel e arr.
Proof. simpl. by rewrite last_snoc, removelast_last. Qed.

(** What the loop does: it drops a run of invalid actors from the end of the
    array, then either stops at the first valid one, or runs out. *)
Lemma PopValid_spec e arr r rest :
  PopValid (length arr) e arr = (r, rest) →
  ∃ dropped,
    Forall (λ a, IsValid (Some a) e = false) dropped ∧
    match r with
    | Some a => arr = rest ++ a :: dropped ∧ IsValid (Some a) e = true
    | None => rest = [] ∧ arr = dropped
    end.
Proof.
  revert r rest. induction arr as [|a arr IH] using rev_ind; intros r rest.
  - rewrite PopValid_nil. intros [= <- <-]. by exists [].
  - replace (length (arr ++ [a])) with (S (length arr))
      by (rewrite length_app; simpl; lia).
    rewrite PopValid_snoc.
    destruct (IsValid (Some a) e) eqn:Ha.
    + intros [= <- <-]. by exists [].
    + intros Hrec. destruct (IH _ _ Hrec) as (dropped & Hd & Hr).
      exists (dropped ++ [a]). split.
      { apply Forall_app; split; [done|]. by constructor. }
      destruct r as [b|].
      * destruct Hr as [-> Hb]. split; [|done]. by rewrite <- app_assoc.
      * destruct Hr as [-> ->]. done.
Qed.

(** With a valid actor on top, the loop takes it and nothing else. *)
Lemma PopValid_top e arr a :
  IsValid (Some a) e = true →
  PopValid (length (arr ++ [a])) e (arr ++ [a]) = (Some a, arr).
Proof.
  intros Ha. replace (length (arr ++ [a])) with (S (length arr))
    by (rewrite length_app; simpl; lia).
  by rewrite PopValid_snoc, Ha.
Qed.

(** ** Engine updates that allocate nothing *)


Lemma same_objects_refl e : same_objects e e.
Proof. by split_and!. Qed.

Lemma same_objects_trans e1 e2 e3 :
  same_objects e1 e2 → same_objects e2 e3 → same_objects e1 e3.
Proof.
  intros (H1 & N1 & W1) (H2 & N2 & W2). split_and!; [|congruence..].
  intros a. by rewrite H2, H1.
Qed.

Lemma same_objects_ok e e' : same_objects e e' → engine_ok e → engine_ok e'.
Proof. intros (Hd & Hn & _) Hok a Ha. rewrite Hn. apply Hok. by apply Hd. Qed.

Lemma same_objects_alter f a e : same_objects e (set_Actors (alter f a) e).
Proof. split_and!; [|done..]. intros b. apply is_Some_alter. Qed.

Lemma same_objects_Destroy a e : same_objects e (Destroy a e).
Proof. split_and!; [|done..]. intros b. apply is_Some_Destroy. Qed.

Lemma same_objects_Log l e : same_objects e (Log l e).
Proof. by split_and!. Qed.

Lemma same_objects_SetActorActive a b e : same_objects e (SetActorActive a b e).
Proof.
  unfold SetActorActive. destruct (negb (IsValid a e)); [apply same_objects_refl|].
  destruct a; [apply same_objects_alter | apply same_objects_refl].
Qed.

Lemma same_objects_AttachToActor a p e : same_objects e (AttachToActor a p e).
Proof. destruct p; [apply same_objects_alter | apply same_objects_refl]. Qed.

Lemma same_objects_DestroyIfValid a e : same_objects e (DestroyIfValid a e).
Proof.
  unfold DestroyIfValid. destruct (IsValid _ _);
    [apply same_objects_Destroy | apply same_objects_refl].
Qed.

(** ** Engine updates that only touch newly allocated actors *)


Lemma grows_refl e : grows e e.
Proof. split; auto. lia. Qed.

Lemma grows_trans e1 e2 e3 : grows e1 e2 → grows e2 e3 → grows e1 e3.
Proof.
  intros [O1 N1 L1 W1 K1] [O2 N2 L2 W2 K2]. split; try congruence; auto.
  - intros a Ha. rewrite O2 by lia. by apply O1.
  - lia.
Qed.

Lemma grows_alter f a e e' :
  grows e e' → (NextActor e ≤ a)%positive → grows e (set_Actors (alter f a) e').
Proof.
  intros [O N L W K] Ha. split; simpl; auto.
  - intros b Hb. rewrite lookup_alter_ne by lia. by apply O.
  - intros Hok. apply (same_objects_ok e'); [apply same_objects_alter | auto].
Qed.

Lemma grows_AttachToActor a p e e' :
  grows e e' → (NextActor e ≤ a)%positive → grows e (AttachToActor a p e').
Proof. intros. destruct p; [by apply grows_alter | done]. Qed.

Lemma grows_IsValid e e' a :
  grows e e' → (a < NextActor e)%positive → IsValid (Some a) e' = IsValid (Some a) e.
Proof. intros G Ha. unfold IsValid. by rewrite (grows_old _ _ G). Qed.

Section HostFacts.
Context `{HostPolicy}.

Lemma SpawnActor_refused c loc rot e e' :
  SpawnActor c loc rot e = (None, e') → CanSpawn e c = false ∧ e' = e.
Proof. unfold SpawnActor. destruct (CanSpawn e c); [done|]. by intros [= <-]. Qed.

Lemma SpawnActor_spawned c loc rot e a e' :
  SpawnActor c loc rot e = (Some a, e') →
  CanSpawn e c = true ∧ a = NextActor e ∧ NextActor e' = Pos.succ a ∧
  Actors e' !! a = Some (NewActorState c loc rot) ∧ grows e e'.
Proof.
  unfold SpawnActor. destruct (CanSpawn e c); [|done]. intros [= <- <-]; simpl.
  repeat split; simpl; auto.
  - by rewrite lookup_insert_eq.
  - intros b Hb. rewrite lookup_insert_ne by lia. done.
  - lia.
  - intros Hok b. simpl. destruct (decide (NextActor e = b)) as [<-|Hne].
    + lia.
    + rewrite lookup_insert_ne by done. intros Hb%Hok. lia.
Qed.

Lemma SpawnActor_grows c loc rot e : grows e (snd (SpawnActor c loc rot e)).
Proof.
  destruct (SpawnActor c loc rot e) as [[a|] e'] eqn:Hs; simpl.
  - by apply SpawnActor_spawned in Hs as (_ & _ & _ & _ & G).
  - apply SpawnActor_refused in Hs as [_ ->]. apply grows_refl.
Qed.

End HostFacts.


Section PoolRootFacts.
Context `{HostPolicy}.

(** [GetOrCreatePoolRoot] leaves the pools and the class map alone, touches
    only actors it allocates itself, and leaves [MainPoolRoot] as it was or
    pointing at a new allocation. *)
Lemma GetOrCreatePoolRoot_spec pt s r s' :
  GetOrCreatePoolRoot pt s = Some (r, s') →
  ObjectPools s' = ObjectPools s ∧
  ActorToClassMap s' = ActorToClassMap s ∧
  grows (engine s) (engine s') ∧
  (MainPoolRoot s' = MainPoolRoot s ∨
   ∃ m, MainPoolRoot s' = Some m ∧ (NextActor (engine s) ≤ m)%positive ∧
        is_Some (Actors (engine s') !! m)).
Proof.
  unfold GetOrCreatePoolRoot. unfold_M.
  destruct (HasWorld (engine s)); simpl.
  2:{ intros [= <- <-]. split_and!; auto using grows_refl. }
  destruct (IsValid (MainPoolRoot s) (engine s)) eqn:Hmain; simpl.
  - (* the main root is still there *)
    destruct (IsValid (PoolRoots s !! pt) (engine s)) eqn:Hroot; simpl.
    { intros [= <- <-]. split_and!; auto using grows_refl. }
    destruct (SpawnActor AActor_StaticClass ZeroVector ZeroRotator (engine s))
      as [[n|] e1] eqn:Hs; simpl; [|done].
    intros [= <- <-]; simpl.
    apply SpawnActor_spawned in Hs as (_ & -> & _ & _ & G).
    split_and!; auto.
    apply grows_AttachToActor; [|lia]. apply grows_alter; [done|lia].
  - (* the main root is spawned first *)
    destruct (SpawnActor AActor_StaticClass ZeroVector ZeroRotator (engine s))
      as [[m|] e1] eqn:Hs; simpl; [|done].
    apply SpawnActor_spawned in Hs as (_ & -> & Hn1 & Hm & G).
    remember (SetActorLabel (NextActor (engine s)) "ObjectPools_Root" e1) as e2 eqn:He2.
    assert (Hn12 : NextActor e2 = NextActor e1) by (rewrite He2; reflexivity).
    assert (G2 : grows (engine s) e2).
    { rewrite He2. apply grows_alter; [done|lia]. }
    assert (Hm2 : is_Some (Actors e2 !! NextActor (engine s))).
    { rewrite He2. apply is_Some_alter. by rewrite Hm. }
    destruct (IsValid (PoolRoots s !! pt) e2) eqn:Hroot; simpl.
    { intros [= <- <-]; simpl. rewrite <- He2. split_and!; auto.
      right. eexists; split_and!; [done | lia | subst e2; exact Hm2]. }
    rewrite <- He2.
    destruct (SpawnActor AActor_StaticClass ZeroVector ZeroRotator e2)
      as [[n|] e3] eqn:Hs3; simpl; [|done].
    intros [= <- <-]; simpl.
    apply SpawnActor_spawned in Hs3 as (_ & -> & _ & _ & G3).
    assert (G4 : grows e2 (AttachToActor (NextActor e2) (Some (NextActor (engine s)))
              (SetActorLabel (NextActor e2) ("PoolRoot_" +:+ EnumName pt) e3))).
    { apply grows_AttachToActor; [|lia]. apply grows_alter; [done|lia]. }
    split_and!; auto.
    + eapply grows_trans; [exact G2 | exact G4].
    + right. eexists; split_and!; [done | lia |].
      rewrite (grows_old _ _ G4) by lia. done.
Qed.

(** It leaves the category roots as they were, or adds one newly allocated
    root, allocated after the main root. *)
Lemma GetOrCreatePoolRoot_roots pt s r s' :
  GetOrCreatePoolRoot pt s = Some (r, s') →
  PoolRoots s' = PoolRoots s ∨
  ∃ n, PoolRoots s' = <[pt := n]> (PoolRoots s) ∧
       (NextActor (engine s) ≤ n)%positive ∧
       is_Some (Actors (engine s') !! n) ∧
       (MainPoolRoot s' = MainPoolRoot s ∨
        ∃ m, MainPoolRoot s' = Some m ∧ (m < n)%positive).
Proof.
  assert (Hnew : ∀ e n e' (p : option AActor) l,
            SpawnActor AActor_StaticClass ZeroVector ZeroRotator e = (Some n, e') →
            is_Some (Actors (AttachToActor n p (SetActorLabel n l e')) !! n)).
  { intros e n e' p l (_ & _ & _ & Hn & _)%SpawnActor_spawned.
    apply same_objects_AttachToActor, is_Some_alter. by rewrite Hn. }
  unfold GetOrCreatePoolRoot. unfold_M.
  destruct (HasWorld (engine s)); simpl.
  2:{ intros [= <- <-]. by left. }
  destruct (IsValid (MainPoolRoot s) (engine s)) eqn:Hmain; simpl.
  - destruct (IsValid (PoolRoots s !! pt) (engine s)) eqn:Hroot; simpl.
    { intros [= <- <-]. by left. }
    destruct (SpawnActor AActor_StaticClass ZeroVector ZeroRotator (engine s))
      as [[n|] e1] eqn:Hs; simpl; [|done].
    intros [= <- <-]; simpl. right. exists n. split_and!; [done | | by eapply Hnew | by left].
    apply SpawnActor_spawned in Hs as (_ & -> & _). lia.
  - destruct (SpawnActor AActor_StaticClass ZeroVector ZeroRotator (engine s))
      as [[m|] e1] eqn:Hs; simpl; [|done].
    apply SpawnActor_spawned in Hs as (_ & -> & Hn1 & _ & _).
    remember (SetActorLabel (NextActor (engine s)) "ObjectPools_Root" e1) as e2 eqn:He2.
    assert (Hn12 : NextActor e2 = NextActor e1) by (rewrite He2; reflexivity).
    destruct (IsValid (PoolRoots s !! pt) e2) eqn:Hroot; simpl.
    { intros [= <- <-]; simpl. by left. }
    rewrite <- He2.
    destruct (SpawnActor AActor_StaticClass ZeroVector ZeroRotator e2)
      as [[n|] e3] eqn:Hs3; simpl; [|done].
    intros [= <- <-]; simpl. right. exists n.
    pose proof (Hnew _ _ _ (Some (NextActor (engine s)))
                  ("PoolRoot_" +:+ EnumName pt) Hs3) as Hin.
    apply SpawnActor_spawned in Hs3 as (_ & -> & _).
    split_and!; [done | lia | exact Hin |].
    right. eexists. split; [done | lia].
Qed.

End PoolRootFacts.

(** ** The pools *)

Lemma pool_of_insert c c' P s :
  pool_of c' (set_ObjectPools <[c := P]> s) =
  if decide (c = c') then InactiveActors P else pool_of c' s.
Proof.
  unfold pool_of; simpl. case_decide as Hc.
  - subst. by rewrite lookup_insert_eq.
  - by rewrite lookup_insert_ne.
Qed.

Lemma pool_of_set_engine f c s : pool_of c (set_engine f s) = pool_of c s.
Proof. done. Qed.

Lemma pool_of_Initialize c e : pool_of c (Initialize e) = [].
Proof. unfold pool_of; simpl. by rewrite lookup_empty. Qed.

Lemma AddUnique_elem a b arr : b ∈ AddUnique a arr ↔ b = a ∨ b ∈ arr.
Proof.
  unfold AddUnique. case_decide.
  - split; [auto | intros [->|]; auto].
  - rewrite elem_of_app, list_elem_of_singleton. tauto.
Qed.

Lemma AddUnique_NoDup a arr : NoDup arr → NoDup (AddUnique a arr).
Proof.
  unfold AddUnique. case_decide; [done|]. intros Hnd.
  apply NoDup_app. split_and!; [done | | apply NoDup_singleton].
  intros b Hb ->%list_elem_of_singleton. done.
Qed.

(** [AddUnique] twice is [AddUnique] once. *)
Lemma AddUnique_idemp a arr : AddUnique a (AddUnique a arr) = AddUnique a arr.
Proof.
  unfold AddUnique at 1. rewrite decide_True; [done|].
  apply AddUnique_elem. by left.
Qed.

(** ** [SpawnObject], case by case *)


Section SpawnFacts.
Context `{HostPolicy}.

Lemma SpawnObject_null loc rot pt s :
  SpawnObject nullptr loc rot pt s = Some (nullptr, s).
Proof. done. Qed.

Lemma SpawnObject_no_world c loc rot pt s :
  HasWorld (engine s) = false → SpawnObject c loc rot pt s = Some (nullptr, s).
Proof. intros Hw. destruct c; [|done]. unfold SpawnObject. unfold_M. by rewrite Hw. Qed.

(** A valid actor was popped: it is placed, activated and returned. *)
Lemma SpawnObject_reuse c loc rot pt s a rest :
  HasWorld (engine s) = true →
  PopValid (length (pool_of c s)) (engine s) (pool_of c s) = (Some a, rest) →
  SpawnObject (Some c) loc rot pt s =
  Some (Some a,
        placed_active a loc rot
          (set_ObjectPools
             <[c := {| InactiveActors := rest;
                       PoolRoot := PoolRoot (default FActorPool_default (ObjectPools s !! c)) |}]>
             s)).
Proof.
  intros Hw Hpop. unfold SpawnObject. unfold_M. rewrite Hw; simpl.
  unfold pool_of in Hpop. by rewrite Hpop.
Qed.

(** The pool ran out and the host refused to spawn. *)
Lemma SpawnObject_refused c loc rot pt s rest :
  HasWorld (engine s) = true →
  PopValid (length (pool_of c s)) (engine s) (pool_of c s) = (None, rest) →
  CanSpawn (engine s) c = false →
  SpawnObject (Some c) loc rot pt s =
  Some (nullptr,
        set_ObjectPools
          <[c := {| InactiveActors := rest;
                    PoolRoot := PoolRoot (default FActorPool_default (ObjectPools s !! c)) |}]>
          s).
Proof.
  intros Hw Hpop Hcan. unfold SpawnObject. unfold_M. rewrite Hw; simpl.
  unfold pool_of in Hpop. rewrite Hpop; simpl.
  unfold SpawnActor. rewrite Hcan. by destruct s.
Qed.

(** The pool ran out and the host spawned a new actor. *)
Lemma SpawnObject_new c loc rot pt s rest a e1 :
  HasWorld (engine s) = true →
  PopValid (length (pool_of c s)) (engine s) (pool_of c s) = (None, rest) →
  SpawnActor c loc rot (engine s) = (Some a, e1) →
  SpawnObject (Some c) loc rot pt s =
  match
    GetOrCreatePoolRoot pt
      (set_ActorToClassMap <[a := Some c]>
         (set_engine (λ _, e1)
            (set_ObjectPools
               <[c := {| InactiveActors := rest;
                         PoolRoot := PoolRoot (default FActorPool_default (ObjectPools s !! c)) |}]>
               s)))
  with
  | Some (Root, s2) =>
      Some (Some a, placed_active a loc rot (set_engine (AttachToActor a Root) s2))
  | None => None
  end.
Proof.
  intros Hw Hpop Hs. unfold SpawnObject. unfold_M. rewrite Hw; simpl.
  unfold pool_of in Hpop. rewrite Hpop; simpl. rewrite Hs; simpl.
  by destruct (GetOrCreatePoolRoot _ _) as [[Root s2]|].
Qed.

End SpawnFacts.

(** ** [ReturnObjectToPool], case by case *)

Lemma ReturnObjectToPool_invalid Actor s :
  IsValid Actor (engine s) = false → ReturnObjectToPool Actor s = s.
Proof.
  intros Hv. destruct Actor as [a|]; [|done].
  unfold ReturnObjectToPool. by rewrite Hv.
Qed.

Lemma ReturnObjectToPool_managed a c s :
  IsValid (Some a) (engine s) = true →
  ActorToClassMap s !! a = Some (Some c) →
  ReturnObjectToPool (Some a) s =
  set_ObjectPools
    <[c := {| InactiveActors := AddUnique a (pool_of c s);
              PoolRoot := PoolRoot (default FActorPool_default (ObjectPools s !! c)) |}]>
    (set_engine (SetActorActive (Some a) false) s).
Proof. intros Hv Hc. unfold ReturnObjectToPool. by rewrite Hv, Hc. Qed.

Lemma ReturnObjectToPool_foreign a s :
  IsValid (Some a) (engine s) = true →
  ActorToClassMap s !! a = None ∨ ActorToClassMap s !! a = Some nullptr →
  ReturnObjectToPool (Some a) s =
  set_engine (λ e, Destroy a (Log (Warning_NotPooled a) e)) s.
Proof. intros Hv [Hc|Hc]; unfold ReturnObjectToPool; by rewrite Hv, Hc. Qed.

(** ** [Deinitialize] *)

Lemma destroy_list_spec l e :
  let e' := foldl (λ e a, DestroyIfValid a e) e l in
  same_objects e e' ∧ LogTemp e' = LogTemp e ∧ HasWorld e' = HasWorld e ∧
  ∀ b, IsValid (Some b) e' = true ↔ IsValid (Some b) e = true ∧ b ∉ l.
Proof.
  revert e. induction l as [|a l IH]; intros e; cbv zeta; simpl foldl.
  - split_and!; auto using same_objects_refl. intros b. rewrite elem_of_nil. tauto.
  - destruct (IH (DestroyIfValid a e)) as (S1 & L1 & W1 & V1).
    split_and!.
    + eapply same_objects_trans; [apply same_objects_DestroyIfValid | done].
    + rewrite L1. unfold DestroyIfValid. by destruct (IsValid _ _).
    + rewrite W1. unfold DestroyIfValid. by destruct (IsValid _ _).
    + intros b. rewrite V1, elem_of_cons. unfold DestroyIfValid.
      destruct (IsValid (Some a) e) eqn:Ha.
      * rewrite IsValid_Destroy, andb_true_iff, bool_decide_eq_true. tauto.
      * split; [intros [Hb Hl]|intros [Hb Hl]]; (split; [done|]).
        -- intros [->|]; [congruence | done].
        -- tauto.
Qed.

Lemma destroy_pools_spec (m : gmap UClass FActorPool) e :
  let e' := map_fold (λ _ Pool e, foldl (λ e a, DestroyIfValid a e) e (InactiveActors Pool))
              e m in
  same_objects e e' ∧ LogTemp e' = LogTemp e ∧ HasWorld e' = HasWorld e ∧
  ∀ b, IsValid (Some b) e' = true ↔
       IsValid (Some b) e = true ∧ ∀ c Pool, m !! c = Some Pool → b ∉ InactiveActors Pool.
Proof.
  simpl. apply (map_fold_weak_ind (λ e' m,
    same_objects e e' ∧ LogTemp e' = LogTemp e ∧ HasWorld e' = HasWorld e ∧
    ∀ b, IsValid (Some b) e' = true ↔
         IsValid (Some b) e = true ∧ ∀ c Pool, m !! c = Some Pool → b ∉ InactiveActors Pool)).
  - split_and!; auto using same_objects_refl. intros b. split; [|tauto].
    intros Hb. split; [done|]. intros c Pool. by rewrite lookup_empty.
  - intros c Pool m' r Hc (S1 & L1 & W1 & V1).
    destruct (destroy_list_spec (InactiveActors Pool) r) as (S2 & L2 & W2 & V2).
    split_and!.
    + by eapply same_objects_trans.
    + congruence.
    + congruence.
    + intros b. rewrite V2, V1. split.
      * intros [[Hb Hm] Hp]. split; [done|]. intros c' Pool'.
        destruct (decide (c = c')) as [<-|Hne].
        -- rewrite lookup_insert_eq. by intros [= <-].
        -- rewrite lookup_insert_ne by done. apply Hm.
      * intros [Hb Hm]. split_and!; [done | |].
        -- intros c' Pool' Hc'. apply (Hm c').
           rewrite lookup_insert_ne; [done|]. intros <-. congruence.
        -- apply (Hm c). by rewrite lookup_insert_eq.
Qed.


Lemma pooled_lookup s a :
  pooled s a ↔ ∃ c Pool, ObjectPools s !! c = Some Pool ∧ a ∈ InactiveActors Pool.
Proof.
  unfold pooled, pool_of. split.
  - intros [c Hc]. destruct (ObjectPools s !! c) as [Pool|] eqn:E; simpl in Hc.
    + eauto.
    + by apply elem_of_nil in Hc.
  - intros (c & Pool & E & Hc). exists c. by rewrite E.
Qed.

(** After [Deinitialize]: the three maps are empty, no actor was allocated,
    nothing was logged, and exactly the actors that were pooled, and the main
    root, have stopped being valid. *)
Lemma Deinitialize_spec s :
  let s' := Deinitialize s in
  ObjectPools s' = ∅ ∧ ActorToClassMap s' = ∅ ∧ PoolRoots s' = ∅ ∧
  IsValid (MainPoolRoot s') (engine s') = false ∧
  same_objects (engine s) (engine s') ∧
  LogTemp (engine s') = LogTemp (engine s) ∧
  HasWorld (engine s') = HasWorld (engine s) ∧
  (MainPoolRoot s' = None ∨ MainPoolRoot s' = MainPoolRoot s) ∧
  ∀ b, IsValid (Some b) (engine s') = true ↔
       IsValid (Some b) (engine s) = true ∧ ¬ pooled s b ∧ MainPoolRoot s ≠ Some b.
Proof.
  unfold Deinitialize.
  destruct (destroy_pools_spec (ObjectPools s) (engine s)) as (S1 & L1 & W1 & V1).
  set (e1 := map_fold _ _ _) in *.
  assert (Hpooled : ∀ b, (∀ c Pool, ObjectPools s !! c = Some Pool → b ∉ InactiveActors Pool)
                         ↔ ¬ pooled s b).
  { intros b. rewrite pooled_lookup. split.
    - intros Hn (c & Pool & E & Hb). by apply (Hn c Pool).
    - intros Hn c Pool E Hb. apply Hn. eauto. }
  destruct (MainPoolRoot s) as [m|] eqn:Hmain.
  - destruct (IsValid (Some m) e1) eqn:Hm; simpl.
    + split_and!; auto.
      * eapply same_objects_trans; [done | apply same_objects_Destroy].
      * intros b. rewrite IsValid_Destroy, andb_true_iff, bool_decide_eq_true.
        rewrite V1, Hpooled. split; [intros [[? ?] ?] | intros (? & ? & ?)];
          split_and!; auto; congruence.
    + split_and!; auto.
      intros b. rewrite V1, Hpooled. split; [intros [Hb Hnp] | tauto].
      split_and!; auto. intros [= ->].
      assert (IsValid (Some b) e1 = true); [|congruence].
      apply V1. split; [done|]. by apply Hpooled.
  - simpl. split_and!; auto.
    intros b. rewrite V1, Hpooled. split; [intros [? ?] | tauto]. by split_and!.
Qed.

(** ** The invariant is kept *)

Lemma inv_Initialize e : engine_ok e → inv (Initialize e).
Proof.
  intros Hok. split; simpl; auto.
  - intros a. rewrite lookup_empty. by intros [? ?].
  - intros c a. rewrite pool_of_Initialize. by intros ?%elem_of_nil.
  - intros c. rewrite pool_of_Initialize. constructor.
  - done.
  - intros pt r. by rewrite lookup_empty.
Qed.

(** A change that leaves pools and class map alone and loses no actor
    object keeps the invariant, if it keeps the roots' part of it. *)
Lemma inv_frame s s' :
  inv s →
  ObjectPools s' = ObjectPools s →
  ActorToClassMap s' = ActorToClassMap s →
  engine_ok (engine s') →
  (∀ a, is_Some (Actors (engine s) !! a) → is_Some (Actors (engine s') !! a)) →
  (∀ m, MainPoolRoot s' = Some m →
        is_Some (Actors (engine s') !! m) ∧ ActorToClassMap s !! m = None) →
  (∀ pt r, PoolRoots s' !! pt = Some r →
        is_Some (Actors (engine s') !! r) ∧ ActorToClassMap s !! r = None ∧
        MainPoolRoot s' ≠ Some r) →
  inv s'.
Proof.
  intros [I1 I2 I3 I4 I5 I6] HP HC Hok Hdom Hmain Hroots.
  assert (Hpool : ∀ c, pool_of c s' = pool_of c s).
  { intros c. unfold pool_of. by rewrite HP. }
  split; auto.
  - intros a. rewrite HC. auto.
  - intros c a. rewrite Hpool, HC. auto.
  - intros c. rewrite Hpool. auto.
  - intros m Hm. rewrite HC. auto.
  - intros pt r Hr. rewrite HC. by apply (Hroots pt).
Qed.

Lemma inv_same_objects f s :
  inv s → same_objects (engine s) (f (engine s)) → inv (set_engine f s).
Proof.
  intros I S. pose proof S as (Hd & Hn & _). apply (inv_frame s); simpl; auto.
  - apply (same_objects_ok (engine s)); [done | apply I].
  - intros a. apply Hd.
  - intros m Hm. destruct (inv_main _ I m Hm). split; [by apply Hd | done].
  - intros pt r Hr. destruct (inv_roots _ I pt r Hr) as (? & ? & ?).
    split_and!; [by apply Hd | done | done].
Qed.

Lemma grows_is_Some e e' a :
  engine_ok e → grows e e' → is_Some (Actors e !! a) → is_Some (Actors e' !! a).
Proof. intros Hok G Ha. rewrite (grows_old _ _ G); [done | by apply Hok]. Qed.

Lemma inv_grows e' s :
  inv s → grows (engine s) e' → inv (set_engine (λ _, e') s).
Proof.
  intros I G. apply (inv_frame s); simpl; auto.
  - apply (grows_ok _ _ G), I.
  - intros a. apply grows_is_Some; [apply I | done].
  - intros m Hm. destruct (inv_main _ I m Hm). split; [|done].
    eapply grows_is_Some; [apply I | done | done].
  - intros pt r Hr. destruct (inv_roots _ I pt r Hr) as (? & ? & ?).
    split_and!; [|done..]. eapply grows_is_Some; [apply I | done | done].
Qed.

(** Replacing the free list of a class by one without duplicates whose
    actors are recorded for that class. *)
Lemma inv_set_pool s c P :
  inv s →
  NoDup (InactiveActors P) →
  (∀ x, x ∈ InactiveActors P → ActorToClassMap s !! x = Some (Some c)) →
  inv (set_ObjectPools <[c := P]> s).
Proof.
  intros [I1 I2 I3 I4 I5 I6] Hnd Hty. split; simpl; auto.
  - intros c' a. rewrite pool_of_insert. case_decide; [subst; auto | auto].
  - intros c'. rewrite pool_of_insert. case_decide; auto.
Qed.

(** Recording a newly allocated actor. *)
Lemma inv_record s a c e1 :
  inv s → grows (engine s) e1 → a = NextActor (engine s) →
  is_Some (Actors e1 !! a) →
  inv (set_ActorToClassMap <[a := Some c]> (set_engine (λ _, e1) s)).
Proof.
  intros I G -> Ha. pose proof I as [I1 I2 I3 I4 I5 I6].
  assert (Hold : ∀ x, is_Some (ActorToClassMap s !! x) → x ≠ NextActor (engine s)).
  { intros x Hx%I2%I1. lia. }
  split; simpl.
  - apply (grows_ok _ _ G), I1.
  - intros x. destruct (decide (NextActor (engine s) = x)) as [<-|Hne]; [done|].
    rewrite lookup_insert_ne by done. intros Hx%I2.
    by eapply grows_is_Some.
  - intros c' x Hx. apply I3 in Hx as Hx'.
    rewrite lookup_insert_ne; [done|]. intros E. apply (Hold x); [by rewrite Hx' | done].
  - done.
  - intros m Hm. destruct (I5 m Hm) as [Hm1 Hm2]. split.
    + by eapply grows_is_Some.
    + rewrite lookup_insert_ne; [done|]. apply I1 in Hm1. lia.
  - intros pt r Hr. destruct (I6 pt r Hr) as (Hr1 & Hr2 & Hr3). split_and!.
    + by eapply grows_is_Some.
    + rewrite lookup_insert_ne; [done|]. apply I1 in Hr1. lia.
    + done.
Qed.

Section Preservation.
Context `{HostPolicy}.

Lemma inv_GetOrCreatePoolRoot pt s r s' :
  inv s → GetOrCreatePoolRoot pt s = Some (r, s') → inv s'.
Proof.
  intros I Hg. pose proof (GetOrCreatePoolRoot_roots _ _ _ _ Hg) as Hroots.
  apply GetOrCreatePoolRoot_spec in Hg as (HP & HC & G & Hmain).
  assert (Hnew : ∀ n : AActor, (NextActor (engine s) ≤ n)%positive →
                 ActorToClassMap s !! n = None).
  { intros n Hn. destruct (ActorToClassMap s !! n) eqn:E; [|done].
    assert (is_Some (Actors (engine s) !! n)) as Hx%(inv_engine _ I).
    { apply (inv_recorded _ I). by rewrite E. }
    lia. }
  assert (Hmain' : ∀ m, MainPoolRoot s' = Some m →
            MainPoolRoot s = Some m ∨ (NextActor (engine s) ≤ m)%positive).
  { intros m Hm. destruct Hmain as [Hsame | (m' & Hm' & Hge & _)]; [left; congruence|].
    right. congruence. }
  apply (inv_frame s); auto.
  - apply (grows_ok _ _ G), I.
  - intros a. apply grows_is_Some; [apply I | done].
  - intros m Hm. destruct Hmain as [Hsame | (m' & Hm' & Hge & Hin)].
    + rewrite Hsame in Hm. destruct (inv_main _ I m Hm). split; [|done].
      eapply grows_is_Some; [apply I | done | done].
    + rewrite Hm' in Hm. injection Hm as <-. split; [done | by apply Hnew].
  - intros pt' n Hn.
    assert (Hold : PoolRoots s !! pt' = Some n →
              is_Some (Actors (engine s') !! n) ∧ ActorToClassMap s !! n = None ∧
              MainPoolRoot s' ≠ Some n).
    { intros Hn'. destruct (inv_roots _ I pt' n Hn') as (Hn1 & Hn2 & Hn3).
      split_and!; [eapply grows_is_Some; [apply I | done | done] | done |].
      intros Hm. destruct (Hmain' n Hm) as [?|Hge]; [done|].
      apply (inv_engine _ I) in Hn1. lia. }
    destruct Hroots as [Hsame | (n' & Hins & Hge & Hin & Hlt)].
    + rewrite Hsame in Hn. by apply Hold.
    + rewrite Hins in Hn. destruct (decide (pt = pt')) as [<-|Hne].
      * rewrite lookup_insert_eq in Hn. injection Hn as <-.
        split_and!; [done | by apply Hnew |].
        intros Hm. destruct Hlt as [Hsame | (m & Hm' & Hmn)].
        -- rewrite Hsame in Hm. destruct (inv_main _ I _ Hm) as [Hx%(inv_engine _ I) _].
           lia.
        -- rewrite Hm' in Hm. injection Hm as ->. lia.
      * rewrite lookup_insert_ne in Hn by done. by apply Hold.
Qed.

Lemma inv_placed_active a loc rot s : inv s → inv (placed_active a loc rot s).
Proof.
  intros I. unfold placed_active.
  apply inv_same_objects; [|apply same_objects_SetActorActive].
  apply inv_same_objects; [done | apply same_objects_alter].
Qed.

(** The free list the pop loop leaves is a prefix of the one it found. *)
Lemma PopValid_prefix e arr r rest x :
  PopValid (length arr) e arr = (r, rest) → x ∈ rest → x ∈ arr.
Proof.
  intros (dropped & _ & Hr)%PopValid_spec Hx. destruct r as [a|].
  - destruct Hr as [-> _]. apply elem_of_app. by left.
  - destruct Hr as [-> _]. by apply elem_of_nil in Hx.
Qed.

Lemma PopValid_NoDup e arr r rest :
  PopValid (length arr) e arr = (r, rest) → NoDup arr → NoDup rest.
Proof.
  intros (dropped & _ & Hr)%PopValid_spec Hnd. destruct r as [a|].
  - destruct Hr as [-> _]. by apply NoDup_app in Hnd as [? _].
  - destruct Hr as [-> _]. constructor.
Qed.

Lemma inv_popped s c r rest PR :
  inv s →
  PopValid (length (pool_of c s)) (engine s) (pool_of c s) = (r, rest) →
  inv (set_ObjectPools <[c := {| InactiveActors := rest; PoolRoot := PR |}]> s).
Proof.
  intros I Hpop. apply inv_set_pool; simpl; [done | |].
  - eapply PopValid_NoDup; [done | apply I].
  - intros x Hx. apply (inv_typed _ I). by eapply PopValid_prefix.
Qed.

Lemma inv_SpawnObject c loc rot pt s r s' :
  inv s → SpawnObject c loc rot pt s = Some (r, s') → inv s'.
Proof.
  intros I. destruct c as [c|]; [|by intros [= <- <-]].
  destruct (HasWorld (engine s)) eqn:Hw.
  2:{ rewrite SpawnObject_no_world by done. by intros [= <- <-]. }
  destruct (PopValid (length (pool_of c s)) (engine s) (pool_of c s))
    as [[a|] rest] eqn:Hpop.
  - rewrite (SpawnObject_reuse _ _ _ _ _ _ _ Hw Hpop). intros [= <- <-].
    apply inv_placed_active. by eapply inv_popped.
  - destruct (SpawnActor c loc rot (engine s)) as [[a|] e1] eqn:Hs.
    + rewrite (SpawnObject_new _ _ _ _ _ _ _ _ Hw Hpop Hs).
      destruct (GetOrCreatePoolRoot _ _) as [[Root s2]|] eqn:Hg; [|done].
      intros [= <- <-]. apply inv_placed_active.
      apply inv_same_objects; [|apply same_objects_AttachToActor].
      eapply inv_GetOrCreatePoolRoot; [|exact Hg].
      apply SpawnActor_spawned in Hs as (_ & -> & _ & Ha & G).
      apply (inv_record (set_ObjectPools _ s)); simpl; auto.
      by eapply inv_popped.
    + apply SpawnActor_refused in Hs as [Hcan _].
      rewrite (SpawnObject_refused _ _ _ _ _ _ Hw Hpop Hcan). intros [= <- <-].
      by eapply inv_popped.
Qed.

Lemma inv_ReturnObjectToPool Actor s : inv s → inv (ReturnObjectToPool Actor s).
Proof.
  intros I. destruct (IsValid Actor (engine s)) eqn:Hv.
  2:{ by rewrite ReturnObjectToPool_invalid. }
  destruct Actor as [a|]; [|done].
  destruct (ActorToClassMap s !! a) as [[c|]|] eqn:Hc.
  - rewrite (ReturnObjectToPool_managed _ _ _ Hv Hc).
    apply inv_set_pool; simpl.
    + apply inv_same_objects; [done | apply same_objects_SetActorActive].
    + apply AddUnique_NoDup, I.
    + intros x [->|Hx]%AddUnique_elem; [done | by apply I].
  - rewrite ReturnObjectToPool_foreign by auto.
    apply inv_same_objects; [done|].
    eapply same_objects_trans; [apply same_objects_Log | apply same_objects_Destroy].
  - rewrite ReturnObjectToPool_foreign by auto.
    apply inv_same_objects; [done|].
    eapply same_objects_trans; [apply same_objects_Log | apply same_objects_Destroy].
Qed.

Lemma inv_InitializePool_loop n c pt s u s' :
  inv s → InitializePool_loop n c pt s = Some (u, s') → inv s'.
Proof.
  revert s. induction n as [|n IH]; intros s I; simpl.
  - by intros [= <- <-].
  - unfold_M. destruct (SpawnObject (Some c) ZeroVector ZeroRotator pt s)
      as [[r s1]|] eqn:Hs; simpl; [|done].
    apply inv_SpawnObject in Hs; [|done].
    destruct r as [a|]; simpl; apply IH; [by apply inv_ReturnObjectToPool | done].
Qed.

Lemma inv_InitializePool c n pt s u s' :
  inv s → InitializePool c n pt s = Some (u, s') → inv s'.
Proof.
  intros I. destruct c as [c|]; simpl; [by apply inv_InitializePool_loop|].
  by intros [= <- <-].
Qed.

Lemma inv_Deinitialize s : inv s → inv (Deinitialize s).
Proof.
  intros I.
  destruct (Deinitialize_spec s) as (HP & HC & HR & _ & S & _ & _ & Hmain & _).
  pose proof S as (Hd & Hn & _).
  assert (Hpool : ∀ c, pool_of c (Deinitialize s) = []).
  { intros c. unfold pool_of. by rewrite HP, lookup_empty. }
  split.
  - apply (same_objects_ok (engine s)); [done | apply I].
  - intros a. rewrite HC, lookup_empty. by intros [? ?].
  - intros c a. rewrite Hpool. by intros ?%elem_of_nil.
  - intros c. rewrite Hpool. constructor.
  - intros m Hm. rewrite HC, lookup_empty. split; [|done].
    destruct Hmain as [E|E]; rewrite E in Hm; [done|].
    apply Hd. by apply (inv_main _ I).
  - intros pt r. by rewrite HR, lookup_empty.
Qed.

Lemma inv_exec op s s' : inv s → exec op s = Some s' → inv s'.
Proof.
  intros I. destruct op; simpl.
  - destruct (SpawnObject _ _ _ _ s) as [[r s1]|] eqn:Hs; simpl; [|done].
    intros [= <-]. by eapply inv_SpawnObject.
  - intros [= <-]. by apply inv_ReturnObjectToPool.
  - destruct (InitializePool _ _ _ s) as [[u s1]|] eqn:Hs; simpl; [|done].
    intros [= <-]. by eapply inv_InitializePool.
  - intros [= <-]. by apply inv_Deinitialize.
  - intros [= <-]. apply inv_same_objects; [done | apply same_objects_Destroy].
  - intros [= <-]. apply (inv_grows _ s I), SpawnActor_grows.
Qed.

Lemma inv_run ops s s' : inv s → run ops s = Some s' → inv s'.
Proof.
  revert s. induction ops as [|op ops IH]; intros s I; simpl.
  - by intros [= <-].
  - destruct (exec op s) as [s1|] eqn:He; [|done].
    apply IH. by eapply inv_exec.
Qed.

(** Every state the subsystem can reach satisfies the invariant. *)
Lemma reachable_inv s : reachable s → inv s.
Proof.
  intros (e & ops & Hok & Hrun). eapply inv_run; [|exact Hrun].
  by apply inv_Initialize.
Qed.

End Preservation.

(** ** What [SetActorActive] establishes *)

Lemma SetActorActive_activation a b e :
  IsValid (Some a) e = true → activation a (SetActorActive (Some a) b e) b.
Proof.
  intros Hv. unfold SetActorActive, activation. rewrite Hv; simpl.
  rewrite lookup_alter_eq. apply IsValid_is_Some in Hv as [st ->]; simpl.
  split_and!; auto. apply Forall_fmap. by apply Forall_true.
Qed.

Lemma placed_active_valid a loc rot s p :
  IsValid p (engine (placed_active a loc rot s)) = IsValid p (engine s).
Proof.
  unfold placed_active; simpl.
  by rewrite IsValid_SetActorActive, IsValid_SetActorLocationAndRotation.
Qed.

Lemma placed_active_activation a loc rot s :
  IsValid (Some a) (engine s) = true →
  activation a (engine (placed_active a loc rot s)) true.
Proof.
  intros Hv. unfold placed_active; simpl. apply SetActorActive_activation.
  by rewrite IsValid_SetActorLocationAndRotation.
Qed.

Lemma placed_active_same_objects a loc rot s :
  same_objects (engine s) (engine (placed_active a loc rot s)).
Proof.
  unfold placed_active; simpl.
  eapply same_objects_trans; [apply same_objects_alter | apply same_objects_SetActorActive].
Qed.

Lemma HasWorld_SetActorActive a b e : HasWorld (SetActorActive a b e) = HasWorld e.
Proof. apply same_objects_SetActorActive. Qed.

Lemma HasWorld_SetActorLocationAndRotation a loc rot e :
  HasWorld (SetActorLocationAndRotation a loc rot e) = HasWorld e.
Proof. done. Qed.

Lemma HasWorld_AttachToActor a p e : HasWorld (AttachToActor a p e) = HasWorld e.
Proof. apply same_objects_AttachToActor. Qed.

Lemma PopValid_all_invalid e arr :
  Forall (λ a, IsValid (Some a) e = false) arr →
  PopValid (length arr) e arr = (None, []).
Proof.
  induction arr as [|a arr IH] using rev_ind; intros Hall.
  - apply PopValid_nil.
  - apply Forall_app in Hall as [Harr Ha]. rewrite Forall_singleton in Ha.
    replace (length (arr ++ [a])) with (S (length arr))
      by (rewrite length_app; simpl; lia).
    rewrite PopValid_snoc, Ha. auto.
Qed.

Section SpawnResult.
Context `{HostPolicy}.

(** Everything [SpawnObject] can do for a class, when there is a world:
    after dropping a run of invalid actors from the top of the free list it
    either reuses the first valid one, or finds the list exhausted and
    spawns, or finds it exhausted and is refused. *)
Lemma SpawnObject_cases T loc rot pt s r s' :
  HasWorld (engine s) = true →
  SpawnObject (Some T) loc rot pt s = Some (r, s') →
  ∃ dropped,
    Forall (λ a, IsValid (Some a) (engine s) = false) dropped ∧
    ((∃ a, r = Some a ∧
           pool_of T s = pool_of T s' ++ a :: dropped ∧
           IsValid (Some a) (engine s) = true ∧
           NextActor (engine s') = NextActor (engine s) ∧
           ActorToClassMap s' = ActorToClassMap s)
     ∨ (r = Some (NextActor (engine s)) ∧
        pool_of T s = dropped ∧ pool_of T s' = [] ∧
        CanSpawn (engine s) T = true ∧
        ActorToClassMap s' = <[NextActor (engine s) := Some T]> (ActorToClassMap s))
     ∨ (r = nullptr ∧
        pool_of T s = dropped ∧ pool_of T s' = [] ∧
        CanSpawn (engine s) T = false ∧
        ActorToClassMap s' = ActorToClassMap s ∧ engine s' = engine s)) ∧
    (∀ c, c ≠ T → ObjectPools s' !! c = ObjectPools s !! c) ∧
    HasWorld (engine s') = true ∧
    ∀ a, r = Some a →
         IsValid (Some a) (engine s') = true ∧ activation a (engine s') true.
Proof.
  intros Hw.
  destruct (PopValid (length (pool_of T s)) (engine s) (pool_of T s))
    as [[a|] rest] eqn:Hpop.
  - (* reuse *)
    rewrite (SpawnObject_reuse _ _ _ _ _ _ _ Hw Hpop). intros [= <- <-].
    apply PopValid_spec in Hpop as (dropped & Hd & Harr & Ha).
    exists dropped. split; [done|].
    assert (Hrest : pool_of T (placed_active a loc rot
              (set_ObjectPools <[T := {| InactiveActors := rest;
                 PoolRoot := PoolRoot (default FActorPool_default (ObjectPools s !! T)) |}]> s))
            = rest).
    { unfold placed_active. rewrite !pool_of_set_engine, pool_of_insert.
      by rewrite decide_True. }
    split_and!.
    + left. exists a. rewrite Hrest. split_and!; auto.
      apply (placed_active_same_objects a loc rot (set_ObjectPools _ s)).
    + intros c Hc. simpl. by rewrite lookup_insert_ne.
    + rewrite <- Hw.
      apply (placed_active_same_objects a loc rot (set_ObjectPools _ s)).
    + intros ? [= <-]. split.
      * by rewrite placed_active_valid.
      * by apply placed_active_activation.
  - apply PopValid_spec in Hpop as Hspec. destruct Hspec as (dropped & Hd & -> & Harr).
    destruct (SpawnActor T loc rot (engine s)) as [[a|] e1] eqn:Hs.
    + (* a new actor *)
      rewrite (SpawnObject_new _ _ _ _ _ _ _ _ Hw Hpop Hs).
      destruct (GetOrCreatePoolRoot _ _) as [[Root s2]|] eqn:Hg; [|done].
      intros [= <- <-]. exists dropped. split; [done|].
      apply SpawnActor_spawned in Hs as (Hcan & -> & Hn1 & Ha & G).
      apply GetOrCreatePoolRoot_spec in Hg as (HP & HC & G2 & _). simpl in HP, HC, G2.
      assert (Hv : IsValid (Some (NextActor (engine s))) (engine s2) = true).
      { rewrite (grows_IsValid _ _ _ G2) by lia. unfold IsValid. by rewrite Ha. }
      split_and!.
      * right; left. unfold placed_active, pool_of; simpl. rewrite HP, HC.
        rewrite lookup_insert_eq. by split_and!.
      * intros c Hc. simpl. rewrite HP. by rewrite lookup_insert_ne.
      * unfold placed_active; simpl.
        rewrite HasWorld_SetActorActive, HasWorld_SetActorLocationAndRotation,
          HasWorld_AttachToActor.
        rewrite (grows_world _ _ G2). by rewrite (grows_world _ _ G).
      * intros ? [= <-]. split.
        -- by rewrite placed_active_valid; simpl; rewrite IsValid_AttachToActor.
        -- apply placed_active_activation. simpl. by rewrite IsValid_AttachToActor.
    + (* refused *)
      apply SpawnActor_refused in Hs as [Hcan _].
      rewrite (SpawnObject_refused _ _ _ _ _ _ Hw Hpop Hcan). intros [= <- <-].
      exists dropped. split; [done|].
      split_and!.
      * right; right. unfold pool_of; simpl. rewrite lookup_insert_eq. by split_and!.
      * intros c Hc. simpl. by rewrite lookup_insert_ne.
      * done.
      * done.
Qed.

(** An actor [SpawnObject] returns is handed out. *)
Lemma SpawnObject_active_for T loc rot pt s x s' :
  inv s → SpawnObject (Some T) loc rot pt s = Some (Some x, s') →
  active_for T x s' ∧ HasWorld (engine s') = true.
Proof.
  intros I Hs. destruct (HasWorld (engine s)) eqn:Hw.
  2:{ by rewrite SpawnObject_no_world in Hs. }
  destruct (SpawnObject_cases _ _ _ _ _ _ _ Hw Hs)
    as (dropped & Hd & Hcase & _ & Hw' & Hres).
  destruct (Hres x eq_refl) as [Hv _]. split; [|done]. split_and!; [done | |].
  - destruct Hcase as [(a & [= <-] & Hpool & _ & _ & HC)
                      |[([= ->] & _ & _ & _ & HC)|([=] & _)]].
    + rewrite HC. apply (inv_typed _ I). rewrite Hpool, elem_of_app, elem_of_cons. auto.
    + rewrite HC. by rewrite lookup_insert_eq.
  - destruct Hcase as [(a & [= <-] & Hpool & _)
                      |[(_ & _ & Hnil & _)|([=] & _)]].
    + pose proof (inv_nodup _ I T) as Hnd. rewrite Hpool in Hnd.
      apply NoDup_app in Hnd as (_ & Hdisj & _). intros Hx.
      apply (Hdisj _ Hx). apply elem_of_cons. by left.
    + rewrite Hnil. apply not_elem_of_nil.
Qed.

End SpawnResult.

(** ** Facts about [ReturnObjectToPool] on a recorded actor *)

Lemma ReturnObjectToPool_managed_facts a T s :
  IsValid (Some a) (engine s) = true →
  ActorToClassMap s !! a = Some (Some T) →
  let s' := ReturnObjectToPool (Some a) s in
  pool_of T s' = AddUnique a (pool_of T s) ∧
  (∀ c, c ≠ T → ObjectPools s' !! c = ObjectPools s !! c) ∧
  ActorToClassMap s' = ActorToClassMap s ∧
  (∀ p, IsValid p (engine s') = IsValid p (engine s)) ∧
  same_objects (engine s) (engine s') ∧
  LogTemp (engine s') = LogTemp (engine s) ∧
  activation a (engine s') false.
Proof.
  intros Hv Hc. cbv zeta. rewrite (ReturnObjectToPool_managed _ _ _ Hv Hc).
  split_and!; simpl.
  - by rewrite pool_of_insert, decide_True.
  - intros c Hne. by rewrite lookup_insert_ne.
  - done.
  - intros p. apply IsValid_SetActorActive.
  - apply same_objects_SetActorActive.
  - unfold SetActorActive. destruct (negb _); [done|]. done.
  - by apply SetActorActive_activation.
Qed.

Lemma reachable_run `{HostPolicy} e ops s :
  engine_ok e → run ops (Initialize e) = Some s → reachable s.
Proof. intros Hok Hrun. by exists e, ops. Qed.

Lemma engine_ok_world0 : engine_ok world0.
Proof. intros a. simpl. rewrite lookup_empty. by intros [? ?]. Qed.

Section WillingHost.
Context `{HostPolicy}.
Hypothesis always_spawns : ∀ e c, CanSpawn e c = true.

(** With a host that always spawns, nothing faults. *)
Lemma GetOrCreatePoolRoot_total pt s :
  ∃ r s', GetOrCreatePoolRoot pt s = Some (r, s').
Proof.
  unfold GetOrCreatePoolRoot. unfold_M. unfold SpawnActor.
  destruct (HasWorld (engine s)); simpl; [|eauto].
  destruct (IsValid (MainPoolRoot s) (engine s)); simpl.
  - destruct (IsValid (PoolRoots s !! pt) (engine s)); simpl; [eauto|].
    rewrite always_spawns; simpl. eauto.
  - rewrite always_spawns; simpl.
    destruct (IsValid _ _); simpl; [eauto|].
    rewrite always_spawns; simpl. eauto.
Qed.

Lemma SpawnObject_total c loc rot pt s :
  ∃ r s', SpawnObject c loc rot pt s = Some (r, s').
Proof.
  destruct c as [T|]; [|by eexists _, _].
  destruct (HasWorld (engine s)) eqn:Hw.
  2:{ rewrite SpawnObject_no_world by done. eauto. }
  destruct (PopValid (length (pool_of T s)) (engine s) (pool_of T s))
    as [[a|] rest] eqn:Hpop.
  - rewrite (SpawnObject_reuse _ _ _ _ _ _ _ Hw Hpop). eauto.
  - destruct (SpawnActor T loc rot (engine s)) as [[a|] e1] eqn:Hs.
    + rewrite (SpawnObject_new _ _ _ _ _ _ _ _ Hw Hpop Hs).
      destruct (GetOrCreatePoolRoot_total pt
        (set_ActorToClassMap <[a := Some T]>
           (set_engine (λ _, e1)
              (set_ObjectPools
                 <[T := {| InactiveActors := rest;
                           PoolRoot := PoolRoot (default FActorPool_default (ObjectPools s !! T)) |}]>
                 s)))) as (Root & s2 & ->).
      eauto.
    + apply SpawnActor_refused in Hs as [Hcan _].
      by rewrite always_spawns in Hcan.
Qed.

(** One round of the prewarm loop when the free list holds exactly one
    valid actor: that actor is taken out and put back. *)
Lemma prewarm_round T pt s a :
  inv s → HasWorld (engine s) = true →
  pool_of T s = [a] → IsValid (Some a) (engine s) = true →
  ∃ s1, SpawnObject (Some T) ZeroVector ZeroRotator pt s = Some (Some a, s1) ∧
        let s2 := ReturnObjectToPool (Some a) s1 in
        inv s2 ∧ HasWorld (engine s2) = true ∧ pool_of T s2 = [a] ∧
        IsValid (Some a) (engine s2) = true ∧
        NextActor (engine s2) = NextActor (engine s).
Proof.
  intros I Hw Hpool Hv.
  destruct (SpawnObject_total (Some T) ZeroVector ZeroRotator pt s) as (r & s1 & Hs).
  destruct (SpawnObject_cases _ _ _ _ _ _ _ Hw Hs)
    as (dropped & Hd & Hcase & _ & Hw1 & Hres).
  assert (Hr : r = Some a ∧ pool_of T s1 = [] ∧ NextActor (engine s1) = NextActor (engine s)).
  { destruct Hcase as [(a' & -> & Hp & _ & Hn & _)
                      |[(_ & Hp & _)|(_ & Hp & _)]].
    - rewrite Hpool in Hp.
      destruct (pool_of T s1) as [|x l]; simpl in Hp.
      + by injection Hp as -> _.
      + injection Hp as _ Hp. by destruct l.
    - rewrite Hpool in Hp. subst dropped.
      apply Forall_cons in Hd as [Ha _]. congruence.
    - rewrite Hpool in Hp. subst dropped.
      apply Forall_cons in Hd as [Ha _]. congruence. }
  destruct Hr as (-> & Hnil & Hn1). exists s1. split; [done|].
  pose proof (inv_SpawnObject _ _ _ _ _ _ _ I Hs) as I1.
  destruct (SpawnObject_active_for _ _ _ _ _ _ _ I Hs) as [(Hv1 & Hc1 & _) _].
  destruct (ReturnObjectToPool_managed_facts _ _ _ Hv1 Hc1)
    as (Hp2 & _ & _ & Hv2 & (_ & Hn2 & Hw2) & _).
  cbv zeta. split_and!.
  - by apply inv_ReturnObjectToPool.
  - congruence.
  - rewrite Hp2, Hnil. done.
  - by rewrite Hv2.
  - congruence.
Qed.

Lemma prewarm_rounds n T pt s a :
  inv s → HasWorld (engine s) = true →
  pool_of T s = [a] → IsValid (Some a) (engine s) = true →
  ∃ s', InitializePool_loop n T pt s = Some ((), s') ∧ pool_of T s' = [a] ∧
        NextActor (engine s') = NextActor (engine s).
Proof.
  revert s. induction n as [|n IH]; intros s I Hw Hpool Hv; simpl.
  - by exists s.
  - destruct (prewarm_round T pt s a I Hw Hpool Hv)
      as (s1 & Hs & I2 & Hw2 & Hp2 & Hv2 & Hn2).
    destruct (IH _ I2 Hw2 Hp2 Hv2) as (s' & Hloop & Hp' & Hn').
    exists s'. unfold_M. rewrite Hs; simpl. rewrite Hloop. split_and!; [done..|].
    congruence.
Qed.

(** The first round on an empty free list spawns one actor and pools it. *)
Lemma prewarm_first T pt s :
  inv s → HasWorld (engine s) = true → pool_of T s = [] →
  ∃ s1, SpawnObject (Some T) ZeroVector ZeroRotator pt s
          = Some (Some (NextActor (engine s)), s1) ∧
        let s2 := ReturnObjectToPool (Some (NextActor (engine s))) s1 in
        inv s2 ∧ HasWorld (engine s2) = true ∧
        pool_of T s2 = [NextActor (engine s)] ∧
        IsValid (Some (NextActor (engine s))) (engine s2) = true.
Proof.
  intros I Hw Hpool.
  destruct (SpawnObject_total (Some T) ZeroVector ZeroRotator pt s) as (r & s1 & Hs).
  destruct (SpawnObject_cases _ _ _ _ _ _ _ Hw Hs)
    as (dropped & Hd & Hcase & _ & Hw1 & Hres).
  assert (Hr : r = Some (NextActor (engine s)) ∧ pool_of T s1 = []).
  { destruct Hcase as [(a' & -> & Hp & _)
                      |[(-> & _ & Hp & _)|(_ & _ & _ & Hcan & _)]].
    - rewrite Hpool in Hp. by destruct (pool_of T s1).
    - done.
    - by rewrite always_spawns in Hcan. }
  destruct Hr as (-> & Hnil). exists s1. split; [done|].
  pose proof (inv_SpawnObject _ _ _ _ _ _ _ I Hs) as I1.
  destruct (SpawnObject_active_for _ _ _ _ _ _ _ I Hs) as [(Hv1 & Hc1 & _) _].
  destruct (ReturnObjectToPool_managed_facts _ _ _ Hv1 Hc1)
    as (Hp2 & _ & _ & Hv2 & (_ & Hn2 & Hw2) & _).
  cbv zeta. split_and!.
  - by apply inv_ReturnObjectToPool.
  - congruence.
  - rewrite Hp2, Hnil. done.
  - by rewrite Hv2.
Qed.

(** However large the count, prewarming an empty free list leaves exactly
    one actor in it: every round after the first takes the pooled actor out
    again instead of spawning. *)
Lemma InitializePool_pools_one T (Count : Z) pt s :
  inv s → HasWorld (engine s) = true → pool_of T s = [] → (0 < Count)%Z →
  ∃ s', InitializePool (Some T) Count pt s = Some ((), s') ∧
        pool_of T s' = [NextActor (engine s)].
Proof.
  intros I Hw Hpool Hpos. simpl.
  destruct (Z.to_nat Count) as [|n] eqn:Hn; [lia|]. simpl.
  destruct (prewarm_first T pt s I Hw Hpool) as (s1 & Hs & I2 & Hw2 & Hp2 & Hv2).
  destruct (prewarm_rounds n T pt _ _ I2 Hw2 Hp2 Hv2) as (s' & Hloop & Hp' & _).
  exists s'. unfold_M. rewrite Hs; simpl. by rewrite Hloop.
Qed.

End WillingHost.

(** A count of zero or less, or a null class, makes [InitializePool] do
    nothing. *)
Lemma InitializePool_nothing `{HostPolicy} c (Count : Z) pt s :
  (Count ≤ 0)%Z ∨ c = nullptr → InitializePool c Count pt s = Some ((), s).
Proof.
  intros [Hn| ->]; [|done]. destruct c as [T|]; [|done]. simpl.
  by replace (Z.to_nat Count) with 0 by lia.
Qed.

(** C1 (the code departs from the claim and from its own header comment,
    "Pre-warms a pool by creating a specified number of actors"): with a
    host that always spawns, in any reachable state with a world where the
    free list of [T] is empty, [InitializePool(T, 5, cat)] returns normally
    and leaves exactly one actor in the free list of [T], not five: every
    round after the first reuses the actor the round before put back. *)
Theorem InitializePool_five_leaves_one `{HostPolicy} T pt s :
  (∀ e c, CanSpawn e c = true) →
  reachable s → HasWorld (engine s) = true → pool_of T s = [] →
  ∃ s', InitializePool (Some T) 5 pt s = Some ((), s') ∧
        pool_of T s' = [NextActor (engine s)] ∧
        length (pool_of T s') = 1.
Proof.
  intros Hcan Hr Hw Hpool.
  destruct (InitializePool_pools_one Hcan T 5 pt s) as (s' & Hs & Hp);
    [by apply reachable_inv | done | done | lia |].
  exists s'. split_and!; [done | done |]. by rewrite Hp.
Qed.

Lemma InitializePool_five_leaves_one_witness :
  ∃ s', InitializePool (H:=willing_host) (Some Bullet) 5 GameObjects (Initialize world0)
          = Some ((), s') ∧
        pool_of Bullet s' = [1%positive] ∧ length (pool_of Bullet s') = 1.
Proof.
  apply (InitializePool_five_leaves_one (H:=willing_host) Bullet GameObjects (Initialize world0)).
  - vm_compute; reflexivity.
  - apply (reachable_run world0 []); [apply engine_ok_world0 | vm_compute; reflexivity].
  - vm_compute; reflexivity.
  - vm_compute; reflexivity.
Defined.

(** ** A refused spawn *)

(** C2 (as amended): when there is a world, the free list of the requested
    class holds no valid actor and the host refuses to spawn, [SpawnObject]
    returns null; the class map, the category roots, the main root and the
    engine are as before, and so is the entry of every other class; the
    entry of the requested class is present afterwards, with an empty free
    list (created if the class was unseen, emptied of its stale actors
    otherwise). *)
Theorem SpawnObject_refused_effect `{HostPolicy} T loc rot pt s :
  HasWorld (engine s) = true →
  Forall (λ a, IsValid (Some a) (engine s) = false) (pool_of T s) →
  CanSpawn (engine s) T = false →
  ∃ s', SpawnObject (Some T) loc rot pt s = Some (nullptr, s') ∧
        ActorToClassMap s' = ActorToClassMap s ∧
        PoolRoots s' = PoolRoots s ∧
        MainPoolRoot s' = MainPoolRoot s ∧
        engine s' = engine s ∧
        (∀ c, c ≠ T → ObjectPools s' !! c = ObjectPools s !! c) ∧
        ObjectPools s' !! T =
          Some {| InactiveActors := [];
                  PoolRoot := PoolRoot (default FActorPool_default (ObjectPools s !! T)) |}.
Proof.
  intros Hw Hstale Hcan. apply PopValid_all_invalid in Hstale as Hpop.
  rewrite (SpawnObject_refused _ _ _ _ _ _ Hw Hpop Hcan).
  eexists. split; [done|]. simpl. split_and!; try done.
  - intros c Hne. by rewrite lookup_insert_ne.
  - by rewrite lookup_insert_eq.
Qed.

(** The claim as stated fails: on a new subsystem whose host refuses, the
    failed [SpawnObject] leaves an entry for the class in [ObjectPools],
    which had none. *)
Lemma SpawnObject_refused_adds_entry :
  ∃ s', SpawnObject (H:=refusing_host) (Some Bullet) ZeroVector ZeroRotator GameObjects
          (Initialize world0) = Some (nullptr, s') ∧
        ObjectPools (Initialize world0) !! Bullet = None ∧
        ObjectPools s' !! Bullet = Some FActorPool_default ∧
        ObjectPools s' ≠ ObjectPools (Initialize world0).
Proof.
  eexists. split; [vm_compute; reflexivity|]. split_and!.
  - vm_compute; reflexivity.
  - vm_compute; reflexivity.
  - intros E. apply (f_equal (λ m, m !! Bullet)) in E. discriminate E.
Qed.

(** ** Reuse *)

Section Reuse.
Context `{HostPolicy}.

(** A valid actor on top of the free list is the one [SpawnObject] returns;
    the rest of the list is left as it is and nothing is spawned. *)
Lemma SpawnObject_top T loc rot pt s arr x :
  HasWorld (engine s) = true →
  pool_of T s = arr ++ [x] →
  IsValid (Some x) (engine s) = true →
  ∃ s', SpawnObject (Some T) loc rot pt s = Some (Some x, s') ∧
        pool_of T s' = arr ∧
        NextActor (engine s') = NextActor (engine s) ∧
        HasWorld (engine s') = true ∧
        ActorToClassMap s' = ActorToClassMap s ∧
        ∀ p, IsValid p (engine s') = IsValid p (engine s).
Proof.
  intros Hw Hpool Hv.
  assert (Hpop : PopValid (length (pool_of T s)) (engine s) (pool_of T s) = (Some x, arr)).
  { rewrite Hpool. by apply PopValid_top. }
  rewrite (SpawnObject_reuse _ _ _ _ _ _ _ Hw Hpop). eexists. split; [done|].
  split_and!.
  - unfold placed_active. by rewrite !pool_of_set_engine, pool_of_insert, decide_True.
  - apply (placed_active_same_objects x loc rot (set_ObjectPools _ s)).
  - rewrite <- Hw. apply (placed_active_same_objects x loc rot (set_ObjectPools _ s)).
  - done.
  - intros p. by rewrite placed_active_valid.
Qed.


End Reuse.

Lemma SpawnObject_refused_effect_witness :
  ∃ s', SpawnObject (H:=capped_host) (Some Bullet) ZeroVector ZeroRotator GameObjects
          (after (H:=capped_host) stale_trace) = Some (nullptr, s') ∧
        pool_of Bullet (after (H:=capped_host) stale_trace) = [1%positive] ∧
        ObjectPools s' !! Bullet = Some FActorPool_default.
Proof.
  destruct (SpawnObject_refused_effect (H:=capped_host) Bullet ZeroVector ZeroRotator
              GameObjects (after (H:=capped_host) stale_trace))
    as (s' & Hs & _ & _ & _ & _ & _ & Hp).
  - vm_compute; reflexivity.
  - vm_compute. repeat constructor.
  - vm_compute; reflexivity.
  - exists s'. split; [exact Hs|]. split; [vm_compute; reflexivity|]. exact Hp.
Defined.

(** ** Releasing twice *)

Lemma occurrences_absent x l : x ∉ l → occurrences x l = 0.
Proof.
  unfold occurrences. induction l as [|y l IH]; intros Hx; [done|].
  rewrite filter_cons. apply not_elem_of_cons in Hx as [Hne Hx].
  rewrite decide_False by done. by apply IH.
Qed.

Lemma occurrences_NoDup x l : NoDup l → x ∈ l → occurrences x l = 1.
Proof.
  induction 1 as [|y l Hy Hnd IH]; intros Hx.
  - by apply elem_of_nil in Hx.
  - unfold occurrences. rewrite filter_cons. apply elem_of_cons in Hx as [->|Hx].
    + rewrite decide_True by done. simpl. f_equal. by apply occurrences_absent.
    + rewrite decide_False by (intros ->; done). by apply IH.
Qed.

Lemma set_active_idemp b st : set_active b (set_active b st) = set_active b st.
Proof.
  unfold set_active; simpl. f_equal. rewrite <- list_fmap_compose. done.
Qed.

Lemma SetActorActive_idemp a b e :
  SetActorActive a b (SetActorActive a b e) = SetActorActive a b e.
Proof.
  unfold SetActorActive at 1. rewrite IsValid_SetActorActive.
  destruct (IsValid a e) eqn:Hv; simpl.
  2:{ unfold SetActorActive. by rewrite Hv. }
  destruct a as [x|]; [|done].
  unfold SetActorActive. rewrite Hv; simpl. unfold set_Actors; simpl. f_equal.
  rewrite alter_alter_eq. apply alter_ext. intros st _. apply set_active_idemp.
Qed.

(** Releasing a valid recorded actor a second time changes nothing at all. *)
Lemma ReturnObjectToPool_idemp a T s :
  IsValid (Some a) (engine s) = true →
  ActorToClassMap s !! a = Some (Some T) →
  ReturnObjectToPool (Some a) (ReturnObjectToPool (Some a) s)
  = ReturnObjectToPool (Some a) s.
Proof.
  intros Hv Hc.
  destruct (ReturnObjectToPool_managed_facts _ _ _ Hv Hc)
    as (Hp & _ & HC & Hval & _).
  rewrite (ReturnObjectToPool_managed a T (ReturnObjectToPool (Some a) s));
    [| by rewrite Hval | by rewrite HC].
  rewrite Hp, AddUnique_idemp.
  rewrite (ReturnObjectToPool_managed _ _ _ Hv Hc).
  unfold set_ObjectPools, set_engine; simpl.
  rewrite lookup_insert_eq; simpl. rewrite insert_insert_eq.
  by rewrite SetActorActive_idemp.
Qed.

(** C5: in any reachable state, after [ReturnObjectToPool] is called twice in
    a row on a valid recorded actor, the actor occurs exactly once in the
    free list of its class; the second call changes nothing, [AddUnique]
    being an insertion-if-absent. *)
Theorem double_release_single_entry `{HostPolicy} T x s :
  reachable s →
  IsValid (Some x) (engine s) = true →
  ActorToClassMap s !! x = Some (Some T) →
  let s1 := ReturnObjectToPool (Some x) s in
  let s2 := ReturnObjectToPool (Some x) s1 in
  occurrences x (pool_of T s2) = 1 ∧ s2 = s1.
Proof.
  intros Hr%reachable_inv Hv Hc. cbv zeta.
  rewrite (ReturnObjectToPool_idemp _ _ _ Hv Hc). split; [|done].
  apply inv_ReturnObjectToPool with (Actor := Some x) in Hr as I1.
  destruct (ReturnObjectToPool_managed_facts _ _ _ Hv Hc) as (Hp & _).
  apply occurrences_NoDup; [apply I1|].
  rewrite Hp. apply AddUnique_elem. by left.
Qed.

Lemma double_release_single_entry_witness :
  occurrences 1%positive
    (pool_of Bullet
       (ReturnObjectToPool (Some 1%positive)
          (ReturnObjectToPool (Some 1%positive) (after (H:=willing_host) spawn_trace))))
  = 1.
Proof.
  apply (double_release_single_entry (H:=willing_host) Bullet 1%positive
           (after (H:=willing_host) spawn_trace)).
  - apply (reachable_run world0 spawn_trace); [apply engine_ok_world0 | vm_compute; reflexivity].
  - vm_compute; reflexivity.
  - vm_compute; reflexivity.
Defined.

(** ** What no call undoes *)

Lemma evolves_refl s : evolves s s.
Proof. split; [lia|]. intros x _. split_and!; auto. Qed.

Lemma evolves_trans s1 s2 s3 : evolves s1 s2 → evolves s2 s3 → evolves s1 s3.
Proof.
  intros [N1 F1] [N2 F2]. split; [lia|]. intros x Hx.
  destruct (F1 x Hx) as (V1 & R1 & P1).
  destruct (F2 x ltac:(lia)) as (V2 & R2 & P2).
  split_and!; auto.
  intros c Hc. destruct (P2 c Hc) as [Hc2|Hv2]; auto.
Qed.

Lemma keeps_records_refl s : keeps_records s s.
Proof. by intros x _. Qed.

Lemma keeps_records_trans s1 s2 s3 :
  evolves s1 s2 → keeps_records s1 s2 → keeps_records s2 s3 → keeps_records s1 s3.
Proof.
  intros [N1 _] K1 K2 x Hx. rewrite K2 by lia. by apply K1.
Qed.

Lemma pool_of_lookup_eq c s s' :
  ObjectPools s' !! c = ObjectPools s !! c → pool_of c s' = pool_of c s.
Proof. unfold pool_of. by intros ->. Qed.

Section Evolution.
Context `{HostPolicy}.

(** [SpawnObject] changes the validity of no actor that was allocated before
    the call, and logs nothing. *)
Lemma SpawnObject_engine c loc rot pt s r s' :
  SpawnObject c loc rot pt s = Some (r, s') →
  (NextActor (engine s) ≤ NextActor (engine s'))%positive ∧
  LogTemp (engine s') = LogTemp (engine s) ∧
  ∀ x : AActor, (x < NextActor (engine s))%positive →
       IsValid (Some x) (engine s') = IsValid (Some x) (engine s).
Proof.
  destruct c as [T|]; [|intros [= <- <-]; split_and!; [lia | done | done]].
  destruct (HasWorld (engine s)) eqn:Hw.
  2:{ rewrite SpawnObject_no_world by done.
      intros [= <- <-]; split_and!; [lia | done | done]. }
  destruct (PopValid (length (pool_of T s)) (engine s) (pool_of T s))
    as [[a|] rest] eqn:Hpop.
  - rewrite (SpawnObject_reuse _ _ _ _ _ _ _ Hw Hpop). intros [= <- <-].
    destruct (placed_active_same_objects a loc rot
      (set_ObjectPools <[T := {| InactiveActors := rest;
         PoolRoot := PoolRoot (default FActorPool_default (ObjectPools s !! T)) |}]> s))
      as (_ & Hn & _).
    split_and!.
    + rewrite Hn. simpl. lia.
    + unfold placed_active; simpl. unfold SetActorActive.
      by destruct (negb _).
    + intros x _. by rewrite placed_active_valid.
  - destruct (SpawnActor T loc rot (engine s)) as [[a|] e1] eqn:Hs.
    + rewrite (SpawnObject_new _ _ _ _ _ _ _ _ Hw Hpop Hs).
      destruct (GetOrCreatePoolRoot _ _) as [[Root s2]|] eqn:Hg; [|done].
      intros [= <- <-].
      apply SpawnActor_spawned in Hs as (_ & -> & Hn1 & _ & G).
      apply GetOrCreatePoolRoot_spec in Hg as (_ & _ & G2 & _). simpl in G2.
      pose proof (grows_trans _ _ _ G G2) as G3.
      destruct (placed_active_same_objects (NextActor (engine s)) loc rot
                  (set_engine (AttachToActor (NextActor (engine s)) Root) s2))
        as (_ & Hn & _).
      destruct (same_objects_AttachToActor (NextActor (engine s)) Root (engine s2))
        as (_ & Hn' & _).
      split_and!.
      * rewrite Hn. simpl. rewrite Hn'. apply (grows_next _ _ G3).
      * unfold placed_active; simpl. unfold SetActorActive.
        destruct (negb _); simpl.
        -- unfold AttachToActor. destruct Root; apply (grows_log _ _ G3).
        -- unfold AttachToActor. destruct Root; apply (grows_log _ _ G3).
      * intros x Hx. rewrite placed_active_valid; simpl.
        rewrite IsValid_AttachToActor. by apply grows_IsValid.
    + apply SpawnActor_refused in Hs as [Hcan _].
      rewrite (SpawnObject_refused _ _ _ _ _ _ Hw Hpop Hcan). intros [= <- <-].
      split_and!; [simpl; lia | done | done].
Qed.

Lemma SpawnObject_evolves c loc rot pt s r s' :
  SpawnObject c loc rot pt s = Some (r, s') → evolves s s' ∧ keeps_records s s'.
Proof.
  intros Hs. destruct (SpawnObject_engine _ _ _ _ _ _ _ Hs) as (Hn & _ & Hval).
  destruct c as [T|].
  2:{ injection Hs as <- <-. split; [apply evolves_refl | apply keeps_records_refl]. }
  destruct (HasWorld (engine s)) eqn:Hw.
  2:{ rewrite SpawnObject_no_world in Hs by done. injection Hs as <- <-.
      split; [apply evolves_refl | apply keeps_records_refl]. }
  destruct (SpawnObject_cases _ _ _ _ _ _ _ Hw Hs)
    as (dropped & Hd & Hcase & Hother & _).
  assert (HR : ∀ x : AActor, (x < NextActor (engine s))%positive →
               ActorToClassMap s' !! x = ActorToClassMap s !! x).
  { intros x Hx.
    destruct Hcase as [(a & _ & _ & _ & _ & ->)
                      |[(_ & _ & _ & _ & ->)|(_ & _ & _ & _ & -> & _)]]; [done | | done].
    rewrite lookup_insert_ne; [done | lia]. }
  assert (HP : ∀ c x, x ∈ pool_of c s' → x ∈ pool_of c s).
  { intros c x. destruct (decide (c = T)) as [->|Hne].
    - destruct Hcase as [(a & _ & -> & _)
                        |[(_ & _ & -> & _)|(_ & _ & -> & _)]].
      + intros Hx. apply elem_of_app. by left.
      + by intros ?%elem_of_nil.
      + by intros ?%elem_of_nil.
    - by rewrite (pool_of_lookup_eq c s s') by auto. }
  split; [|done]. split; [done|]. intros x Hx. split_and!.
  - by rewrite Hval.
  - intros v. by rewrite HR.
  - intros c Hc. left. by apply HP.
Qed.

Lemma ReturnObjectToPool_ActorToClassMap Actor s :
  ActorToClassMap (ReturnObjectToPool Actor s) = ActorToClassMap s.
Proof.
  destruct (IsValid Actor (engine s)) eqn:Hv.
  2:{ by rewrite ReturnObjectToPool_invalid. }
  destruct Actor as [a|]; [|done].
  destruct (ActorToClassMap s !! a) as [[c|]|] eqn:Hc.
  - by rewrite (ReturnObjectToPool_managed _ _ _ Hv Hc).
  - by rewrite ReturnObjectToPool_foreign by auto.
  - by rewrite ReturnObjectToPool_foreign by auto.
Qed.

Lemma ReturnObjectToPool_evolves Actor s :
  evolves s (ReturnObjectToPool Actor s) ∧ keeps_records s (ReturnObjectToPool Actor s).
Proof.
  split; [|intros x _; by rewrite ReturnObjectToPool_ActorToClassMap].
  destruct (IsValid Actor (engine s)) eqn:Hv.
  2:{ rewrite ReturnObjectToPool_invalid by done. apply evolves_refl. }
  destruct Actor as [a|]; [|done].
  assert (Hf : ActorToClassMap s !! a = None ∨ ActorToClassMap s !! a = Some nullptr →
               evolves s (ReturnObjectToPool (Some a) s)).
  { intros Hc. rewrite ReturnObjectToPool_foreign by done.
    split; [simpl; unfold Destroy, Log; simpl; lia|]. intros x _. simpl. split_and!; auto.
    rewrite IsValid_Destroy, andb_true_iff. by intros [? _]. }
  destruct (ActorToClassMap s !! a) as [[T|]|] eqn:Hc; [|auto..].
  destruct (ReturnObjectToPool_managed_facts _ _ _ Hv Hc)
    as (Hp & Hother & HC & Hval & (_ & Hn & _) & _).
  split; [lia|]. intros x _. split_and!.
  - by rewrite Hval.
  - intros v. by rewrite HC.
  - intros c. destruct (decide (c = T)) as [->|Hne].
    + rewrite Hp. intros [->|Hx]%AddUnique_elem; auto.
    + rewrite (pool_of_lookup_eq c s) by auto. auto.
Qed.

Lemma InitializePool_loop_evolves n T pt s u s' :
  InitializePool_loop n T pt s = Some (u, s') → evolves s s' ∧ keeps_records s s'.
Proof.
  revert s. induction n as [|n IH]; intros s; simpl.
  - intros [= <- <-]. split; [apply evolves_refl | apply keeps_records_refl].
  - unfold_M. destruct (SpawnObject (Some T) ZeroVector ZeroRotator pt s)
      as [[r s1]|] eqn:Hs; simpl; [|done].
    apply SpawnObject_evolves in Hs as [E1 K1].
    destruct r as [a|]; simpl; intros [E3 K3]%IH.
    + destruct (ReturnObjectToPool_evolves (Some a) s1) as [E2 K2]. split.
      * eauto using evolves_trans.
      * eapply keeps_records_trans; [exact E1 | exact K1 |].
        eapply keeps_records_trans; [exact E2 | exact K2 | exact K3].
    + split.
      * eauto using evolves_trans.
      * eapply keeps_records_trans; [exact E1 | exact K1 | exact K3].
Qed.

Lemma Deinitialize_evolves s : evolves s (Deinitialize s).
Proof.
  destruct (Deinitialize_spec s) as (HP & HC & _ & _ & (_ & Hn & _) & _ & _ & _ & Hval).
  split; [lia|]. intros x _. split_and!.
  - by intros (? & _)%Hval.
  - intros v. by rewrite HC, lookup_empty.
  - intros c. unfold pool_of. rewrite HP, lookup_empty. by intros ?%elem_of_nil.
Qed.

Lemma exec_evolves op s s' : exec op s = Some s' → evolves s s'.
Proof.
  destruct op as [c loc rot pt | a | c n pt | | a | c loc rot]; simpl.
  - destruct (SpawnObject _ _ _ _ s) as [[r s1]|] eqn:Hs; simpl; [|done].
    intros [= <-]. by apply SpawnObject_evolves in Hs as [? _].
  - intros [= <-]. apply ReturnObjectToPool_evolves.
  - destruct c as [T|]; simpl; [|intros [= <-]; apply evolves_refl].
    destruct (InitializePool_loop _ _ _ s) as [[u s1]|] eqn:Hs; simpl; [|done].
    intros [= <-]. by apply InitializePool_loop_evolves in Hs as [? _].
  - intros [= <-]. apply Deinitialize_evolves.
  - intros [= <-]. split; [simpl; unfold Destroy; simpl; lia|].
    intros x _. simpl. split_and!; auto.
    rewrite IsValid_Destroy, andb_true_iff. by intros [? _].
  - intros [= <-]. pose proof (SpawnActor_grows c loc rot (engine s)) as G.
    split; [apply (grows_next _ _ G)|].
    intros x Hx. simpl. split_and!; auto.
    by rewrite (grows_IsValid _ _ _ G).
Qed.

Lemma exec_keeps_records op s s' :
  not_teardown op → exec op s = Some s' → keeps_records s s'.
Proof.
  destruct op as [c loc rot pt | a | c n pt | | a | c loc rot]; simpl; intros Hnt.
  - destruct (SpawnObject _ _ _ _ s) as [[r s1]|] eqn:Hs; simpl; [|done].
    intros [= <-]. by apply SpawnObject_evolves in Hs as [_ ?].
  - intros [= <-]. apply ReturnObjectToPool_evolves.
  - destruct c as [T|]; simpl; [|intros [= <-]; apply keeps_records_refl].
    destruct (InitializePool_loop _ _ _ s) as [[u s1]|] eqn:Hs; simpl; [|done].
    intros [= <-]. by apply InitializePool_loop_evolves in Hs as [_ ?].
  - done.
  - by intros [= <-] x _.
  - by intros [= <-] x _.
Qed.

Lemma run_evolves ops s s' : run ops s = Some s' → evolves s s'.
Proof.
  revert s. induction ops as [|op ops IH]; intros s; simpl.
  - intros [= <-]. apply evolves_refl.
  - destruct (exec op s) as [s1|] eqn:He; [|done].
    intros Hr%IH. apply exec_evolves in He. by eapply evolves_trans.
Qed.

Lemma run_keeps_records ops s s' :
  Forall not_teardown ops → run ops s = Some s' → keeps_records s s'.
Proof.
  revert s. induction ops as [|op ops IH]; intros s Hall; simpl.
  - intros [= <-]. apply keeps_records_refl.
  - apply Forall_cons in Hall as [Hop Hall].
    destruct (exec op s) as [s1|] eqn:He; [|done].
    intros Hr%IH; [|done].
    eapply keeps_records_trans; [by eapply exec_evolves | by eapply exec_keeps_records | done].
Qed.

End Evolution.

(** ** Type fidelity *)

Lemma inv_allocated s (x : AActor) :
  inv s → is_Some (ActorToClassMap s !! x) → (x < NextActor (engine s))%positive.
Proof. intros I Hx. by apply (inv_engine _ I), (inv_recorded _ I). Qed.

(** C6: in any reachable state, an actor [SpawnObject] returns for class [T]
    is recorded for [T]; and for an actor [x] recorded for [T]:
    [ReturnObjectToPool] of [x], when valid, puts it in the free list of [T]
    and leaves the entry of every other class untouched; after any trace
    of calls and host events without [Deinitialize], [x] is still recorded
    for [T] and every free list that holds [x] is that of [T]; and after
    any trace at all the record of [x] is either still [T] or gone, never
    another class. *)
Theorem type_fidelity `{HostPolicy} T s :
  reachable s →
  (∀ loc rot pt a s',
     SpawnObject (Some T) loc rot pt s = Some (Some a, s') →
     ActorToClassMap s' !! a = Some (Some T)) ∧
  (∀ x, ActorToClassMap s !! x = Some (Some T) →
     (IsValid (Some x) (engine s) = true →
        x ∈ pool_of T (ReturnObjectToPool (Some x) s) ∧
        ∀ c, c ≠ T →
             ObjectPools (ReturnObjectToPool (Some x) s) !! c = ObjectPools s !! c) ∧
     (∀ ops s', Forall not_teardown ops → run ops s = Some s' →
        ActorToClassMap s' !! x = Some (Some T) ∧
        ∀ c, x ∈ pool_of c s' → c = T) ∧
     (∀ ops s', run ops s = Some s' →
        ActorToClassMap s' !! x = Some (Some T) ∨ ActorToClassMap s' !! x = None)).
Proof.
  intros I%reachable_inv. split.
  - intros loc rot pt a s' Hs.
    by destruct (SpawnObject_active_for _ _ _ _ _ _ _ I Hs) as [(_ & ? & _) _].
  - intros x Hc.
    assert (Hx : (x < NextActor (engine s))%positive).
    { apply (inv_allocated s x I). by rewrite Hc. }
    split_and!.
    + intros Hv.
      destruct (ReturnObjectToPool_managed_facts _ _ _ Hv Hc) as (Hp & Hother & _).
      split; [|done]. rewrite Hp. apply AddUnique_elem. by left.
    + intros ops s' Hall Hrun.
      pose proof (run_keeps_records _ _ _ Hall Hrun x Hx) as Hrec.
      rewrite Hc in Hrec. split; [done|].
      intros c Hin. apply (inv_run _ _ _ I) in Hrun as I'.
      apply (inv_typed _ I') in Hin. congruence.
    + intros ops s' Hrun. destruct (run_evolves _ _ _ Hrun) as [_ F].
      destruct (F x Hx) as (_ & R & _).
      destruct (ActorToClassMap s' !! x) as [v|] eqn:E; [|by right].
      left. pose proof (R v eq_refl). congruence.
Qed.

Lemma type_fidelity_witness :
  Bullet ≠ Enemy ∧
  ActorToClassMap
    (after (H:=willing_host)
       (spawn_trace ++
        [CallSpawnObject (Some Enemy) ZeroVector ZeroRotator Nodes;
         CallReturnObjectToPool (Some 4%positive);
         CallReturnObjectToPool (Some 1%positive)])) !! 1%positive
  = Some (Some Bullet) ∧
  pool_of Enemy
    (after (H:=willing_host)
       (spawn_trace ++
        [CallSpawnObject (Some Enemy) ZeroVector ZeroRotator Nodes;
         CallReturnObjectToPool (Some 4%positive);
         CallReturnObjectToPool (Some 1%positive)])) = [4%positive].
Proof.
  split; [discriminate|]. split; [|(vm_compute; reflexivity)].
  destruct (type_fidelity (H:=willing_host) Bullet (after (H:=willing_host) spawn_trace))
    as [_ Hx].
  - apply (reachable_run world0 spawn_trace); [apply engine_ok_world0 | vm_compute; reflexivity].
  - destruct (Hx 1%positive) as (_ & Hrun & _); [vm_compute; reflexivity|].
    apply (Hrun [CallSpawnObject (Some Enemy) ZeroVector ZeroRotator Nodes;
                 CallReturnObjectToPool (Some 4%positive);
                 CallReturnObjectToPool (Some 1%positive)]).
    + repeat constructor.
    + vm_compute; reflexivity.
Defined.

(** ** Foreign and invalid actors *)

(** C7: in any reachable state, [ReturnObjectToPool] of a valid actor that
    was never recorded logs the warning, naming the actor, and destroys it:
    the actor is invalid afterwards and in no free list, and whatever calls
    and host events follow, it stays invalid and in no free list; pools and
    class map are untouched.  [ReturnObjectToPool] of an invalid (or null)
    actor changes nothing. *)
Theorem foreign_release `{HostPolicy} s :
  reachable s →
  (∀ x, IsValid (Some x) (engine s) = true →
        ActorToClassMap s !! x = None →
        let s' := ReturnObjectToPool (Some x) s in
        LogTemp (engine s') = Warning_NotPooled x :: LogTemp (engine s) ∧
        IsValid (Some x) (engine s') = false ∧
        (∀ c, x ∉ pool_of c s') ∧
        ObjectPools s' = ObjectPools s ∧
        ActorToClassMap s' = ActorToClassMap s ∧
        ∀ ops s'', run ops s' = Some s'' →
                   IsValid (Some x) (engine s'') = false ∧ ∀ c, x ∉ pool_of c s'') ∧
  (∀ Actor, IsValid Actor (engine s) = false → ReturnObjectToPool Actor s = s).
Proof.
  intros I%reachable_inv. split; [|intros Actor Hinv; by apply ReturnObjectToPool_invalid].
  intros x Hv Hc. cbv zeta.
  assert (Hx : (x < NextActor (engine s))%positive).
  { by apply (inv_engine _ I), IsValid_is_Some. }
  assert (Hnot : ∀ c, x ∉ pool_of c s).
  { intros c Hin%(inv_typed _ I). congruence. }
  rewrite ReturnObjectToPool_foreign by auto.
  set (s' := set_engine _ s).
  assert (Hdead : IsValid (Some x) (engine s') = false).
  { unfold s'; simpl. rewrite IsValid_Destroy.
    rewrite bool_decide_eq_false_2 by tauto. apply andb_false_r. }
  split_and!; try done.
  intros ops s'' Hrun. destruct (run_evolves _ _ _ Hrun) as [_ F].
  destruct (F x) as (V & _ & P); [done|]. split.
  - destruct (IsValid (Some x) (engine s'')); [|done]. rewrite <- Hdead. symmetry. by apply V.
  - intros c Hin. destruct (P c Hin) as [Hin'|Hv']; [by apply (Hnot c) | congruence].
Qed.

Lemma foreign_release_witness :
  LogTemp (engine (ReturnObjectToPool (Some 4%positive)
                     (after (H:=willing_host)
                        (spawn_trace ++ [HostSpawns Enemy ZeroVector ZeroRotator]))))
  = [Warning_NotPooled 4%positive].
Proof.
  destruct (foreign_release (H:=willing_host)
              (after (H:=willing_host)
                 (spawn_trace ++ [HostSpawns Enemy ZeroVector ZeroRotator])))
    as [Hforeign _].
  - apply (reachable_run world0 (spawn_trace ++ [HostSpawns Enemy ZeroVector ZeroRotator]));
      [apply engine_ok_world0 | vm_compute; reflexivity].
  - destruct (Hforeign 4%positive) as (Hlog & _); [vm_compute; reflexivity | vm_compute; reflexivity |].
    exact Hlog.
Defined.

(** ** Teardown *)

(** In a state satisfying the invariant, whether an actor is pooled can be
    decided from its record. *)
Lemma pooled_dec s b : inv s → pooled s b ∨ ¬ pooled s b.
Proof.
  intros I. destruct (ActorToClassMap s !! b) as [[c|]|] eqn:Hc.
  - destruct (decide (b ∈ pool_of c s)) as [Hin|Hnin]; [left; by exists c|].
    right. intros [c' Hin]. apply (inv_typed _ I) in Hin as Hc'.
    assert (c' = c) as -> by congruence. done.
  - right. intros [c' Hin%(inv_typed _ I)]. congruence.
  - right. intros [c' Hin%(inv_typed _ I)]. congruence.
Qed.

(** C10: in any reachable state, [Deinitialize] invalidates only actors that
    sit in some free list (and the main root); an actor handed out and not
    returned (valid, recorded, not in the free list of its class) is still
    valid afterwards, while the class map is empty; so whatever follows the
    teardown, the actor has no record, and [ReturnObjectToPool] of it, if
    it is still valid, takes the foreign branch: warning and [Destroy]. *)
Theorem Deinitialize_spares_active `{HostPolicy} s :
  reachable s →
  let s' := Deinitialize s in
  (∀ b, IsValid (Some b) (engine s) = true →
        IsValid (Some b) (engine s') = false →
        pooled s b ∨ MainPoolRoot s = Some b) ∧
  ∀ T x, active_for T x s →
    IsValid (Some x) (engine s') = true ∧
    ActorToClassMap s' = ∅ ∧
    ∀ ops s'', run ops s' = Some s'' →
      ActorToClassMap s'' !! x = None ∧
      (IsValid (Some x) (engine s'') = true →
       ReturnObjectToPool (Some x) s'' =
       set_engine (λ e, Destroy x (Log (Warning_NotPooled x) e)) s'').
Proof.
  intros I%reachable_inv. cbv zeta.
  destruct (Deinitialize_spec s) as (_ & HC & _ & _ & (_ & Hn & _) & _ & _ & _ & Hval).
  split.
  - intros b Hb Hdead.
    destruct (pooled_dec s b I) as [Hp|Hnp]; [by left|].
    destruct (decide (MainPoolRoot s = Some b)) as [Hm|Hnm]; [by right|].
    assert (IsValid (Some b) (engine (Deinitialize s)) = true) by by apply Hval.
    congruence.
  - intros T x (Hv & Hc & Hnot).
    assert (Hx : (x < NextActor (engine s))%positive).
    { by apply (inv_engine _ I), IsValid_is_Some. }
    assert (Hnp : ¬ pooled s x).
    { intros [c Hin]. apply (inv_typed _ I) in Hin as Hc'.
      assert (c = T) as -> by congruence. done. }
    assert (Hnm : MainPoolRoot s ≠ Some x).
    { intros Hm. destruct (inv_main _ I x Hm) as [_ Hnone]. congruence. }
    split_and!; [by apply Hval | done |].
    intros ops s'' Hrun. destruct (run_evolves _ _ _ Hrun) as [_ F].
    destruct (F x) as (_ & R & _); [lia|].
    assert (Hnone : ActorToClassMap s'' !! x = None).
    { destruct (ActorToClassMap s'' !! x) as [v|] eqn:E; [|done].
      specialize (R v eq_refl). rewrite HC, lookup_empty in R. done. }
    split; [done|]. intros Hv''. apply ReturnObjectToPool_foreign; auto.
Qed.

Lemma Deinitialize_spares_active_witness :
  IsValid (Some 1%positive)
    (engine (Deinitialize (after (H:=willing_host) spawn_trace))) = true ∧
  ActorToClassMap (Deinitialize (after (H:=willing_host) spawn_trace)) = ∅.
Proof.
  destruct (Deinitialize_spares_active (H:=willing_host)
              (after (H:=willing_host) spawn_trace)) as [_ Hactive].
  - apply (reachable_run world0 spawn_trace); [apply engine_ok_world0 | vm_compute; reflexivity].
  - destruct (Hactive Bullet 1%positive) as (Hv & Hmap & _).
    + split; [vm_compute; reflexivity|]. split; [vm_compute; reflexivity|]. vm_compute. apply not_elem_of_nil.
    + split; [exact Hv | exact Hmap].
Defined.

(** What [Deinitialize] does achieve, in any state: every actor that was in
    a free list is invalid afterwards, the three maps are empty, the main
    root is invalid, and no actor was allocated. *)
Lemma Deinitialize_complete s :
  let s' := Deinitialize s in
  (∀ b, pooled s b → IsValid (Some b) (engine s') = false) ∧
  ObjectPools s' = ∅ ∧ ActorToClassMap s' = ∅ ∧ PoolRoots s' = ∅ ∧
  IsValid (MainPoolRoot s) (engine s') = false ∧
  IsValid (MainPoolRoot s') (engine s') = false.
Proof.
  cbv zeta.
  destruct (Deinitialize_spec s) as (HP & HC & HR & Hmain & _ & _ & _ & _ & Hval).
  split_and!; try done.
  - intros b Hb. destruct (IsValid (Some b) (engine (Deinitialize s))) eqn:E; [|done].
    apply Hval in E as (_ & Hnp & _). done.
  - destruct (MainPoolRoot s) as [m|] eqn:Hm; [|done].
    destruct (IsValid (Some m) (engine (Deinitialize s))) eqn:E; [|done].
    apply Hval in E as (_ & _ & Hne). done.
Qed.

(** C8 (the code departs from the claim): [Deinitialize] empties the map of
    category roots without destroying them.  In any reachable state, every
    category root that is valid before [Deinitialize] is still valid after
    it, while [PoolRoots] no longer holds it.  (The rest of the claim holds:
    pooled actors and the main root are invalid afterwards, the three maps
    are empty, and [SpawnObject] then behaves as on a new subsystem.) *)
Theorem Deinitialize_leaves_category_roots `{HostPolicy} s pt r :
  reachable s →
  PoolRoots s !! pt = Some r →
  IsValid (Some r) (engine s) = true →
  PoolRoots (Deinitialize s) = ∅ ∧
  IsValid (Some r) (engine (Deinitialize s)) = true.
Proof.
  intros I%reachable_inv Hr Hv.
  destruct (Deinitialize_spec s) as (_ & _ & HR & _ & _ & _ & _ & _ & Hval).
  split; [done|]. apply Hval.
  destruct (inv_roots _ I pt r Hr) as (_ & Hnone & Hmain).
  split_and!; [done | | done].
  intros [c Hin%(inv_typed _ I)]. congruence.
Qed.

Lemma Deinitialize_leaves_category_roots_witness :
  PoolRoots (after (H:=willing_host) pooled_trace) !! GameObjects = Some 3%positive ∧
  PoolRoots (Deinitialize (after (H:=willing_host) pooled_trace)) = ∅ ∧
  IsValid (Some 3%positive)
    (engine (Deinitialize (after (H:=willing_host) pooled_trace))) = true.
Proof.
  split; [vm_compute; reflexivity|].
  apply (Deinitialize_leaves_category_roots (H:=willing_host)
           (after (H:=willing_host) pooled_trace) GameObjects 3%positive).
  - apply (reachable_run world0 pooled_trace); [apply engine_ok_world0 | vm_compute; reflexivity].
  - vm_compute; reflexivity.
  - vm_compute; reflexivity.
Defined.

(** The teardown of the example, in full: after one bullet was spawned
    under [GameObjects] and returned, actor 1 is the pooled bullet, actor 2
    the main root and actor 3 the root of [GameObjects]; after
    [Deinitialize] the bullet and the main root are invalid and the three
    maps are empty, but actor 3 is still valid. *)
Example Deinitialize_example :
  let s := after (H:=willing_host) pooled_trace in
  let s' := Deinitialize s in
  pool_of Bullet s = [1%positive] ∧
  MainPoolRoot s = Some 2%positive ∧
  PoolRoots s !! GameObjects = Some 3%positive ∧
  IsValid (Some 3%positive) (engine s) = true ∧
  IsValid (Some 1%positive) (engine s') = false ∧
  IsValid (Some 2%positive) (engine s') = false ∧
  ObjectPools s' = ∅ ∧ ActorToClassMap s' = ∅ ∧ PoolRoots s' = ∅ ∧
  IsValid (Some 3%positive) (engine s') = true.
Proof. cbv zeta. split_and!; (vm_compute; reflexivity). Qed.

(** ** Stale actors are skipped *)

(** An allocated actor that is invalid and in no free list stays so,
    whatever calls and host events follow. *)
Lemma gone_for_good `{HostPolicy} (d : AActor) s ops s' :
  (d < NextActor (engine s))%positive →
  IsValid (Some d) (engine s) = false →
  (∀ c, d ∉ pool_of c s) →
  run ops s = Some s' →
  IsValid (Some d) (engine s') = false ∧ ∀ c, d ∉ pool_of c s'.
Proof.
  intros Hd Hdead Hnot Hrun. destruct (run_evolves _ _ _ Hrun) as [_ F].
  destruct (F d Hd) as (V & _ & P). split.
  - destruct (IsValid (Some d) (engine s')); [|done].
    rewrite <- Hdead. symmetry. by apply V.
  - intros c Hin. destruct (P c Hin) as [Hin'|Hv]; [by apply (Hnot c) | congruence].
Qed.

(** C4: [SpawnObject] never returns an invalid actor: whatever it returns is
    valid in the state it leaves.  For a class, with a world, it drops a run
    of invalid actors from the top of the free list, which are gone from
    the list afterwards, and then either returns the first valid pooled
    actor, spawning nothing, or, the list being exhausted, returns the
    newly spawned actor (null if the host refuses).  In a reachable state
    the dropped actors are in no free list after the call and, whatever
    follows, never enter one again. *)
Theorem SpawnObject_never_invalid `{HostPolicy} c loc rot pt s r s' :
  SpawnObject c loc rot pt s = Some (r, s') →
  (∀ a, r = Some a → IsValid (Some a) (engine s') = true) ∧
  ∀ T, c = Some T → HasWorld (engine s) = true →
    ∃ dropped,
      Forall (λ a, IsValid (Some a) (engine s) = false) dropped ∧
      ((∃ a, r = Some a ∧ pool_of T s = pool_of T s' ++ a :: dropped ∧
             IsValid (Some a) (engine s) = true ∧
             NextActor (engine s') = NextActor (engine s))
       ∨ (pool_of T s = dropped ∧ pool_of T s' = [] ∧
          (r = Some (NextActor (engine s)) ∧ CanSpawn (engine s) T = true
           ∨ r = nullptr ∧ CanSpawn (engine s) T = false))) ∧
      (reachable s →
       ∀ d, d ∈ dropped →
         ∀ ops s'', run ops s' = Some s'' →
           IsValid (Some d) (engine s'') = false ∧ ∀ c', d ∉ pool_of c' s'').
Proof.
  intros Hs. split.
  - intros a ->. destruct c as [T|]; [|done].
    destruct (HasWorld (engine s)) eqn:Hw.
    2:{ by rewrite SpawnObject_no_world in Hs. }
    destruct (SpawnObject_cases _ _ _ _ _ _ _ Hw Hs) as (_ & _ & _ & _ & _ & Hres).
    by destruct (Hres a eq_refl).
  - intros T -> Hw.
    destruct (SpawnObject_cases _ _ _ _ _ _ _ Hw Hs)
      as (dropped & Hd & Hcase & Hother & _).
    exists dropped. split; [done|]. split.
    { destruct Hcase as [(a & -> & Hp & Hv & Hn & _)
                        |[(-> & Hp & Hnil & Hcan & _)|(-> & Hp & Hnil & Hcan & _)]].
      - left. by exists a.
      - right. split_and!; auto.
      - right. split_and!; auto. }
    intros I%reachable_inv d Hin ops s'' Hrun.
    destruct (SpawnObject_engine _ _ _ _ _ _ _ Hs) as (Hn & _ & Hval).
    assert (HinT : d ∈ pool_of T s ∧ d ∉ pool_of T s').
    { destruct Hcase as [(a & _ & Hp & _)|[(_ & Hp & -> & _)|(_ & Hp & -> & _)]].
      - pose proof (inv_nodup _ I T) as Hnd. rewrite Hp in Hnd |- *.
        apply NoDup_app in Hnd as (_ & Hdisj & _). split.
        + rewrite elem_of_app, elem_of_cons. auto.
        + intros Hd'. apply (Hdisj _ Hd'). apply elem_of_cons. auto.
      - rewrite Hp. split; [done | apply not_elem_of_nil].
      - rewrite Hp. split; [done | apply not_elem_of_nil]. }
    destruct HinT as [HinT HnotT].
    pose proof (inv_typed _ I _ _ HinT) as Hrec.
    assert (Hlt : (d < NextActor (engine s))%positive).
    { apply (inv_allocated s d I). by rewrite Hrec. }
    apply (gone_for_good d s' ops s''); [lia | | | done].
    + rewrite Hval by done. by apply (proj1 (Forall_forall _ _) Hd).
    + intros c' Hin'. destruct (decide (c' = T)) as [->|Hne]; [done|].
      rewrite (pool_of_lookup_eq c' s s') in Hin' by auto.
      apply (inv_typed _ I) in Hin'. congruence.
Qed.

Lemma SpawnObject_never_invalid_witness :
  IsValid (Some 1%positive)
    (engine (after (H:=willing_host)
               (skip_trace ++ [CallSpawnObject (Some Bullet) ZeroVector ZeroRotator Nodes])))
  = true ∧
  pool_of Bullet (after (H:=willing_host) skip_trace) = [1%positive; 4%positive] ∧
  IsValid (Some 4%positive) (engine (after (H:=willing_host) skip_trace)) = false.
Proof.
  split; [|split; (vm_compute; reflexivity)].
  apply (SpawnObject_never_invalid (H:=willing_host) (Some Bullet) ZeroVector ZeroRotator
           Nodes (after (H:=willing_host) skip_trace) (Some 1%positive)).
  - vm_compute; reflexivity.
  - vm_compute; reflexivity.
Defined.

(** ** After teardown, as new *)

Section AsNew.
Context `{HostPolicy}.

(** With a world, [GetOrCreatePoolRoot] does not tell an invalid main root
    from another: it replaces either. *)
Lemma GetOrCreatePoolRoot_stale_main pt P C R e m1 m2 :
  HasWorld e = true →
  IsValid m1 e = false → IsValid m2 e = false →
  GetOrCreatePoolRoot pt
    {| ObjectPools := P; ActorToClassMap := C; PoolRoots := R;
       MainPoolRoot := m1; engine := e |} =
  GetOrCreatePoolRoot pt
    {| ObjectPools := P; ActorToClassMap := C; PoolRoots := R;
       MainPoolRoot := m2; engine := e |}.
Proof.
  intros Hw H1 H2. unfold GetOrCreatePoolRoot. unfold_M.
  rewrite Hw; simpl. rewrite H1, H2; simpl.
  by destruct (SpawnActor AActor_StaticClass ZeroVector ZeroRotator e) as [[m|] e1].
Qed.

(** On two states that differ at most in an invalid, allocated main root,
    [SpawnObject] faults on both or on neither, returns the same actor, and
    leaves states that again differ at most in an invalid main root. *)
Lemma SpawnObject_stale_main c loc rot pt s1 s2 :
  same_but_stale_main s1 s2 →
  (∀ m, MainPoolRoot s1 = Some m → (m < NextActor (engine s1))%positive) →
  (∀ m, MainPoolRoot s2 = Some m → (m < NextActor (engine s2))%positive) →
  match SpawnObject c loc rot pt s1, SpawnObject c loc rot pt s2 with
  | Some (r1, t1), Some (r2, t2) => r1 = r2 ∧ same_but_stale_main t1 t2
  | None, None => True
  | _, _ => False
  end.
Proof.
  intros (HP & HC & HR & He & Hmain) Ha1 Ha2.
  destruct Hmain as [Hm|[Hm1 Hm2]].
  { assert (s1 = s2) as ->.
    { destruct s1, s2; simpl in *; congruence. }
    destruct (SpawnObject c loc rot pt s2) as [[r t]|]; [|done].
    split; [done|]. unfold same_but_stale_main. by split_and!; auto. }
  destruct c as [T|].
  2:{ simpl. split; [done|]. unfold same_but_stale_main. by split_and!; auto. }
  destruct (HasWorld (engine s1)) eqn:Hw.
  2:{ rewrite !SpawnObject_no_world by congruence.
      split; [done|]. unfold same_but_stale_main. by split_and!; auto. }
  assert (Hw2 : HasWorld (engine s2) = true) by congruence.
  assert (Hpool : pool_of T s2 = pool_of T s1) by (unfold pool_of; by rewrite HP).
  destruct (PopValid (length (pool_of T s1)) (engine s1) (pool_of T s1))
    as [[a|] rest] eqn:Hpop.
  - assert (Hpop2 : PopValid (length (pool_of T s2)) (engine s2) (pool_of T s2)
                    = (Some a, rest)) by (by rewrite Hpool, <- He).
    rewrite (SpawnObject_reuse _ _ _ _ _ _ _ Hw Hpop),
            (SpawnObject_reuse _ _ _ _ _ _ _ Hw2 Hpop2).
    split; [done|]. unfold same_but_stale_main.
    rewrite !placed_active_valid. simpl. rewrite HP, HC, HR, He. split_and!; auto.
    right. by rewrite <- He at 1.
  - assert (Hpop2 : PopValid (length (pool_of T s2)) (engine s2) (pool_of T s2)
                    = (None, rest)) by (by rewrite Hpool, <- He).
    destruct (SpawnActor T loc rot (engine s1)) as [[a|] e1] eqn:Hs.
    + assert (Hs2 : SpawnActor T loc rot (engine s2) = (Some a, e1)) by (by rewrite <- He).
      rewrite (SpawnObject_new _ _ _ _ _ _ _ _ Hw Hpop Hs),
              (SpawnObject_new _ _ _ _ _ _ _ _ Hw2 Hpop2 Hs2).
      apply SpawnActor_spawned in Hs as (_ & -> & _ & _ & G).
      assert (Hv1 : IsValid (MainPoolRoot s1) e1 = false).
      { destruct (MainPoolRoot s1) as [m|] eqn:E; [|done].
        rewrite (grows_IsValid _ _ _ G); [done | by apply Ha1]. }
      assert (Hv2 : IsValid (MainPoolRoot s2) e1 = false).
      { destruct (MainPoolRoot s2) as [m|] eqn:E; [|done].
        rewrite (grows_IsValid _ _ _ G); [by rewrite He | rewrite He; by apply Ha2]. }
      assert (Hw1 : HasWorld e1 = true) by (by rewrite (grows_world _ _ G)).
      unfold set_ActorToClassMap, set_engine, set_ObjectPools; simpl.
      rewrite HP, HC, HR.
      rewrite (GetOrCreatePoolRoot_stale_main pt _ _ _ e1 (MainPoolRoot s1) (MainPoolRoot s2))
        by done.
      destruct (GetOrCreatePoolRoot _ _) as [[Root t]|]; [|done].
      split; [done|]. unfold same_but_stale_main. by split_and!; auto.
    + assert (Hs2 : SpawnActor T loc rot (engine s2) = (None, e1)) by (by rewrite <- He).
      apply SpawnActor_refused in Hs as [Hcan _].
      apply SpawnActor_refused in Hs2 as [Hcan2 _].
      rewrite (SpawnObject_refused _ _ _ _ _ _ Hw Hpop Hcan),
              (SpawnObject_refused _ _ _ _ _ _ Hw2 Hpop2 Hcan2).
      split; [done|]. unfold same_but_stale_main. simpl.
      rewrite HP. split_and!; auto.
Qed.

(** After [Deinitialize], [SpawnObject] behaves as on a newly constructed
    subsystem in the same engine: same fault or not, same actor, and states
    that differ at most in an invalid [MainPoolRoot] (the pointer is only
    reset when the root was still valid at teardown). *)
Lemma SpawnObject_after_Deinitialize c loc rot pt s :
  inv s →
  let s' := Deinitialize s in
  match SpawnObject c loc rot pt s', SpawnObject c loc rot pt (Initialize (engine s')) with
  | Some (r1, t1), Some (r2, t2) => r1 = r2 ∧ same_but_stale_main t1 t2
  | None, None => True
  | _, _ => False
  end.
Proof.
  intros I. cbv zeta. pose proof (inv_Deinitialize _ I) as I'.
  destruct (Deinitialize_spec s) as (HP & HC & HR & Hmain & _).
  apply SpawnObject_stale_main.
  - unfold same_but_stale_main; simpl. split_and!; auto.
  - intros m Hm. apply (inv_engine _ I'). by apply (inv_main _ I').
  - done.
Qed.

End AsNew.

(** ** Calls for other classes do not disturb a released actor *)

Section Undisturbed.
Context `{HostPolicy}.
Variables (T : UClass) (x : AActor) (L : list AActor) (s0 : UUnrealObjectPooler).






End Undisturbed.



(** ** Actor objects under the engine's primitives *)

Lemma Actors_SetActorActive a b e (x : AActor) :
  IsValid (Some a) e = true →
  Actors (SetActorActive (Some a) b e) !! x =
  if decide (a = x) then set_active b <$> Actors e !! a else Actors e !! x.
Proof. intros Hv. unfold SetActorActive. rewrite Hv; simpl. apply lookup_alter. Qed.

Lemma Actors_SetActorLocationAndRotation a loc rot e (x : AActor) :
  Actors (SetActorLocationAndRotation a loc rot e) !! x =
  if decide (a = x) then set_placement loc rot <$> Actors e !! a else Actors e !! x.
Proof. apply lookup_alter. Qed.

Lemma Actors_AttachToActor a p e (x : AActor) :
  Actors (AttachToActor a (Some p) e) !! x =
  if decide (a = x) then set_parent (Some p) <$> Actors e !! a else Actors e !! x.
Proof. apply lookup_alter. Qed.

Lemma Actors_Destroy a e (x : AActor) :
  Actors (Destroy a e) !! x =
  detach_from a <$> (if decide (a = x) then kill <$> Actors e !! a else Actors e !! x).
Proof. unfold Destroy; simpl. by rewrite lookup_fmap, lookup_alter. Qed.

Lemma Actors_placed_active a loc rot s (x : AActor) :
  IsValid (Some a) (engine s) = true →
  Actors (engine (placed_active a loc rot s)) !! x =
  if decide (a = x)
  then (λ st, set_active true (set_placement loc rot st)) <$> Actors (engine s) !! a
  else Actors (engine s) !! x.
Proof.
  intros Hv. unfold placed_active; simpl.
  rewrite Actors_SetActorActive by by rewrite IsValid_SetActorLocationAndRotation.
  rewrite !Actors_SetActorLocationAndRotation.
  destruct (decide (a = x)) as [->|Hne].
  - rewrite decide_True by done. by destruct (Actors (engine s) !! x).
  - done.
Qed.

(** [SetActorActive], whatever the flag, and [Destroy] of another actor
    change nothing but the switches, the validity or the parent link. *)
Lemma set_active_same_but_switches b st : same_but_switches st (set_active b st).
Proof. unfold same_but_switches; simpl. split_and!; auto. by rewrite length_fmap. Qed.

Section PoolRootPost.
Context `{HostPolicy}.

(** A spawn leaves every valid actor valid. *)
Lemma SpawnActor_keeps_valid c loc rot e e' p :
  e' = snd (SpawnActor c loc rot e) → IsValid p e = true → IsValid p e' = true.
Proof.
  intros ->. unfold SpawnActor. destruct (CanSpawn e c); simpl; [|done].
  destruct p as [x|]; [|done]. unfold IsValid; simpl.
  destruct (decide (NextActor e = x)) as [->|Hne].
  - by rewrite lookup_insert_eq.
  - by rewrite lookup_insert_ne.
Qed.

(** With both roots valid, [GetOrCreatePoolRoot] returns the cached root
    and changes nothing. *)
Lemma GetOrCreatePoolRoot_cached pt s :
  HasWorld (engine s) = true →
  IsValid (MainPoolRoot s) (engine s) = true →
  IsValid (PoolRoots s !! pt) (engine s) = true →
  GetOrCreatePoolRoot pt s = Some (PoolRoots s !! pt, s).
Proof.
  intros Hw Hm Hr. unfold GetOrCreatePoolRoot. unfold_M.
  rewrite Hw; simpl. rewrite Hm; simpl. by rewrite Hr.
Qed.

Lemma GetOrCreatePoolRoot_no_world pt s :
  HasWorld (engine s) = false → GetOrCreatePoolRoot pt s = Some (nullptr, s).
Proof. intros Hw. unfold GetOrCreatePoolRoot. unfold_M. by rewrite Hw. Qed.

(** What a call that returns leaves behind, when there is a world: a valid
    main root, a valid root for the category, which is the one returned,
    and the roots of the other categories as they were; roots that were
    valid are kept. *)
Lemma GetOrCreatePoolRoot_post pt s r s' :
  HasWorld (engine s) = true →
  GetOrCreatePoolRoot pt s = Some (r, s') →
  IsValid (MainPoolRoot s') (engine s') = true ∧
  (∃ root, r = Some root ∧ PoolRoots s' !! pt = Some root ∧
           IsValid (Some root) (engine s') = true) ∧
  (∀ pt', pt' ≠ pt → PoolRoots s' !! pt' = PoolRoots s !! pt') ∧
  (IsValid (MainPoolRoot s) (engine s) = true → MainPoolRoot s' = MainPoolRoot s).
Proof.
  intros Hw. unfold GetOrCreatePoolRoot. unfold_M. rewrite Hw; simpl.
  assert (Hnew : ∀ e n e' (p : option AActor) l,
            SpawnActor AActor_StaticClass ZeroVector ZeroRotator e = (Some n, e') →
            IsValid (Some n) (AttachToActor n p (SetActorLabel n l e')) = true).
  { intros e n e' p l (_ & _ & _ & Hn & _)%SpawnActor_spawned.
    rewrite IsValid_AttachToActor, IsValid_SetActorLabel. unfold IsValid. by rewrite Hn. }
  assert (Hkeep : ∀ e n e' (p q : option AActor) l,
            SpawnActor AActor_StaticClass ZeroVector ZeroRotator e = (Some n, e') →
            IsValid q e = true →
            IsValid q (AttachToActor n p (SetActorLabel n l e')) = true).
  { intros e n e' p q l Hs Hq.
    rewrite IsValid_AttachToActor, IsValid_SetActorLabel.
    apply (SpawnActor_keeps_valid AActor_StaticClass ZeroVector ZeroRotator e); [|done].
    by rewrite Hs. }
  destruct (IsValid (MainPoolRoot s) (engine s)) eqn:Hmain; simpl.
  - destruct (IsValid (PoolRoots s !! pt) (engine s)) eqn:Hroot; simpl.
    { intros [= <- <-]. split_and!; auto.
      destruct (PoolRoots s !! pt) as [root|] eqn:E; [|done]. by exists root. }
    destruct (SpawnActor AActor_StaticClass ZeroVector ZeroRotator (engine s))
      as [[n|] e1] eqn:Hs; simpl; [|done].
    intros [= <- <-]; simpl. split_and!; auto.
    + by eapply Hkeep.
    + exists n. rewrite lookup_insert_eq. split_and!; [done | done | by eapply Hnew].
    + intros pt' Hne. by rewrite lookup_insert_ne.
  - destruct (SpawnActor AActor_StaticClass ZeroVector ZeroRotator (engine s))
      as [[m|] e1] eqn:Hs; simpl; [|done].
    pose proof (Hnew _ _ _ None "ObjectPools_Root" Hs) as Hm.
    unfold AttachToActor in Hm; simpl in Hm.
    remember (SetActorLabel m "ObjectPools_Root" e1) as e2 eqn:He2.
    destruct (IsValid (PoolRoots s !! pt) e2) eqn:Hroot; simpl.
    { intros [= <- <-]; simpl. rewrite <- He2. split_and!; auto; [|done].
      destruct (PoolRoots s !! pt) as [root|] eqn:E; [|done]. by exists root. }
    rewrite <- He2.
    destruct (SpawnActor AActor_StaticClass ZeroVector ZeroRotator e2)
      as [[n|] e3] eqn:Hs3; simpl; [|done].
    intros [= <- <-]; simpl. split_and!; auto; [| | |done].
    + by eapply Hkeep.
    + exists n. rewrite lookup_insert_eq. split_and!; [done | done | by eapply Hnew].
    + intros pt' Hne. by rewrite lookup_insert_ne.
Qed.

(** Calling [GetOrCreatePoolRoot] again right away returns the same root
    and changes nothing: roots are created once and then cached. *)
Lemma GetOrCreatePoolRoot_again pt s r s' :
  GetOrCreatePoolRoot pt s = Some (r, s') →
  GetOrCreatePoolRoot pt s' = Some (r, s').
Proof.
  intros Hg. destruct (HasWorld (engine s)) eqn:Hw.
  2:{ rewrite GetOrCreatePoolRoot_no_world in Hg by done. injection Hg as <- <-.
      by apply GetOrCreatePoolRoot_no_world. }
  destruct (GetOrCreatePoolRoot_post _ _ _ _ Hw Hg) as (Hm & (root & -> & Hr & Hv) & _).
  apply GetOrCreatePoolRoot_spec in Hg as (_ & _ & G & _).
  rewrite <- Hr. apply GetOrCreatePoolRoot_cached; [|done|by rewrite Hr].
  by rewrite (grows_world _ _ G).
Qed.

End PoolRootPost.

Lemma Actors_SetActorLabel a l e (x : AActor) :
  Actors (SetActorLabel a l e) !! x =
  if decide (a = x) then set_label l <$> Actors e !! a else Actors e !! x.
Proof. apply lookup_alter. Qed.

Lemma engine_ok_fresh e : engine_ok e → Actors e !! NextActor e = None.
Proof.
  intros Hok. destruct (Actors e !! NextActor e) eqn:E; [|done].
  assert (NextActor e < NextActor e)%positive; [|lia]. apply Hok. by rewrite E.
Qed.

Lemma NextActor_AttachToActor a p e : NextActor (AttachToActor a p e) = NextActor e.
Proof. apply same_objects_AttachToActor. Qed.

Lemma NextActor_SetActorLabel a l e : NextActor (SetActorLabel a l e) = NextActor e.
Proof. done. Qed.

Section PoolRootFresh.
Context `{HostPolicy}.

(** The actor object a root starts as. *)
Lemma SpawnActor_root_state e n e' :
  SpawnActor AActor_StaticClass ZeroVector ZeroRotator e = (Some n, e') →
  n = NextActor e ∧ NextActor e' = Pos.succ n ∧
  Actors e' !! n = Some (NewActorState AActor_StaticClass ZeroVector ZeroRotator) ∧
  ∀ x : AActor, x ≠ n → Actors e' !! x = Actors e !! x.
Proof.
  unfold SpawnActor. destruct (CanSpawn e _); [|done]. intros [= <- <-]; simpl.
  split_and!; [done | done | by rewrite lookup_insert_eq |].
  intros x Hx. by rewrite lookup_insert_ne.
Qed.

(** In a state satisfying the invariant, with a world: how many actors a
    call allocates, and what the roots it creates look like.  A root is
    created exactly when the stored one is not valid; the main root is
    labelled [ObjectPools_Root] and has no parent, a category root is
    labelled [PoolRoot_] followed by the category's name and is attached to
    the main root. *)
Lemma GetOrCreatePoolRoot_fresh pt s r s' :
  inv s →
  HasWorld (engine s) = true →
  GetOrCreatePoolRoot pt s = Some (r, s') →
  Pos.to_nat (NextActor (engine s')) =
    Pos.to_nat (NextActor (engine s))
    + (if IsValid (MainPoolRoot s) (engine s) then 0 else 1)
    + (if IsValid (PoolRoots s !! pt) (engine s) then 0 else 1) ∧
  (IsValid (MainPoolRoot s) (engine s) = false →
   ∃ m st, MainPoolRoot s' = Some m ∧ Actors (engine s) !! m = None ∧
           Actors (engine s') !! m = Some st ∧
           ActorLabel st = "ObjectPools_Root" ∧ AttachParent st = None ∧
           ActorClass st = AActor_StaticClass) ∧
  (IsValid (PoolRoots s !! pt) (engine s) = false →
   ∃ root st, r = Some root ∧ Actors (engine s) !! root = None ∧
              Actors (engine s') !! root = Some st ∧
              ActorLabel st = "PoolRoot_" +:+ EnumName pt ∧
              AttachParent st = MainPoolRoot s' ∧
              ActorClass st = AActor_StaticClass ∧
              MainPoolRoot s' ≠ Some root).
Proof.
  intros I Hw. pose proof (inv_engine _ I) as Hok.
  unfold GetOrCreatePoolRoot. unfold_M. rewrite Hw; simpl.
  destruct (IsValid (MainPoolRoot s) (engine s)) eqn:Hmain; simpl.
  - destruct (MainPoolRoot s) as [m|] eqn:Em; [|by rewrite IsValid_None in Hmain].
    destruct (IsValid (PoolRoots s !! pt) (engine s)) eqn:Hroot; simpl.
    { intros [= <- <-]. split_and!; [lia | done | done]. }
    destruct (SpawnActor AActor_StaticClass ZeroVector ZeroRotator (engine s))
      as [[n|] e1] eqn:Hs; simpl; [|done].
    intros [= <- <-]; simpl. rewrite !Em.
    apply SpawnActor_root_state in Hs as (-> & Hn1 & Hn & Hother).
    assert (Hm : Some m ≠ Some (NextActor (engine s))).
    { intros [= ->]. destruct (inv_main _ I _ Em) as [Hx%Hok _]. lia. }
    split_and!; [| done |].
    + rewrite NextActor_AttachToActor, NextActor_SetActorLabel, Hn1. lia.
    + intros _. exists (NextActor (engine s)). eexists. split_and!.
      * done.
      * exact (engine_ok_fresh _ Hok).
      * rewrite Actors_AttachToActor, decide_True by done.
        rewrite Actors_SetActorLabel, decide_True by done. by rewrite Hn.
      * done.
      * done.
      * done.
      * done.
  - destruct (SpawnActor AActor_StaticClass ZeroVector ZeroRotator (engine s))
      as [[m|] e1] eqn:Hs; simpl; [|done].
    apply SpawnActor_root_state in Hs as (-> & Hn1 & Hm & Hother).
    remember (SetActorLabel (NextActor (engine s)) "ObjectPools_Root" e1) as e2 eqn:He2.
    assert (Hn2 : NextActor e2 = Pos.succ (NextActor (engine s))) by (by rewrite He2).
    assert (Hm2 : Actors e2 !! NextActor (engine s) =
                  Some (set_label "ObjectPools_Root"
                          (NewActorState AActor_StaticClass ZeroVector ZeroRotator))).
    { rewrite He2, Actors_SetActorLabel, decide_True by done. by rewrite Hm. }
    assert (Hroot2 : IsValid (PoolRoots s !! pt) e2 = IsValid (PoolRoots s !! pt) (engine s)).
    { destruct (PoolRoots s !! pt) as [r0|] eqn:Er; [|done].
      destruct (inv_roots _ I pt r0 Er) as (Hr0%Hok & _).
      unfold IsValid. rewrite He2, Actors_SetActorLabel, decide_False by lia.
      rewrite Hother by lia. done. }
    rewrite <- Hroot2.
    destruct (IsValid (PoolRoots s !! pt) e2) eqn:Hroot; simpl.
    { intros [= <- <-];
      cbn [engine MainPoolRoot PoolRoots set_engine set_MainPoolRoot set_PoolRoots]. rewrite <- He2. split_and!; [lia | | done].
      intros _. eexists _, _.
      split_and!; [done | exact (engine_ok_fresh _ Hok) | exact Hm2 | done..]. }
    rewrite <- He2.
    destruct (SpawnActor AActor_StaticClass ZeroVector ZeroRotator e2)
      as [[n|] e3] eqn:Hs3; simpl; [|done].
    apply SpawnActor_root_state in Hs3 as (-> & Hn3 & Hn & Hother3).
    intros [= <- <-];
      cbn [engine MainPoolRoot PoolRoots set_engine set_MainPoolRoot set_PoolRoots].
    assert (Hne : NextActor e2 ≠ NextActor (engine s)) by lia.
    split_and!.
    + rewrite NextActor_AttachToActor, NextActor_SetActorLabel, Hn3. lia.
    + intros _. exists (NextActor (engine s)),
        (set_label "ObjectPools_Root"
           (NewActorState AActor_StaticClass ZeroVector ZeroRotator)).
      split_and!; [done | exact (engine_ok_fresh _ Hok) | | done..].
      rewrite Actors_AttachToActor, decide_False by done.
      rewrite Actors_SetActorLabel, decide_False by done.
      rewrite Hother3 by done. exact Hm2.
    + intros _. exists (NextActor e2). eexists. split_and!.
      * done.
      * destruct (Actors (engine s) !! NextActor e2) eqn:E; [|done].
        assert (NextActor e2 < NextActor (engine s))%positive; [|lia].
        apply Hok. by rewrite E.
      * rewrite Actors_AttachToActor, decide_True by done.
        rewrite Actors_SetActorLabel, decide_True by done. by rewrite Hn.
      * done.
      * done.
      * done.
      * intros [= E]. lia.
Qed.

End PoolRootFresh.

(** ** [SetActorActive] on its own *)

Lemma set_active_twice b b' st : set_active b (set_active b' st) = set_active b st.
Proof. unfold set_active; simpl. f_equal. by rewrite <- list_fmap_compose. Qed.

(** X1: [SetActorActive] does nothing on an invalid or null actor; two
    calls in a row on the same actor amount to the second; and a call
    changes no actor object other than the one passed, and of that one
    only the four switches: class, validity, placement, parent, label and
    the number of components stay, as do the allocation pointer and the
    log. *)
Theorem SetActorActive_frame Actor b b' e :
  (IsValid Actor e = false → SetActorActive Actor b e = e) ∧
  SetActorActive Actor b (SetActorActive Actor b' e) = SetActorActive Actor b e ∧
  (∀ (x : AActor) st, Actors e !! x = Some st →
     ∃ st', Actors (SetActorActive Actor b e) !! x = Some st' ∧
            same_but_switches st st' ∧ (Actor ≠ Some x → st' = st)) ∧
  NextActor (SetActorActive Actor b e) = NextActor e ∧
  LogTemp (SetActorActive Actor b e) = LogTemp e.
Proof.
  split_and!.
  - intros Hv. unfold SetActorActive. by rewrite Hv.
  - unfold SetActorActive at 1. rewrite IsValid_SetActorActive.
    destruct (IsValid Actor e) eqn:Hv; simpl.
    2:{ unfold SetActorActive. by rewrite Hv. }
    destruct Actor as [a|]; [|done].
    unfold SetActorActive. rewrite Hv; simpl. unfold set_Actors; simpl. f_equal.
    rewrite alter_alter_eq. apply alter_ext. intros st _. apply set_active_twice.
  - intros x st Hx. destruct (IsValid Actor e) eqn:Hv.
    2:{ unfold SetActorActive. rewrite Hv; simpl. exists st.
        split_and!; [done | by unfold same_but_switches | done]. }
    destruct Actor as [a|]; [|done].
    rewrite Actors_SetActorActive by done. destruct (decide (a = x)) as [->|Hne].
    + rewrite Hx; simpl. eexists. split_and!; [done | apply set_active_same_but_switches|].
      by intros [].
    + exists st. split_and!; [done | by unfold same_but_switches | done].
  - apply same_objects_SetActorActive.
  - unfold SetActorActive. destruct (negb _); [done|]. by destruct Actor.
Qed.

Lemma SetActorActive_frame_witness :
  SetActorActive (Some 9%positive) true world0 = world0 ∧
  SetActorActive (Some 1%positive) true
    (SetActorActive (Some 1%positive) false (engine (after (H:=willing_host) spawn_trace)))
  = SetActorActive (Some 1%positive) true (engine (after (H:=willing_host) spawn_trace)).
Proof.
  split.
  - destruct (SetActorActive_frame (Some 9%positive) true true world0) as [Hnull _].
    apply Hnull. vm_compute; reflexivity.
  - destruct (SetActorActive_frame (Some 1%positive) true false
                (engine (after (H:=willing_host) spawn_trace))) as (_ & Htwice & _).
    exact Htwice.
Defined.

(** ** What [SpawnObject] returns *)

Section Returned.
Context `{HostPolicy}.

(** The actor object behind a returned actor: a pooled actor as it was,
    moved and activated, or a new actor of the class, attached to the root
    of the category, placed and activated. *)
Lemma SpawnObject_returned T loc rot pt s a s' :
  SpawnObject (Some T) loc rot pt s = Some (Some a, s') →
  (∃ st0, Actors (engine s) !! a = Some st0 ∧
          a ∈ pool_of T s ∧
          Actors (engine s') !! a = Some (set_active true (set_placement loc rot st0)) ∧
          PoolRoots s' = PoolRoots s ∧ MainPoolRoot s' = MainPoolRoot s)
  ∨ (a = NextActor (engine s) ∧
     Forall (λ x, IsValid (Some x) (engine s) = false) (pool_of T s) ∧
     ∃ root, PoolRoots s' !! pt = Some root ∧
             IsValid (Some root) (engine s') = true ∧
             Actors (engine s') !! a =
               Some (set_active true (set_placement loc rot
                       (set_parent (Some root) (NewActorState T loc rot))))).
Proof.
  intros Hs. destruct (HasWorld (engine s)) eqn:Hw.
  2:{ by rewrite SpawnObject_no_world in Hs. }
  destruct (PopValid (length (pool_of T s)) (engine s) (pool_of T s))
    as [[p|] rest] eqn:Hpop.
  - rewrite (SpawnObject_reuse _ _ _ _ _ _ _ Hw Hpop) in Hs. injection Hs as <- <-.
    apply PopValid_spec in Hpop as (dropped & _ & Hp & Hv).
    apply IsValid_is_Some in Hv as Hin. destruct Hin as [st0 Hst0].
    left. exists st0. split_and!; [done | | | done | done].
    + rewrite Hp, elem_of_app, elem_of_cons. auto.
    + rewrite Actors_placed_active by done. rewrite decide_True by done.
      cbn [engine set_ObjectPools]. by rewrite Hst0.
  - apply PopValid_spec in Hpop as Hspec. destruct Hspec as (dropped & Hd & -> & Harr).
    destruct (SpawnActor T loc rot (engine s)) as [[n|] e1] eqn:Hsp.
    2:{ apply SpawnActor_refused in Hsp as [Hcan _].
        by rewrite (SpawnObject_refused _ _ _ _ _ _ Hw Hpop Hcan) in Hs. }
    rewrite (SpawnObject_new _ _ _ _ _ _ _ _ Hw Hpop Hsp) in Hs.
    destruct (GetOrCreatePoolRoot _ _) as [[Root s2]|] eqn:Hg; [|done].
    injection Hs as <- <-.
    apply SpawnActor_spawned in Hsp as (_ & -> & Hn1 & Hn & G).
    assert (Hw1 : HasWorld e1 = true) by (by rewrite (grows_world _ _ G)).
    destruct (GetOrCreatePoolRoot_post _ _ _ _ (Hw1 : HasWorld (engine
                (set_ActorToClassMap _ (set_engine (λ _, e1) (set_ObjectPools _ s)))) = true) Hg)
      as (_ & (root & -> & Hr & Hv) & _).
    apply GetOrCreatePoolRoot_spec in Hg as (_ & _ & G2 & _).
    cbn [engine set_ActorToClassMap set_engine set_ObjectPools] in G2.
    assert (Hn2 : Actors (engine s2) !! NextActor (engine s)
                  = Some (NewActorState T loc rot)).
    { rewrite (grows_old _ _ G2) by lia. done. }
    right. split_and!; [done | by rewrite Harr |].
    exists root. split_and!; [done | |].
    + rewrite placed_active_valid. cbn [engine set_engine].
      by rewrite IsValid_AttachToActor.
    + rewrite Actors_placed_active.
      * rewrite decide_True by done. cbn [engine set_engine].
        rewrite Actors_AttachToActor, decide_True by done. by rewrite Hn2.
      * cbn [engine set_engine]. rewrite IsValid_AttachToActor.
        unfold IsValid. by rewrite Hn2.
Qed.

End Returned.

(** ** Activation *)

(** The object of a recorded actor after its release: the object it was,
    switched off. *)
Lemma ReturnObjectToPool_object a T s :
  IsValid (Some a) (engine s) = true →
  ActorToClassMap s !! a = Some (Some T) →
  Actors (engine (ReturnObjectToPool (Some a) s)) !! a
  = set_active false <$> Actors (engine s) !! a.
Proof.
  intros Hv Hc. rewrite (ReturnObjectToPool_managed a T) by done.
  cbn [engine set_ObjectPools set_engine].
  rewrite Actors_SetActorActive by done. by rewrite decide_True.
Qed.

(** C9: the actor a successful [SpawnObject] returns is, in the state the
    call leaves, not hidden, with collision and tick enabled and every
    component active; and its components are the ones it had, each
    activated: those of the pooled object when the actor was taken from
    the free list, those of the class defaults when it was newly spawned.
    After [ReturnObjectToPool] of a valid recorded actor the actor is
    hidden, with collision and tick disabled, and its components are the
    ones it had, each deactivated.  Neither depends on the class. *)
Theorem activation_invariant `{HostPolicy} :
  (∀ c loc rot pt s a s',
     SpawnObject c loc rot pt s = Some (Some a, s') →
     activation a (engine s') true ∧
     ∃ T st', c = Some T ∧ Actors (engine s') !! a = Some st' ∧
       bHidden st' = false ∧ bEnableCollision st' = true ∧ bTickEnabled st' = true ∧
       ((a ∈ pool_of T s ∧
         ∃ st, Actors (engine s) !! a = Some st ∧
               OwnedComponents st' = (λ _, true) <$> OwnedComponents st)
        ∨ (Forall (λ x, IsValid (Some x) (engine s) = false) (pool_of T s) ∧
           a = NextActor (engine s) ∧
           OwnedComponents st' = (λ _, true) <$> OwnedComponents (ClassDefaults T)))) ∧
  (∀ T a s,
     IsValid (Some a) (engine s) = true →
     ActorToClassMap s !! a = Some (Some T) →
     activation a (engine (ReturnObjectToPool (Some a) s)) false ∧
     ∃ st st', Actors (engine s) !! a = Some st ∧
       Actors (engine (ReturnObjectToPool (Some a) s)) !! a = Some st' ∧
       bHidden st' = true ∧ bEnableCollision st' = false ∧ bTickEnabled st' = false ∧
       OwnedComponents st' = (λ _, false) <$> OwnedComponents st).
Proof.
  split.
  - intros c loc rot pt s a s' Hs. destruct c as [T|]; [|done].
    destruct (HasWorld (engine s)) eqn:Hw.
    2:{ by rewrite SpawnObject_no_world in Hs. }
    destruct (SpawnObject_cases _ _ _ _ _ _ _ Hw Hs) as (_ & _ & _ & _ & _ & Hres).
    destruct (Hres a eq_refl) as [_ Hact]. split; [done|]. exists T.
    destruct (SpawnObject_returned _ _ _ _ _ _ _ Hs)
      as [(st0 & Hst0 & Hin & Hst & _)|(-> & Hall & root & _ & _ & Hst)].
    + eexists. split_and!; [done | exact Hst | done..|]. left. split; [done|].
      by exists st0.
    + eexists. split_and!; [done | exact Hst | done..|]. right. by split_and!.
  - intros T a s Hv Hc. split.
    + by destruct (ReturnObjectToPool_managed_facts _ _ _ Hv Hc) as (_ & _ & _ & _ & _ & _ & ?).
    + destruct (IsValid_is_Some _ _ Hv) as [st Hst].
      exists st, (set_active false st). split_and!; [done | | done..].
      by rewrite (ReturnObjectToPool_object a T), Hst.
Qed.

Lemma activation_invariant_witness :
  (activation 1%positive (engine (after (H:=willing_host) spawn_trace)) true ∧
   ∃ T st', Some Bullet = Some T ∧
     Actors (engine (after (H:=willing_host) spawn_trace)) !! 1%positive = Some st' ∧
     bHidden st' = false ∧ bEnableCollision st' = true ∧ bTickEnabled st' = true ∧
     ((1%positive ∈ pool_of T (Initialize world0) ∧
       ∃ st, Actors (engine (Initialize world0)) !! 1%positive = Some st ∧
             OwnedComponents st' = (λ _, true) <$> OwnedComponents st)
      ∨ (Forall (λ x, IsValid (Some x) (engine (Initialize world0)) = false)
                (pool_of T (Initialize world0)) ∧
         1%positive = NextActor (engine (Initialize world0)) ∧
         OwnedComponents st'
         = (λ _, true) <$> OwnedComponents (@ClassDefaults willing_host T)))) ∧
  (activation 1%positive (engine (after (H:=willing_host) pooled_trace)) false ∧
   ∃ st st', Actors (engine (after (H:=willing_host) spawn_trace)) !! 1%positive = Some st ∧
     Actors (engine (ReturnObjectToPool (Some 1%positive)
                       (after (H:=willing_host) spawn_trace))) !! 1%positive = Some st' ∧
     bHidden st' = true ∧ bEnableCollision st' = false ∧ bTickEnabled st' = false ∧
     OwnedComponents st' = (λ _, false) <$> OwnedComponents st).
Proof.
  destruct (activation_invariant (H:=willing_host)) as [Hon Hoff]. split.
  - apply (Hon (Some Bullet) ZeroVector ZeroRotator GameObjects (Initialize world0)).
    vm_compute; reflexivity.
  - apply (Hoff Bullet 1%positive (after (H:=willing_host) spawn_trace)).
    + vm_compute; reflexivity.
    + vm_compute; reflexivity.
Defined.

(** X2: the actor a successful [SpawnObject] returns stands at the requested
    location and rotation in the state the call leaves, whether it was
    taken from the free list or newly spawned. *)
Theorem SpawnObject_places `{HostPolicy} c loc rot pt s a s' :
  SpawnObject c loc rot pt s = Some (Some a, s') →
  ∃ st, Actors (engine s') !! a = Some st ∧
        ActorLocation st = loc ∧ ActorRotation st = rot.
Proof.
  intros Hs. destruct c as [T|]; [|done].
  destruct (SpawnObject_returned _ _ _ _ _ _ _ Hs)
    as [(st0 & _ & _ & -> & _)|(_ & _ & root & _ & _ & ->)]; by eexists.
Qed.

Lemma SpawnObject_places_witness :
  ∃ st, Actors (engine (after (H:=willing_host)
                          (pooled_trace ++
                           [CallSpawnObject (Some Bullet) (3, 4, 5)%Z (0, 90, 0)%Z Nodes])))
          !! 1%positive = Some st ∧
        ActorLocation st = (3, 4, 5)%Z ∧ ActorRotation st = (0, 90, 0)%Z.
Proof.
  apply (SpawnObject_places (H:=willing_host) (Some Bullet) (3, 4, 5)%Z (0, 90, 0)%Z Nodes
           (after (H:=willing_host) pooled_trace)).
  vm_compute; reflexivity.
Defined.

(** X3: the category argument decides the parent of an actor only when the
    actor is created.  In any reachable state, a successful [SpawnObject]
    either returns an actor that existed before, and then its parent link
    is what it was, whatever the category asked for; or it returns an actor
    that did not exist, and then the actor is attached to the valid root
    that [PoolRoots] holds for the category afterwards. *)
Theorem SpawnObject_parent `{HostPolicy} c loc rot pt s a s' :
  reachable s →
  SpawnObject c loc rot pt s = Some (Some a, s') →
  ∃ st, Actors (engine s') !! a = Some st ∧
        ((∃ st0, Actors (engine s) !! a = Some st0 ∧
                 AttachParent st = AttachParent st0 ∧
                 PoolRoots s' = PoolRoots s)
         ∨ (Actors (engine s) !! a = None ∧
            ∃ root, PoolRoots s' !! pt = Some root ∧
                    IsValid (Some root) (engine s') = true ∧
                    AttachParent st = Some root)).
Proof.
  intros I%reachable_inv Hs. destruct c as [T|]; [|done].
  destruct (SpawnObject_returned _ _ _ _ _ _ _ Hs)
    as [(st0 & Hst0 & _ & -> & HR & _)|(-> & _ & root & Hr & Hv & ->)].
  - eexists. split; [done|]. left. by exists st0.
  - eexists. split; [done|]. right. split.
    + apply engine_ok_fresh, I.
    + by exists root.
Qed.

Lemma SpawnObject_parent_witness :
  PoolRoots (after (H:=willing_host) pooled_trace) !! GameObjects = Some 3%positive ∧
  PoolRoots (after (H:=willing_host) pooled_trace) !! Nodes = None ∧
  ∃ st, Actors (engine (after (H:=willing_host)
                          (pooled_trace ++
                           [CallSpawnObject (Some Bullet) ZeroVector ZeroRotator Nodes])))
          !! 1%positive = Some st ∧
        ((∃ st0, Actors (engine (after (H:=willing_host) pooled_trace)) !! 1%positive
                   = Some st0 ∧
                 AttachParent st = AttachParent st0 ∧
                 PoolRoots (after (H:=willing_host)
                              (pooled_trace ++
                               [CallSpawnObject (Some Bullet) ZeroVector ZeroRotator Nodes]))
                 = PoolRoots (after (H:=willing_host) pooled_trace))
         ∨ (Actors (engine (after (H:=willing_host) pooled_trace)) !! 1%positive = None ∧
            ∃ root, PoolRoots (after (H:=willing_host)
                                 (pooled_trace ++
                                  [CallSpawnObject (Some Bullet) ZeroVector ZeroRotator Nodes]))
                      !! Nodes = Some root ∧
                    IsValid (Some root)
                      (engine (after (H:=willing_host)
                                 (pooled_trace ++
                                  [CallSpawnObject (Some Bullet) ZeroVector ZeroRotator Nodes])))
                    = true ∧
                    AttachParent st = Some root)).
Proof.
  split; [vm_compute; reflexivity|]. split; [vm_compute; reflexivity|].
  apply (SpawnObject_parent (H:=willing_host) (Some Bullet) ZeroVector ZeroRotator Nodes
           (after (H:=willing_host) pooled_trace)).
  - apply (reachable_run world0 pooled_trace); [apply engine_ok_world0 | vm_compute; reflexivity].
  - vm_compute; reflexivity.
Defined.

(** ** When [SpawnObject] returns null, and when it faults *)

(** X4: a call of [SpawnObject] that returns, returns null in exactly three
    situations: the class is null, there is no world, or the free list of
    the class holds no valid actor and the host refuses to spawn the class.
    In the first two the state is left untouched. *)
Theorem SpawnObject_null_iff `{HostPolicy} c loc rot pt s r s' :
  SpawnObject c loc rot pt s = Some (r, s') →
  (r = nullptr ↔
   c = nullptr ∨ HasWorld (engine s) = false ∨
   ∃ T, c = Some T ∧
        Forall (λ a, IsValid (Some a) (engine s) = false) (pool_of T s) ∧
        CanSpawn (engine s) T = false) ∧
  (c = nullptr ∨ HasWorld (engine s) = false → s' = s).
Proof.
  intros Hs. destruct c as [T|].
  2:{ injection Hs as <- <-. split; [|done]. split; auto. }
  destruct (HasWorld (engine s)) eqn:Hw.
  2:{ rewrite SpawnObject_no_world in Hs by done. injection Hs as <- <-.
      split; [|done]. split; auto. }
  destruct (SpawnObject_cases _ _ _ _ _ _ _ Hw Hs) as (dropped & Hd & Hcase & _).
  split; [|by intros [|]]. split.
  - intros ->. right; right. exists T.
    destruct Hcase as [(a & [=] & _)|[([=] & _)|(_ & -> & _ & Hcan & _)]]. auto.
  - intros [[=]|[[=]|(T' & [= <-] & Hall & Hcan)]].
    destruct Hcase as [(a & _ & Hp & Hv & _)|[(_ & _ & _ & Hcan' & _)|(-> & _)]];
      [|congruence|done].
    assert (Hin : a ∈ pool_of T s) by (rewrite Hp, elem_of_app, elem_of_cons; auto).
    apply (proj1 (Forall_forall _ _) Hall) in Hin. congruence.
Qed.

Lemma SpawnObject_null_iff_witness :
  SpawnObject (H:=capped_host) (Some Bullet) ZeroVector ZeroRotator GameObjects
    (after (H:=capped_host) stale_trace)
  = Some (nullptr,
          after (H:=capped_host)
            (stale_trace ++ [CallSpawnObject (Some Bullet) ZeroVector ZeroRotator GameObjects])) ∧
  (Some Bullet = nullptr ∨ HasWorld (engine (after (H:=capped_host) stale_trace)) = false ∨
   ∃ T, Some Bullet = Some T ∧
        Forall (λ a, IsValid (Some a) (engine (after (H:=capped_host) stale_trace)) = false)
               (pool_of T (after (H:=capped_host) stale_trace)) ∧
        @CanSpawn capped_host (engine (after (H:=capped_host) stale_trace)) T = false).
Proof.
  assert (Hs : SpawnObject (H:=capped_host) (Some Bullet) ZeroVector ZeroRotator GameObjects
                 (after (H:=capped_host) stale_trace)
               = Some (nullptr,
                       after (H:=capped_host)
                         (stale_trace ++
                          [CallSpawnObject (Some Bullet) ZeroVector ZeroRotator GameObjects])))
    by (vm_compute; reflexivity).
  split; [exact Hs|].
  apply (SpawnObject_null_iff (H:=capped_host) _ _ _ _ _ _ _ Hs). reflexivity.
Defined.

Section Faults.
Context `{HostPolicy}.

(** When [GetOrCreatePoolRoot] faults: there is a world, and the host
    refuses the plain actor of a root the call has to create, in the
    engine state in which the call asks for it.  That is the engine as it
    stands for the main root, and for the category root when the main
    root is valid; and the engine after the main root has been spawned and
    labelled for the category root otherwise. *)
Lemma GetOrCreatePoolRoot_faults pt s :
  GetOrCreatePoolRoot pt s = None ↔
  HasWorld (engine s) = true ∧
  let e2 := SetActorLabel (NextActor (engine s)) "ObjectPools_Root"
              (snd (SpawnActor AActor_StaticClass ZeroVector ZeroRotator (engine s))) in
  if IsValid (MainPoolRoot s) (engine s) then
    IsValid (PoolRoots s !! pt) (engine s) = false ∧
    CanSpawn (engine s) AActor_StaticClass = false
  else
    CanSpawn (engine s) AActor_StaticClass = false ∨
    (IsValid (PoolRoots s !! pt) e2 = false ∧ CanSpawn e2 AActor_StaticClass = false).
Proof.
  unfold GetOrCreatePoolRoot. unfold_M.
  destruct (HasWorld (engine s)); simpl; [|by split; [|intros [? _]]].
  destruct (IsValid (MainPoolRoot s) (engine s)) eqn:Hmain; simpl.
  - destruct (IsValid (PoolRoots s !! pt) (engine s)) eqn:Hroot; simpl.
    { split; [done|]. by intros (_ & ? & _). }
    destruct (SpawnActor AActor_StaticClass ZeroVector ZeroRotator (engine s))
      as [[n|] e1] eqn:Hs; simpl.
    + apply SpawnActor_spawned in Hs as (Hcan & _). split; [done|].
      intros (_ & _ & Hcan'). congruence.
    + apply SpawnActor_refused in Hs as [Hcan _]. by split.
  - destruct (SpawnActor AActor_StaticClass ZeroVector ZeroRotator (engine s))
      as [[m|] e1] eqn:Hs; simpl.
    2:{ apply SpawnActor_refused in Hs as [Hcan _]. split; [|done]. intros _. split; auto. }
    apply SpawnActor_spawned in Hs as (Hcan & -> & _).
    destruct (IsValid (PoolRoots s !! pt)
                (SetActorLabel (NextActor (engine s)) "ObjectPools_Root" e1)) eqn:Hroot; simpl.
    { split; [done|]. intros (_ & [?|[? _]]); congruence. }
    destruct (SpawnActor AActor_StaticClass ZeroVector ZeroRotator
                (SetActorLabel (NextActor (engine s)) "ObjectPools_Root" e1))
      as [[n|] e3] eqn:Hs3; simpl.
    + apply SpawnActor_spawned in Hs3 as (Hcan3 & _). split; [done|].
      intros (_ & [?|[_ ?]]); congruence.
    + apply SpawnActor_refused in Hs3 as [Hcan3 _]. split; [|done]. intros _.
      split; [done|]. by right.
Qed.

End Faults.



(** ** The roots, seen from outside *)

(** X6: [GetOrCreatePoolRoot] creates a root once and then hands out the
    stored one.  A second call right after a call that returned gives the
    same result and changes nothing; without a world the call returns null
    and changes nothing; with a world it leaves a valid main root and a
    valid root for the category, which is the one it returns, leaves the
    roots of the other categories alone, and keeps a main root and a
    category root that were valid. *)
Theorem GetOrCreatePoolRoot_caches `{HostPolicy} pt s r s' :
  GetOrCreatePoolRoot pt s = Some (r, s') →
  GetOrCreatePoolRoot pt s' = Some (r, s') ∧
  (HasWorld (engine s) = false → r = nullptr ∧ s' = s) ∧
  (HasWorld (engine s) = true →
   IsValid (MainPoolRoot s') (engine s') = true ∧
   (∃ root, r = Some root ∧ PoolRoots s' !! pt = Some root ∧
            IsValid (Some root) (engine s') = true) ∧
   (∀ pt', pt' ≠ pt → PoolRoots s' !! pt' = PoolRoots s !! pt') ∧
   (IsValid (MainPoolRoot s) (engine s) = true → MainPoolRoot s' = MainPoolRoot s) ∧
   (IsValid (MainPoolRoot s) (engine s) = true →
    IsValid (PoolRoots s !! pt) (engine s) = true →
    r = PoolRoots s !! pt ∧ s' = s)).
Proof.
  intros Hg. split_and!.
  - eapply GetOrCreatePoolRoot_again, Hg.
  - intros Hw. rewrite GetOrCreatePoolRoot_no_world in Hg by done.
    by injection Hg as <- <-.
  - intros Hw. destruct (GetOrCreatePoolRoot_post _ _ _ _ Hw Hg) as (Hm & Hr & Ho & Hk).
    split_and!; [done..|]. intros Hmain Hroot.
    rewrite GetOrCreatePoolRoot_cached in Hg by done. by injection Hg as <- <-.
Qed.

Lemma GetOrCreatePoolRoot_caches_witness :
  GetOrCreatePoolRoot (H:=willing_host) Billboards
    (default (Initialize world0)
       (snd <$> GetOrCreatePoolRoot (H:=willing_host) Billboards (Initialize world0)))
  = Some (Some 2%positive,
          default (Initialize world0)
            (snd <$> GetOrCreatePoolRoot (H:=willing_host) Billboards (Initialize world0))).
Proof.
  destruct (GetOrCreatePoolRoot_caches (H:=willing_host) Billboards (Initialize world0)
              (Some 2%positive)
              (default (Initialize world0)
                 (snd <$> GetOrCreatePoolRoot (H:=willing_host) Billboards (Initialize world0))))
    as [Hagain _].
  - vm_compute; reflexivity.
  - exact Hagain.
Defined.



(** ** Faults of [SpawnObject] *)

(** X8: [SpawnObject] faults only through [GetOrCreatePoolRoot], and
    exactly when that call faults in the state [SpawnObject] has reached.
    A call faults if and only if the class is not null, there is a world,
    the free list of the class holds no valid actor, the host spawns the
    actor asked for, and then, in the engine with that actor allocated,
    the host refuses the plain actor of a root that has to be created:
    with the main root valid, the category root is not valid and is
    refused; with the main root not valid, the main root is refused, or it
    is granted and, in the engine with the main root spawned and labelled,
    the category root is not valid and is refused.  Whenever a call
    faults, the main root or the category root was not valid before it. *)
Theorem SpawnObject_fault `{HostPolicy} c loc rot pt s :
  (SpawnObject c loc rot pt s = None ↔
   ∃ T, c = Some T ∧ HasWorld (engine s) = true ∧
        Forall (λ a, IsValid (Some a) (engine s) = false) (pool_of T s) ∧
        CanSpawn (engine s) T = true ∧
        let e1 := snd (SpawnActor T loc rot (engine s)) in
        let e2 := SetActorLabel (NextActor e1) "ObjectPools_Root"
                    (snd (SpawnActor AActor_StaticClass ZeroVector ZeroRotator e1)) in
        if IsValid (MainPoolRoot s) e1 then
          IsValid (PoolRoots s !! pt) e1 = false ∧
          CanSpawn e1 AActor_StaticClass = false
        else
          CanSpawn e1 AActor_StaticClass = false ∨
          (IsValid (PoolRoots s !! pt) e2 = false ∧
           CanSpawn e2 AActor_StaticClass = false)) ∧
  (SpawnObject c loc rot pt s = None →
   IsValid (MainPoolRoot s) (engine s) = false ∨
   IsValid (PoolRoots s !! pt) (engine s) = false).
Proof.
  assert (Hiff : SpawnObject c loc rot pt s = None ↔
   ∃ T, c = Some T ∧ HasWorld (engine s) = true ∧
        Forall (λ a, IsValid (Some a) (engine s) = false) (pool_of T s) ∧
        CanSpawn (engine s) T = true ∧
        let e1 := snd (SpawnActor T loc rot (engine s)) in
        let e2 := SetActorLabel (NextActor e1) "ObjectPools_Root"
                    (snd (SpawnActor AActor_StaticClass ZeroVector ZeroRotator e1)) in
        if IsValid (MainPoolRoot s) e1 then
          IsValid (PoolRoots s !! pt) e1 = false ∧
          CanSpawn e1 AActor_StaticClass = false
        else
          CanSpawn e1 AActor_StaticClass = false ∨
          (IsValid (PoolRoots s !! pt) e2 = false ∧
           CanSpawn e2 AActor_StaticClass = false)).
  { destruct c as [T|]; [|split; [done | by intros (? & ? & _)]].
    destruct (HasWorld (engine s)) eqn:Hw.
    2:{ rewrite SpawnObject_no_world by done. split; [done|]. by intros (? & _ & ? & _). }
    destruct (PopValid (length (pool_of T s)) (engine s) (pool_of T s))
      as [[a|] rest] eqn:Hp.
    { rewrite (SpawnObject_reuse _ _ _ _ _ _ _ Hw Hp). split; [done|].
      intros (T' & [= <-] & _ & Hall & _).
      apply PopValid_spec in Hp as (dropped & _ & Hpool & Hv).
      assert (Hin : a ∈ pool_of T s) by (rewrite Hpool, elem_of_app, elem_of_cons; auto).
      apply (proj1 (Forall_forall _ _) Hall) in Hin. congruence. }
    pose proof (PopValid_spec _ _ _ _ Hp) as (dropped & Hd & -> & Hall). subst dropped.
    destruct (SpawnActor T loc rot (engine s)) as [[a|] e1] eqn:Hs.
    2:{ apply SpawnActor_refused in Hs as [Hcan _].
        rewrite (SpawnObject_refused _ _ _ _ _ _ Hw Hp Hcan). split; [done|].
        intros (T' & [= <-] & _ & _ & Hcan' & _). congruence. }
    rewrite (SpawnObject_new _ _ _ _ _ _ _ _ Hw Hp Hs).
    pose proof Hs as (Hcan & Ea & _ & _ & G)%SpawnActor_spawned.
    assert (Hw1 : HasWorld e1 = true) by (by rewrite (grows_world _ _ G)).
    match goal with
    | |- match GetOrCreatePoolRoot pt ?s1 with _ => _ end = None ↔ _ =>
        pose proof (GetOrCreatePoolRoot_faults pt s1) as Hroot;
        destruct (GetOrCreatePoolRoot pt s1) as [[Root s2]|] eqn:Hg
    end;
      cbn [engine MainPoolRoot PoolRoots set_engine set_ActorToClassMap set_ObjectPools]
        in Hroot.
    - split; [done|]. intros (T' & [= <-] & _ & _ & _ & Hcond). rewrite Hs in Hcond.
      cbn [snd] in Hcond. destruct Hroot as [_ Hroot].
      discriminate Hroot. by split.
    - split; [intros _|done]. exists T. split_and!; [done | done | done | done |].
      rewrite Hs. cbn [snd]. destruct Hroot as [Hroot _].
      by destruct (Hroot eq_refl) as [_ Hcond]. }
  split; [exact Hiff|]. intros (T & -> & Hw & _ & _ & Hcond)%Hiff.
  pose proof (SpawnActor_keeps_valid T loc rot (engine s) _ (MainPoolRoot s) eq_refl) as Hkm.
  pose proof (SpawnActor_keeps_valid T loc rot (engine s) _ (PoolRoots s !! pt) eq_refl) as Hkr.
  cbv zeta in Hcond.
  destruct (IsValid (MainPoolRoot s) (engine s)) eqn:Hm; [|by left].
  rewrite (Hkm eq_refl) in Hcond. destruct Hcond as [Hr _]. right.
  destruct (IsValid (PoolRoots s !! pt) (engine s)) eqn:Hr'; [|done].
  rewrite (Hkr eq_refl) in Hr. done.
Qed.

Lemma SpawnObject_fault_witness :
  SpawnObject (H:=capped_host) (Some Bullet) ZeroVector ZeroRotator GameObjects
    (after (H:=capped_host)
       [CallSpawnObject (Some Bullet) ZeroVector ZeroRotator GameObjects; CallDeinitialize])
  = None ∧
  (IsValid
     (MainPoolRoot (after (H:=capped_host)
        [CallSpawnObject (Some Bullet) ZeroVector ZeroRotator GameObjects; CallDeinitialize]))
     (engine (after (H:=capped_host)
        [CallSpawnObject (Some Bullet) ZeroVector ZeroRotator GameObjects; CallDeinitialize]))
   = false ∨
   IsValid
     (PoolRoots (after (H:=capped_host)
        [CallSpawnObject (Some Bullet) ZeroVector ZeroRotator GameObjects; CallDeinitialize])
      !! GameObjects)
     (engine (after (H:=capped_host)
        [CallSpawnObject (Some Bullet) ZeroVector ZeroRotator GameObjects; CallDeinitialize]))
   = false).
Proof.
  destruct (SpawnObject_fault (H:=capped_host) (Some Bullet) ZeroVector ZeroRotator GameObjects
              (after (H:=capped_host)
                 [CallSpawnObject (Some Bullet) ZeroVector ZeroRotator GameObjects;
                  CallDeinitialize]))
    as [[_ Hfault] Hroots].
  assert (Hnone : SpawnObject (H:=capped_host) (Some Bullet) ZeroVector ZeroRotator GameObjects
                    (after (H:=capped_host)
                       [CallSpawnObject (Some Bullet) ZeroVector ZeroRotator GameObjects;
                        CallDeinitialize]) = None).
  { apply Hfault. exists Bullet.
    split; [reflexivity|]. split; [vm_compute; reflexivity|].
    split; [vm_compute; constructor|]. split; [vm_compute; reflexivity|].
    vm_compute. left. reflexivity. }
  split; [exact Hnone | exact (Hroots Hnone)].
Defined.

(** ** [Deinitialize] once more *)

(** A subsystem with empty maps and no valid main root is left as it is. *)
Lemma Deinitialize_fixed s :
  ObjectPools s = ∅ → ActorToClassMap s = ∅ → PoolRoots s = ∅ →
  IsValid (MainPoolRoot s) (engine s) = false →
  Deinitialize s = s.
Proof.
  destruct s as [p a r m e]; simpl. intros -> -> -> Hm.
  unfold Deinitialize; simpl. rewrite map_fold_empty.
  destruct m as [m|]; [|done]. by rewrite Hm.
Qed.

(** X9: [Deinitialize] is idempotent, does nothing to a subsystem that
    has not been used, allocates nothing and writes no log line. *)
Theorem Deinitialize_idempotent s :
  Deinitialize (Deinitialize s) = Deinitialize s ∧
  (∀ e, Deinitialize (Initialize e) = Initialize e) ∧
  NextActor (engine (Deinitialize s)) = NextActor (engine s) ∧
  LogTemp (engine (Deinitialize s)) = LogTemp (engine s).
Proof.
  destruct (Deinitialize_spec s) as (Hp & Ha & Hr & Hm & (_ & Hn & _) & Hl & _).
  split_and!; [by apply Deinitialize_fixed | | done | done].
  intros e. by apply Deinitialize_fixed.
Qed.

(** ** Handed-out actors *)

(** X10: an actor that is handed out is never handed out a second time.
    In a state the subsystem can reach, with [y] valid, recorded for [T]
    and not in the free list of [T], no call of [SpawnObject], for whatever
    class, returns [y], and [y] is still handed out afterwards. *)
Theorem SpawnObject_not_handed_out `{HostPolicy} c loc rot pt s r s' T y :
  reachable s → active_for T y s →
  SpawnObject c loc rot pt s = Some (r, s') →
  r ≠ Some y ∧ active_for T y s'.
Proof.
  intros I%reachable_inv (Hv & Hrec & Hnin) Hs.
  assert (Hlt : (y < NextActor (engine s))%positive).
  { apply (inv_engine _ I). by apply IsValid_is_Some. }
  destruct (SpawnObject_engine _ _ _ _ _ _ _ Hs) as (_ & _ & Hval).
  destruct c as [T'|]; [|by injection Hs as <- <-].
  destruct (HasWorld (engine s)) eqn:Hw.
  2:{ rewrite SpawnObject_no_world in Hs by done. by injection Hs as <- <-. }
  destruct (SpawnObject_cases _ _ _ _ _ _ _ Hw Hs) as (dropped & Hd & Hcase & Hother & _).
  assert (Hpool : y ∉ pool_of T s').
  { destruct (decide (T = T')) as [<-|Hne].
    - destruct Hcase as [(a & _ & Hp & _)|[(_ & _ & -> & _)|(_ & _ & -> & _)]];
        [|apply not_elem_of_nil..].
      intros Hin. apply Hnin. rewrite Hp, elem_of_app. by left.
    - by rewrite (pool_of_lookup_eq T s s') by (by apply Hother). }
  destruct Hcase as [(a & -> & Hp & _ & _ & Hmap)|[(-> & _ & _ & _ & Hmap)|(-> & _ & _ & _ & Hmap & _)]].
  - split.
    + intros [= ->]. assert (Hin : y ∈ pool_of T' s).
      { rewrite Hp, elem_of_app, elem_of_cons. auto. }
      apply (inv_typed _ I) in Hin. rewrite Hrec in Hin. injection Hin as <-. apply Hnin.
      rewrite Hp, elem_of_app, elem_of_cons. auto.
    + split_and!; [by rewrite Hval | by rewrite Hmap | done].
  - split; [intros [= <-]; lia|].
    split_and!; [by rewrite Hval | | done].
    rewrite Hmap, lookup_insert_ne; [done | lia].
  - split; [done|]. split_and!; [by rewrite Hval | by rewrite Hmap | done].
Qed.

Lemma SpawnObject_not_handed_out_witness :
  (SpawnObject (H:=willing_host) (Some Bullet) ZeroVector ZeroRotator GameObjects
     (after (H:=willing_host) spawn_trace))
  ≠ Some (Some 1%positive,
          after (H:=willing_host)
            (spawn_trace ++ [CallSpawnObject (Some Bullet) ZeroVector ZeroRotator GameObjects])).
Proof.
  intros Hs.
  destruct (SpawnObject_not_handed_out (H:=willing_host) (Some Bullet) ZeroVector ZeroRotator
              GameObjects (after (H:=willing_host) spawn_trace) (Some 1%positive)
              (after (H:=willing_host)
                 (spawn_trace ++
                  [CallSpawnObject (Some Bullet) ZeroVector ZeroRotator GameObjects]))
              Bullet 1%positive) as [Hne _].
  - apply (reachable_run world0 spawn_trace); [apply engine_ok_world0 | vm_compute; reflexivity].
  - split_and!; [vm_compute; reflexivity | vm_compute; reflexivity |].
    vm_compute. apply not_elem_of_nil.
  - exact Hs.
  - by apply Hne.
Defined.

(** ** What [ReturnObjectToPool] leaves alone *)

Lemma LogTemp_SetActorActive a b e : LogTemp (SetActorActive a b e) = LogTemp e.
Proof. unfold SetActorActive. destruct (negb _); [done|]. by destruct a. Qed.

(** X11: [ReturnObjectToPool] never touches the class map, the roots, the
    allocation pointer or the world; it changes the validity of no actor
    but the one passed; a free list either stays as it is or gains the
    actor passed at its end, and then the actor is valid, recorded for
    that class and was not in the list; and the log stays as it is or
    gains the warning, and then the actor is valid and not recorded for a
    class. *)
Theorem ReturnObjectToPool_frame Actor s :
  let s' := ReturnObjectToPool Actor s in
  ActorToClassMap s' = ActorToClassMap s ∧
  PoolRoots s' = PoolRoots s ∧
  MainPoolRoot s' = MainPoolRoot s ∧
  NextActor (engine s') = NextActor (engine s) ∧
  HasWorld (engine s') = HasWorld (engine s) ∧
  (∀ x, Actor ≠ Some x → IsValid (Some x) (engine s') = IsValid (Some x) (engine s)) ∧
  (∀ c, pool_of c s' = pool_of c s ∨
        ∃ a, Actor = Some a ∧ IsValid (Some a) (engine s) = true ∧
             ActorToClassMap s !! a = Some (Some c) ∧ (a ∉ pool_of c s) ∧
             pool_of c s' = pool_of c s ++ [a]) ∧
  (LogTemp (engine s') = LogTemp (engine s) ∨
   ∃ a, Actor = Some a ∧ IsValid (Some a) (engine s) = true ∧
        (∀ c, ActorToClassMap s !! a ≠ Some (Some c)) ∧
        LogTemp (engine s') = Warning_NotPooled a :: LogTemp (engine s)).
Proof.
  intros s'. subst s'.
  destruct (IsValid Actor (engine s)) eqn:Hv.
  2:{ rewrite ReturnObjectToPool_invalid by done. split_and!; auto. }
  destruct Actor as [a|]; [|done].
  destruct (ActorToClassMap s !! a) as [[T|]|] eqn:Hc.
  - rewrite (ReturnObjectToPool_managed a T) by done.
    cbn [ActorToClassMap PoolRoots MainPoolRoot engine set_ObjectPools set_engine].
    destruct (same_objects_SetActorActive (Some a) false (engine s)) as (_ & Hn & Hw).
    split_and!; [done..| | | by left; apply LogTemp_SetActorActive].
    + intros x _. by rewrite IsValid_SetActorActive.
    + intros c. rewrite pool_of_insert. cbn [InactiveActors].
      destruct (decide (T = c)) as [<-|Hne]; [|by left; rewrite pool_of_set_engine].
      unfold AddUnique. destruct (decide (a ∈ pool_of T s)) as [Hin|Hnin].
      * by left.
      * right. by exists a.
  - rewrite ReturnObjectToPool_foreign by auto.
    cbn [ActorToClassMap PoolRoots MainPoolRoot engine set_ObjectPools set_engine].
    destruct (same_objects_Destroy a (Log (Warning_NotPooled a) (engine s))) as (_ & Hn & Hw).
    split_and!; [done..| | by left | ].
    + intros x Hne. rewrite IsValid_Destroy. rewrite bool_decide_eq_true_2 by congruence.
      by rewrite andb_true_r.
    + right. exists a. split_and!; [done | done | intros c; congruence | done].
  - rewrite ReturnObjectToPool_foreign by auto.
    cbn [ActorToClassMap PoolRoots MainPoolRoot engine set_ObjectPools set_engine].
    destruct (same_objects_Destroy a (Log (Warning_NotPooled a) (engine s))) as (_ & Hn & Hw).
    split_and!; [done..| | by left | ].
    + intros x Hne. rewrite IsValid_Destroy. rewrite bool_decide_eq_true_2 by congruence.
      by rewrite andb_true_r.
    + right. exists a. split_and!; [done | done | intros c; congruence | done].
Qed.

Lemma ReturnObjectToPool_frame_witness :
  IsValid (Some 2%positive)
    (engine (ReturnObjectToPool (Some 1%positive) (after (H:=willing_host) spawn_trace)))
  = IsValid (Some 2%positive) (engine (after (H:=willing_host) spawn_trace)).
Proof.
  destruct (ReturnObjectToPool_frame (Some 1%positive) (after (H:=willing_host) spawn_trace))
    as (_ & _ & _ & _ & _ & Hvalid & _).
  apply Hvalid. discriminate.
Defined.

(** ** Prewarming a pool that is not empty *)

Section Warm.
Context `{HostPolicy}.

(** One round of the loop of [InitializePool] on a free list with a valid
    actor on top: the actor is taken and put back. *)
Lemma warm_round T pt s arr a :
  inv s → HasWorld (engine s) = true →
  pool_of T s = arr ++ [a] → IsValid (Some a) (engine s) = true →
  ∃ s1, SpawnObject (Some T) ZeroVector ZeroRotator pt s = Some (Some a, s1) ∧
        let s2 := ReturnObjectToPool (Some a) s1 in
        inv s2 ∧ HasWorld (engine s2) = true ∧ pool_of T s2 = arr ++ [a] ∧
        NextActor (engine s2) = NextActor (engine s) ∧
        ActorToClassMap s2 = ActorToClassMap s ∧
        LogTemp (engine s2) = LogTemp (engine s) ∧
        (∀ c, c ≠ T → ObjectPools s2 !! c = ObjectPools s !! c) ∧
        ∀ p, IsValid p (engine s2) = IsValid p (engine s).
Proof.
  intros I Hw Hp Hv.
  destruct (SpawnObject_top T ZeroVector ZeroRotator pt s arr a Hw Hp Hv)
    as (s1 & Hs & Hp1 & Hn1 & Hw1 & Hm1 & Hv1).
  exists s1. split; [done|]. intros s2. subst s2.
  assert (Hrec : ActorToClassMap s1 !! a = Some (Some T)).
  { rewrite Hm1. apply (inv_typed _ I). rewrite Hp, elem_of_app, elem_of_cons. auto. }
  assert (Hva : IsValid (Some a) (engine s1) = true) by by rewrite Hv1.
  destruct (ReturnObjectToPool_managed_facts a T s1 Hva Hrec)
    as (Hp2 & Ho2 & Hm2 & Hv2 & (_ & Hn2 & Hw2) & Hl2 & _).
  destruct (SpawnObject_cases _ _ _ _ _ _ _ Hw Hs) as (_ & _ & _ & Ho1 & _).
  destruct (SpawnObject_engine _ _ _ _ _ _ _ Hs) as (_ & Hl1 & _).
  split_and!.
  - apply inv_ReturnObjectToPool. by eapply inv_SpawnObject.
  - by rewrite Hw2.
  - rewrite Hp2, Hp1. unfold AddUnique. rewrite decide_False; [done|].
    pose proof (inv_nodup _ I T) as Hnd. rewrite Hp in Hnd.
    apply NoDup_app in Hnd as (_ & Hnd & _). intros Hin. apply (Hnd a Hin).
    apply elem_of_cons. by left.
  - by rewrite Hn2.
  - by rewrite Hm2.
  - by rewrite Hl2.
  - intros c Hne. rewrite Ho2 by done. by apply Ho1.
  - intros p. by rewrite Hv2.
Qed.

Lemma warm_rounds n T pt s arr a :
  inv s → HasWorld (engine s) = true →
  pool_of T s = arr ++ [a] → IsValid (Some a) (engine s) = true →
  ∃ s', InitializePool_loop n T pt s = Some ((), s') ∧
        pool_of T s' = arr ++ [a] ∧
        NextActor (engine s') = NextActor (engine s) ∧
        ActorToClassMap s' = ActorToClassMap s ∧
        LogTemp (engine s') = LogTemp (engine s) ∧
        (∀ c, c ≠ T → ObjectPools s' !! c = ObjectPools s !! c) ∧
        ∀ p, IsValid p (engine s') = IsValid p (engine s).
Proof.
  revert s. induction n as [|n IH]; intros s I Hw Hp Hv.
  - exists s. by split_and!.
  - destruct (warm_round T pt s arr a I Hw Hp Hv)
      as (s1 & Hs & I2 & Hw2 & Hp2 & Hn2 & Hm2 & Hl2 & Ho2 & Hv2).
    destruct (IH _ I2 Hw2 Hp2) as (s' & Hl & Hp' & Hn' & Hm' & Hl' & Ho' & Hv').
    { by rewrite Hv2. }
    exists s'. split_and!.
    + simpl. unfold_M. rewrite Hs. simpl. exact Hl.
    + done.
    + by rewrite Hn'.
    + by rewrite Hm'.
    + by rewrite Hl'.
    + intros c Hne. rewrite Ho' by done. by apply Ho2.
    + intros p. by rewrite Hv'.
Qed.

End Warm.

(** X12: prewarming a class whose free list has a valid actor on top
    creates nothing, whatever the count and whatever the host would
    spawn: the call returns, the free list is what it was, no actor is
    allocated, no record, log line or other free list changes, and every
    actor is as valid as before. *)
Theorem InitializePool_warm `{HostPolicy} T (Count : Z) pt s arr a :
  reachable s → HasWorld (engine s) = true →
  pool_of T s = arr ++ [a] → IsValid (Some a) (engine s) = true →
  ∃ s', InitializePool (Some T) Count pt s = Some ((), s') ∧
        pool_of T s' = arr ++ [a] ∧
        NextActor (engine s') = NextActor (engine s) ∧
        ActorToClassMap s' = ActorToClassMap s ∧
        LogTemp (engine s') = LogTemp (engine s) ∧
        (∀ c, c ≠ T → ObjectPools s' !! c = ObjectPools s !! c) ∧
        ∀ p, IsValid p (engine s') = IsValid p (engine s).
Proof. intros I%reachable_inv. by apply warm_rounds. Qed.

Lemma InitializePool_warm_witness :
  ∃ s', InitializePool (H:=willing_host) (Some Bullet) 5 Nodes
          (after (H:=willing_host) pooled_trace) = Some ((), s') ∧
        pool_of Bullet s' = [1%positive] ∧
        NextActor (engine s') = 4%positive.
Proof.
  destruct (InitializePool_warm (H:=willing_host) Bullet 5 Nodes
              (after (H:=willing_host) pooled_trace) [] 1%positive)
    as (s' & Hi & Hp & Hn & _).
  - apply (reachable_run world0 pooled_trace); [apply engine_ok_world0 | vm_compute; reflexivity].
  - vm_compute; reflexivity.
  - vm_compute; reflexivity.
  - vm_compute; reflexivity.
  - exists s'. split_and!; [exact Hi | exact Hp | exact Hn].
Defined.

(** ** What becomes of the actor objects *)

Lemma keeps_objects_refl t e : keeps_objects t e e.
Proof. intros x st Hx. exists st. split_and!; [done..|]. intros _. split_and!; auto. Qed.

Lemma keeps_objects_trans t e1 e2 e3 :
  keeps_objects t e1 e2 → keeps_objects t e2 e3 → keeps_objects t e1 e3.
Proof.
  intros K1 K2 x st Hx.
  destruct (K1 x st Hx) as (st1 & Hx1 & Hc1 & Hl1 & Hk1 & Hs1).
  destruct (K2 x st1 Hx1) as (st2 & Hx2 & Hc2 & Hl2 & Hk2 & Hs2).
  exists st2. split_and!; [done | congruence | congruence | auto |].
  intros Ht. destruct (Hs1 Ht) as (? & ? & ? & ? & ? & ? & Hp1).
  destruct (Hs2 Ht) as (? & ? & ? & ? & ? & ? & Hp2).
  split_and!; [congruence..|].
  destruct Hp2 as [Hp2|Hp2]; [|by right]. rewrite Hp2. exact Hp1.
Qed.

Lemma keeps_objects_weaken t e e' : keeps_objects None e e' → keeps_objects t e e'.
Proof.
  intros K x st Hx. destruct (K x st Hx) as (st' & Hx' & Hc & Hl & Hk & Hs).
  exists st'. split_and!; [done..|]. intros _. by apply Hs.
Qed.

(** Objects that are only added to: nothing changes for the old ones. *)
Lemma keeps_objects_grows e e' : engine_ok e → grows e e' → keeps_objects None e e'.
Proof.
  intros Hok G x st Hx. exists st.
  rewrite (grows_old _ _ G) by (apply Hok; by rewrite Hx).
  split_and!; [done..|]. intros _. split_and!; auto.
Qed.

Lemma keeps_objects_alter f a e :
  (∀ st, ActorClass (f st) = ActorClass st ∧ ActorLabel (f st) = ActorLabel st ∧
         bPendingKill (f st) = bPendingKill st) →
  keeps_objects (Some a) e (set_Actors (alter f a) e).
Proof.
  intros Hf x st Hx. simpl. rewrite lookup_alter.
  destruct (decide (a = x)) as [->|Hne].
  - rewrite Hx; simpl. exists (f st). destruct (Hf st) as (Hc & Hl & Hk).
    split_and!; [done | done | done | by rewrite Hk | by intros []].
  - exists st. split_and!; [done..|]. intros _. split_and!; auto.
Qed.

Lemma keeps_objects_SetActorActive a b e : keeps_objects a e (SetActorActive a b e).
Proof.
  unfold SetActorActive. destruct (negb _); [apply keeps_objects_refl|].
  destruct a as [a|]; [|apply keeps_objects_refl].
  by apply keeps_objects_alter.
Qed.

Lemma keeps_objects_SetActorLocationAndRotation a loc rot e :
  keeps_objects (Some a) e (SetActorLocationAndRotation a loc rot e).
Proof. by apply keeps_objects_alter. Qed.

Lemma keeps_objects_AttachToActor a p e : keeps_objects (Some a) e (AttachToActor a p e).
Proof.
  destruct p as [p|]; [|apply keeps_objects_refl]. by apply keeps_objects_alter.
Qed.

Lemma keeps_objects_Log l e : keeps_objects None e (Log l e).
Proof. intros x st Hx. exists st. split_and!; [done..|]. intros _. split_and!; auto. Qed.

Lemma keeps_objects_Destroy a e : keeps_objects None e (Destroy a e).
Proof.
  intros x st Hx. rewrite Actors_Destroy.
  assert (Hd : ∀ st0, ActorClass (detach_from a st0) = ActorClass st0 ∧
                      ActorLabel (detach_from a st0) = ActorLabel st0 ∧
                      bPendingKill (detach_from a st0) = bPendingKill st0 ∧
                      bHidden (detach_from a st0) = bHidden st0 ∧
                      bEnableCollision (detach_from a st0) = bEnableCollision st0 ∧
                      bTickEnabled (detach_from a st0) = bTickEnabled st0 ∧
                      OwnedComponents (detach_from a st0) = OwnedComponents st0 ∧
                      ActorLocation (detach_from a st0) = ActorLocation st0 ∧
                      ActorRotation (detach_from a st0) = ActorRotation st0 ∧
                      (AttachParent (detach_from a st0) = AttachParent st0 ∨
                       AttachParent (detach_from a st0) = None)).
  { intros st0. unfold detach_from. destruct (decide _); simpl; split_and!; auto. }
  destruct (decide (a = x)) as [->|Hne].
  - rewrite Hx; simpl. eexists. split; [done|].
    destruct (Hd (kill st)) as (-> & -> & -> & -> & -> & -> & -> & -> & -> & Hp).
    simpl. split_and!; [done..|]. intros _. split_and!; auto.
  - rewrite Hx; simpl. eexists. split; [done|].
    destruct (Hd st) as (-> & -> & -> & -> & -> & -> & -> & -> & -> & Hp).
    split_and!; [done..|]. intros _. split_and!; auto.
Qed.

Lemma keeps_objects_DestroyIfValid a e : keeps_objects None e (DestroyIfValid a e).
Proof.
  unfold DestroyIfValid. destruct (IsValid _ _); [apply keeps_objects_Destroy|].
  apply keeps_objects_refl.
Qed.

Lemma keeps_objects_destroy_list l e :
  keeps_objects None e (foldl (λ e a, DestroyIfValid a e) e l).
Proof.
  revert e. induction l as [|a l IH]; intros e; simpl; [apply keeps_objects_refl|].
  eapply keeps_objects_trans; [apply keeps_objects_DestroyIfValid | apply IH].
Qed.

Lemma keeps_objects_destroy_pools (m : gmap UClass FActorPool) e :
  keeps_objects None e
    (map_fold (λ _ Pool e, foldl (λ e a, DestroyIfValid a e) e (InactiveActors Pool)) e m).
Proof.
  apply (map_fold_weak_ind (λ e' _, keeps_objects None e e')).
  - apply keeps_objects_refl.
  - intros c Pool m' e' _ K.
    eapply keeps_objects_trans; [exact K | apply keeps_objects_destroy_list].
Qed.

Lemma keeps_objects_Deinitialize s : keeps_objects None (engine s) (engine (Deinitialize s)).
Proof.
  unfold Deinitialize.
  pose proof (keeps_objects_destroy_pools (ObjectPools s) (engine s)) as K.
  destruct (MainPoolRoot s) as [m|]; [|done].
  destruct (IsValid (Some m) _); [|done]. simpl.
  eapply keeps_objects_trans; [exact K | apply keeps_objects_Destroy].
Qed.

Lemma keeps_objects_ReturnObjectToPool Actor s :
  keeps_objects Actor (engine s) (engine (ReturnObjectToPool Actor s)).
Proof.
  destruct (IsValid Actor (engine s)) eqn:Hv.
  2:{ rewrite ReturnObjectToPool_invalid by done. apply keeps_objects_refl. }
  destruct Actor as [a|]; [|done].
  destruct (ActorToClassMap s !! a) as [[T|]|] eqn:Hc.
  - rewrite (ReturnObjectToPool_managed a T) by done.
    cbn [engine set_ObjectPools set_engine]. apply keeps_objects_SetActorActive.
  - rewrite ReturnObjectToPool_foreign by auto. cbn [engine set_engine].
    apply keeps_objects_weaken.
    eapply keeps_objects_trans; [apply keeps_objects_Log | apply keeps_objects_Destroy].
  - rewrite ReturnObjectToPool_foreign by auto. cbn [engine set_engine].
    apply keeps_objects_weaken.
    eapply keeps_objects_trans; [apply keeps_objects_Log | apply keeps_objects_Destroy].
Qed.

Lemma keeps_objects_placed_active a loc rot s :
  keeps_objects (Some a) (engine s) (engine (placed_active a loc rot s)).
Proof.
  unfold placed_active. cbn [engine set_engine].
  eapply keeps_objects_trans;
    [apply keeps_objects_SetActorLocationAndRotation | apply keeps_objects_SetActorActive].
Qed.

Lemma activation_keeps t a e e' b :
  keeps_objects t e e' → t ≠ Some a → activation a e b → activation a e' b.
Proof.
  intros K Ht. unfold activation. destruct (Actors e !! a) as [st|] eqn:Hx; [|done].
  destruct (K a st Hx) as (st' & -> & _ & _ & _ & Hs).
  destruct (Hs Ht) as (-> & -> & -> & -> & _). done.
Qed.

(** ** Destruction only *)

Lemma destroys_only_refl e : destroys_only e e.
Proof. intros x st Hx. exists st. split_and!; auto. Qed.

Lemma destroys_only_trans e1 e2 e3 :
  destroys_only e1 e2 → destroys_only e2 e3 → destroys_only e1 e3.
Proof.
  intros D1 D2 x st Hx.
  destruct (D1 x st Hx) as (st1 & Hx1 & Hc1 & Hl1 & Hh1 & Hco1 & Ht1 & Ho1 & Hlo1 & Hro1 & Hk1 & Hp1).
  destruct (D2 x st1 Hx1) as (st2 & Hx2 & Hc2 & Hl2 & Hh2 & Hco2 & Ht2 & Ho2 & Hlo2 & Hro2 & Hk2 & Hp2).
  exists st2. split_and!; [done | congruence.. | auto |].
  destruct Hp2 as [Hp2|(Hp2 & p & stp & Hpar & Hstp & Hkp)].
  - destruct Hp1 as [Hp1|(Hp1 & p & stp & Hpar & Hstp & Hkp)]; [left; congruence|].
    right. split; [congruence|].
    destruct (D2 p stp Hstp) as (stp' & Hstp' & _ & _ & _ & _ & _ & _ & _ & _ & Hkp' & _).
    exists p, stp'. auto.
  - right. split; [done|].
    destruct Hp1 as [Hp1|(Hp1 & _)]; [|congruence].
    exists p, stp. split_and!; [congruence | done | done].
Qed.

Lemma destroys_only_Log l e : destroys_only e (Log l e).
Proof. intros x st Hx. exists st. split_and!; auto. Qed.

(** [Destroy] of a valid actor. *)
Lemma destroys_only_Destroy a e :
  IsValid (Some a) e = true → destroys_only e (Destroy a e).
Proof.
  intros Hv. destruct (IsValid_is_Some _ _ Hv) as [sta Hsta].
  assert (Ha : Actors (Destroy a e) !! a = Some (detach_from a (kill sta))).
  { rewrite Actors_Destroy, decide_True by done. by rewrite Hsta. }
  assert (Hka : bPendingKill (detach_from a (kill sta)) = true).
  { unfold detach_from. by destruct (decide _). }
  assert (Hd : ∀ st0 st1,
            ActorClass st1 = ActorClass st0 → ActorLabel st1 = ActorLabel st0 →
            bHidden st1 = bHidden st0 → bEnableCollision st1 = bEnableCollision st0 →
            bTickEnabled st1 = bTickEnabled st0 → OwnedComponents st1 = OwnedComponents st0 →
            ActorLocation st1 = ActorLocation st0 → ActorRotation st1 = ActorRotation st0 →
            (bPendingKill st0 = true → bPendingKill st1 = true) →
            AttachParent st1 = AttachParent st0 →
            ActorClass (detach_from a st1) = ActorClass st0 ∧
            ActorLabel (detach_from a st1) = ActorLabel st0 ∧
            bHidden (detach_from a st1) = bHidden st0 ∧
            bEnableCollision (detach_from a st1) = bEnableCollision st0 ∧
            bTickEnabled (detach_from a st1) = bTickEnabled st0 ∧
            OwnedComponents (detach_from a st1) = OwnedComponents st0 ∧
            ActorLocation (detach_from a st1) = ActorLocation st0 ∧
            ActorRotation (detach_from a st1) = ActorRotation st0 ∧
            (bPendingKill st0 = true → bPendingKill (detach_from a st1) = true) ∧
            (AttachParent (detach_from a st1) = AttachParent st0 ∨
             AttachParent (detach_from a st1) = None ∧
             ∃ p stp, AttachParent st0 = Some p ∧ Actors (Destroy a e) !! p = Some stp ∧
                      bPendingKill stp = true)).
  { intros st0 st1 ? ? ? ? ? ? ? ? ? Hp. unfold detach_from.
    destruct (decide (AttachParent st1 = Some a)) as [Hpa|Hpa]; simpl.
    - split_and!; [done..|]. right. split; [done|].
      exists a, (detach_from a (kill sta)). split_and!; [congruence | done | done].
    - split_and!; [done..|]. by left. }
  intros x st Hx. rewrite Actors_Destroy.
  destruct (decide (a = x)) as [->|Hne]; rewrite Hx; simpl; eexists; (split; [done|]).
  - by apply Hd.
  - by apply Hd.
Qed.

Lemma destroys_only_DestroyIfValid a e : destroys_only e (DestroyIfValid a e).
Proof.
  unfold DestroyIfValid. destruct (IsValid (Some a) e) eqn:Hv.
  - by apply destroys_only_Destroy.
  - apply destroys_only_refl.
Qed.

Lemma destroys_only_destroy_list l e :
  destroys_only e (foldl (λ e a, DestroyIfValid a e) e l).
Proof.
  revert e. induction l as [|a l IH]; intros e; simpl; [apply destroys_only_refl|].
  eapply destroys_only_trans; [apply destroys_only_DestroyIfValid | apply IH].
Qed.

Lemma destroys_only_destroy_pools (m : gmap UClass FActorPool) e :
  destroys_only e
    (map_fold (λ _ Pool e, foldl (λ e a, DestroyIfValid a e) e (InactiveActors Pool)) e m).
Proof.
  apply (map_fold_weak_ind (λ e' _, destroys_only e e')).
  - apply destroys_only_refl.
  - intros c Pool m' e' _ D.
    eapply destroys_only_trans; [exact D | apply destroys_only_destroy_list].
Qed.

Lemma destroys_only_Deinitialize s : destroys_only (engine s) (engine (Deinitialize s)).
Proof.
  unfold Deinitialize.
  pose proof (destroys_only_destroy_pools (ObjectPools s) (engine s)) as D.
  destruct (MainPoolRoot s) as [m|]; [|done].
  destruct (IsValid (Some m) _) eqn:Hv; [|done]. simpl.
  eapply destroys_only_trans; [exact D | by apply destroys_only_Destroy].
Qed.

Section OthersSpawn.
Context `{HostPolicy}.

(** [SpawnObject] leaves the object of every actor other than the one it
    returns exactly as it is. *)
Lemma SpawnObject_others c loc rot pt s r s' (x : AActor) st :
  engine_ok (engine s) →
  SpawnObject c loc rot pt s = Some (r, s') →
  Actors (engine s) !! x = Some st → r ≠ Some x →
  Actors (engine s') !! x = Some st.
Proof.
  intros Hok Hs Hx Hne. destruct c as [T|]; [|by injection Hs as <- <-].
  destruct (HasWorld (engine s)) eqn:Hw.
  2:{ rewrite SpawnObject_no_world in Hs by done. by injection Hs as <- <-. }
  destruct (PopValid (length (pool_of T s)) (engine s) (pool_of T s))
    as [[p|] rest] eqn:Hpop.
  - rewrite (SpawnObject_reuse _ _ _ _ _ _ _ Hw Hpop) in Hs. injection Hs as <- <-.
    apply PopValid_spec in Hpop as (dropped & _ & _ & Hv).
    rewrite Actors_placed_active by done. rewrite decide_False by congruence. done.
  - destruct (SpawnActor T loc rot (engine s)) as [[n|] e1] eqn:Hsp.
    2:{ apply SpawnActor_refused in Hsp as [Hcan _].
        rewrite (SpawnObject_refused _ _ _ _ _ _ Hw Hpop Hcan) in Hs.
        by injection Hs as <- <-. }
    rewrite (SpawnObject_new _ _ _ _ _ _ _ _ Hw Hpop Hsp) in Hs.
    destruct (GetOrCreatePoolRoot _ _) as [[Root s2]|] eqn:Hg; [|done].
    injection Hs as <- <-.
    apply SpawnActor_spawned in Hsp as (_ & -> & Hn1 & Hn & G).
    apply GetOrCreatePoolRoot_spec in Hg as (_ & _ & G2 & _).
    cbn [engine set_ActorToClassMap set_engine set_ObjectPools] in G2.
    assert (Hlt : (x < NextActor (engine s))%positive) by (apply Hok; by rewrite Hx).
    assert (Hn2 : Actors (engine s2) !! NextActor (engine s) = Some (NewActorState T loc rot)).
    { rewrite (grows_old _ _ G2) by lia. done. }
    assert (Hx2 : Actors (engine s2) !! x = Some st).
    { rewrite (grows_old _ _ G2) by (pose proof (grows_next _ _ G); lia).
      by rewrite (grows_old _ _ G). }
    rewrite Actors_placed_active.
    + rewrite decide_False by congruence. cbn [engine set_engine].
      destruct Root as [root|]; [|done].
      rewrite Actors_AttachToActor, decide_False by congruence. done.
    + cbn [engine set_engine]. rewrite IsValid_AttachToActor. unfold IsValid. by rewrite Hn2.
Qed.

End OthersSpawn.

(** ** The invariant of the actor objects *)

Lemma inv_objects_Initialize e : inv_objects (Initialize e).
Proof.
  split; simpl.
  - intros a v. by rewrite lookup_empty.
  - intros c a. rewrite pool_of_Initialize. by intros ?%elem_of_nil.
  - intros pt1 pt2 r. by rewrite lookup_empty.
  - intros pt r. by rewrite lookup_empty.
  - done.
Qed.

(** A step that leaves records and roots alone and keeps the objects. *)
Lemma inv_objects_step t s s' :
  inv_objects s →
  keeps_objects t (engine s) (engine s') →
  ActorToClassMap s' = ActorToClassMap s →
  PoolRoots s' = PoolRoots s →
  MainPoolRoot s' = MainPoolRoot s →
  (∀ c a, a ∈ pool_of c s' →
          a ∈ pool_of c s ∧ t ≠ Some a ∨ activation a (engine s') false) →
  (∀ m, MainPoolRoot s = Some m → t ≠ Some m) →
  (∀ pt r, PoolRoots s !! pt = Some r → t ≠ Some r) →
  inv_objects s'.
Proof.
  intros [J1 J2 J3 J4 J5] K HC HR HM Hpool Hmain Hroot. split.
  - intros a v. rewrite HC. intros (c & st & -> & Hst & Hc)%J1.
    destruct (K a st Hst) as (st' & Hst' & Hc' & _).
    exists c, st'. split_and!; [done | done | congruence].
  - intros c a [[Hin Ht]|Hact]%Hpool; [|done].
    eapply activation_keeps; [exact K | done | by eapply J2].
  - rewrite HR. exact J3.
  - intros pt r. rewrite HR. intros Hr. destruct (J4 pt r Hr) as (st & Hst & Hc & Hl & Hpar).
    destruct (K r st Hst) as (st' & Hst' & Hc' & Hl' & _ & Hs).
    destruct (Hs (Hroot pt r Hr)) as (_ & _ & _ & _ & _ & _ & Hp').
    exists st'. split_and!; [done | congruence | congruence |].
    intros p Hp. destruct Hp' as [Hp'|Hp']; [|congruence].
    rewrite Hp' in Hp. destruct (Hpar p Hp) as [stp Hstp].
    destruct (K p stp Hstp) as (stp' & -> & _). by eexists.
  - intros m. rewrite HM. intros Hm. destruct (J5 m Hm) as (st & Hst & Hc & Hl & Hp).
    destruct (K m st Hst) as (st' & Hst' & Hc' & Hl' & _ & Hs).
    destruct (Hs (Hmain m Hm)) as (_ & _ & _ & _ & _ & _ & Hp').
    exists st'. split_and!; [done | congruence | congruence |].
    destruct Hp' as [Hp'|Hp']; congruence.
Qed.

Lemma inv_objects_set_pool s c P :
  inv_objects s →
  (∀ x, x ∈ InactiveActors P → x ∈ pool_of c s) →
  inv_objects (set_ObjectPools <[c := P]> s).
Proof.
  intros J HP. apply (inv_objects_step None s); [done | apply keeps_objects_refl | done.. | |done|done].
  intros c' a. rewrite pool_of_insert. case_decide; [subst|]; intros Hin; left; auto.
Qed.

Section ObjectsInvariant.
Context `{HostPolicy}.

(** Recording the actor a spawn has just allocated. *)
Lemma inv_objects_record s a c loc rot e1 :
  inv s → inv_objects s →
  SpawnActor c loc rot (engine s) = (Some a, e1) →
  inv_objects (set_ActorToClassMap <[a := Some c]> (set_engine (λ _, e1) s)).
Proof.
  intros I [J1 J2 J3 J4 J5] (_ & -> & _ & Ha & G)%SpawnActor_spawned.
  pose proof (keeps_objects_grows _ _ (inv_engine _ I) G) as K.
  split; simpl.
  - intros x v. destruct (decide (NextActor (engine s) = x)) as [<-|Hne].
    + rewrite lookup_insert_eq. intros [= <-]. by exists c, (NewActorState c loc rot).
    + rewrite lookup_insert_ne by done. intros (c' & st & -> & Hst & Hc)%J1.
      destruct (K x st Hst) as (st' & Hst' & Hc' & _).
      exists c', st'. split_and!; [done | done | congruence].
  - intros c' x Hin. eapply activation_keeps; [exact K | done | by eapply J2].
  - exact J3.
  - intros pt r (st & Hst & Hc & Hl & Hpar)%J4.
    exists st. split_and!; [|done..|].
    + rewrite (grows_old _ _ G); [done|]. apply (inv_engine _ I). by rewrite Hst.
    + intros p [stp Hstp]%Hpar. eapply grows_is_Some; [apply I | exact G | by rewrite Hstp].
  - intros m Hm. destruct (J5 m Hm) as (st & Hst & Hc & Hl & Hp).
    destruct (K m st Hst) as (st' & Hst' & Hc' & Hl' & _ & Hs).
    destruct Hs as (_ & _ & _ & _ & _ & _ & Hp'); [done|].
    exists st'. split_and!; [done | congruence | congruence |].
    destruct Hp' as [Hp'|Hp']; congruence.
Qed.

(** A category root that is valid is the one handed out, and the roots
    stay as they are. *)
Lemma GetOrCreatePoolRoot_valid_root pt s r s' :
  HasWorld (engine s) = true →
  IsValid (PoolRoots s !! pt) (engine s) = true →
  GetOrCreatePoolRoot pt s = Some (r, s') →
  PoolRoots s' = PoolRoots s ∧ r = PoolRoots s !! pt.
Proof.
  intros Hw Hroot. unfold GetOrCreatePoolRoot. unfold_M. rewrite Hw; simpl.
  destruct (IsValid (MainPoolRoot s) (engine s)) eqn:Hmain; simpl.
  - rewrite Hroot. by intros [= <- <-].
  - destruct (SpawnActor AActor_StaticClass ZeroVector ZeroRotator (engine s))
      as [[m|] e1] eqn:Hs; simpl; [|done].
    rewrite IsValid_SetActorLabel.
    rewrite (SpawnActor_keeps_valid AActor_StaticClass ZeroVector ZeroRotator (engine s) e1);
      [|by rewrite Hs|done].
    by intros [= <- <-].
Qed.

Lemma inv_objects_GetOrCreatePoolRoot pt s r s' :
  inv s → inv_objects s →
  GetOrCreatePoolRoot pt s = Some (r, s') → inv_objects s'.
Proof.
  intros I J Hg. destruct (HasWorld (engine s)) eqn:Hw.
  2:{ rewrite GetOrCreatePoolRoot_no_world in Hg by done. by injection Hg as <- <-. }
  pose proof (GetOrCreatePoolRoot_fresh _ _ _ _ I Hw Hg) as (_ & Hnewmain & Hnewroot).
  pose proof (GetOrCreatePoolRoot_post _ _ _ _ Hw Hg)
    as (Hmainv & (root & -> & Hr' & _) & Hother & Hkeep).
  pose proof (GetOrCreatePoolRoot_spec _ _ _ _ Hg) as (HP & HC & G & _).
  pose proof (keeps_objects_grows _ _ (inv_engine _ I) G) as K.
  pose proof J as [J1 J2 J3 J4 J5].
  assert (Hroots : ∀ pt', pt' ≠ pt → PoolRoots s' !! pt' = PoolRoots s !! pt') by done.
  assert (Hold : ∀ pt' r', PoolRoots s !! pt' = Some r' →
                           is_Some (Actors (engine s) !! r')).
  { intros pt' r' Hr. by apply (inv_roots _ I pt'). }
  assert (Hkeepobj : ∀ pt' r', PoolRoots s !! pt' = Some r' →
            ∃ st, Actors (engine s') !! r' = Some st ∧
                  ActorClass st = AActor_StaticClass ∧
                  ActorLabel st = "PoolRoot_" +:+ EnumName pt' ∧
                  ∀ p, AttachParent st = Some p → is_Some (Actors (engine s') !! p)).
  { intros pt' r' (st & Hst & Hc & Hl & Hpar)%J4. exists st. split_and!; [|done..|].
    - rewrite (grows_old _ _ G); [done|]. apply (inv_engine _ I). by rewrite Hst.
    - intros p [stp Hstp]%Hpar. eapply grows_is_Some; [apply I | exact G | by rewrite Hstp]. }
  split.
  - intros a v. rewrite HC. intros (c & st & -> & Hst & Hc)%J1.
    destruct (K a st Hst) as (st' & Hst' & Hc' & _).
    exists c, st'. split_and!; [done | done | congruence].
  - intros c a. rewrite (pool_of_lookup_eq c s s') by by rewrite HP.
    intros Hin. eapply activation_keeps; [exact K | done | by eapply J2].
  - destruct (IsValid (PoolRoots s !! pt) (engine s)) eqn:Hv.
    { destruct (GetOrCreatePoolRoot_valid_root _ _ _ _ Hw Hv Hg) as [-> _]. exact J3. }
    destruct (Hnewroot eq_refl) as (root' & st & [= <-] & Hnone & _).
    intros pt1 pt2 x H1 H2.
    destruct (decide (pt1 = pt)) as [->|Hn1]; destruct (decide (pt2 = pt)) as [->|Hn2];
      [done| | |].
    + rewrite Hr' in H1. injection H1 as <-. rewrite Hroots in H2 by done.
      apply Hold in H2. rewrite Hnone in H2. by destruct H2.
    + rewrite Hr' in H2. injection H2 as <-. rewrite Hroots in H1 by done.
      apply Hold in H1. rewrite Hnone in H1. by destruct H1.
    + rewrite Hroots in H1, H2 by done. by eapply J3.
  - intros pt' x Hx. destruct (decide (pt' = pt)) as [->|Hne].
    + rewrite Hr' in Hx. injection Hx as <-.
      destruct (IsValid (PoolRoots s !! pt) (engine s)) eqn:Hv.
      * destruct (GetOrCreatePoolRoot_valid_root _ _ _ _ Hw Hv Hg) as [_ Hsame].
        symmetry in Hsame. by apply (Hkeepobj pt).
      * destruct (Hnewroot eq_refl) as (root' & st & [= <-] & _ & Hst & Hl & Hp & Hc & _).
        exists st. split_and!; [done..|]. intros p Hp'. rewrite Hp in Hp'.
        rewrite Hp' in Hmainv. by apply IsValid_is_Some.
    + rewrite Hroots in Hx by done. by apply (Hkeepobj pt').
  - intros m Hm. destruct (IsValid (MainPoolRoot s) (engine s)) eqn:Hv.
    + rewrite (Hkeep eq_refl) in Hm. destruct (J5 m Hm) as (st & Hst & Hc & Hl & Hp).
      destruct (K m st Hst) as (st' & Hst' & Hc' & Hl' & _ & Hs).
      destruct Hs as (_ & _ & _ & _ & _ & _ & Hp'); [done|].
      exists st'. split_and!; [done | congruence | congruence |].
      destruct Hp' as [Hp'|Hp']; congruence.
    + destruct (Hnewmain eq_refl) as (m' & st & Hm' & _ & Hst & Hl & Hp & Hc).
      rewrite Hm in Hm'. injection Hm' as <-. by exists st.
Qed.

Lemma inv_objects_SpawnObject c loc rot pt s r s' :
  inv s → inv_objects s →
  SpawnObject c loc rot pt s = Some (r, s') → inv_objects s'.
Proof.
  intros I J. destruct c as [c|]; [|by intros [= <- <-]].
  destruct (HasWorld (engine s)) eqn:Hw.
  2:{ rewrite SpawnObject_no_world by done. by intros [= <- <-]. }
  destruct (PopValid (length (pool_of c s)) (engine s) (pool_of c s))
    as [[a|] rest] eqn:Hpop.
  - rewrite (SpawnObject_reuse _ _ _ _ _ _ _ Hw Hpop). intros [= <- <-].
    pose proof (PopValid_spec _ _ _ _ Hpop) as (dropped & _ & Hp & Hv).
    assert (Hin : a ∈ pool_of c s) by (rewrite Hp, elem_of_app, elem_of_cons; auto).
    apply (inv_objects_step (Some a) s); [done | | done.. | | |].
    + apply (keeps_objects_placed_active a loc rot (set_ObjectPools _ s)).
    + intros c' x. unfold placed_active. rewrite !pool_of_set_engine, pool_of_insert.
      cbn [InactiveActors]. case_decide as Hc; [subst c'|].
      * intros Hx. left. split; [rewrite Hp, elem_of_app; by left|].
        intros [= ->]. pose proof (inv_nodup _ I c) as Hnd. rewrite Hp in Hnd.
        apply NoDup_app in Hnd as (_ & Hnd & _). apply (Hnd x Hx), elem_of_cons. by left.
      * intros Hx. left. split; [done|]. intros [= ->].
        apply (inv_typed _ I) in Hx, Hin. congruence.
    + intros m Hm [= ->]. apply (inv_typed _ I) in Hin.
      destruct (inv_main _ I m Hm) as [_ Hnone]. congruence.
    + intros pt' r Hr [= ->]. apply (inv_typed _ I) in Hin.
      destruct (inv_roots _ I pt' r Hr) as (_ & Hnone & _). congruence.
  - assert (J0 : inv_objects
                   (set_ObjectPools
                      <[c := {| InactiveActors := rest;
                                PoolRoot := PoolRoot (default FActorPool_default
                                                        (ObjectPools s !! c)) |}]> s)).
    { apply inv_objects_set_pool; [done|]. simpl. intros x Hx. by eapply PopValid_prefix. }
    destruct (SpawnActor c loc rot (engine s)) as [[a|] e1] eqn:Hs.
    + rewrite (SpawnObject_new _ _ _ _ _ _ _ _ Hw Hpop Hs).
      destruct (GetOrCreatePoolRoot _ _) as [[Root s2]|] eqn:Hg; [|done].
      intros [= <- <-].
      pose proof (SpawnActor_spawned _ _ _ _ _ _ Hs) as (_ & Ea & _ & Ha & G).
      assert (I1 : inv (set_ActorToClassMap <[a := Some c]>
                          (set_engine (λ _, e1)
                             (set_ObjectPools
                                <[c := {| InactiveActors := rest;
                                          PoolRoot := PoolRoot (default FActorPool_default
                                                                  (ObjectPools s !! c)) |}]> s)))).
      { apply (inv_record (set_ObjectPools _ s)); simpl; auto. by eapply inv_popped. }
      assert (J1 : inv_objects (set_ActorToClassMap <[a := Some c]>
                          (set_engine (λ _, e1)
                             (set_ObjectPools
                                <[c := {| InactiveActors := rest;
                                          PoolRoot := PoolRoot (default FActorPool_default
                                                                  (ObjectPools s !! c)) |}]> s)))).
      { apply (inv_objects_record (set_ObjectPools _ s) a c loc rot e1);
          [by eapply inv_popped | done | done]. }
      pose proof (inv_GetOrCreatePoolRoot _ _ _ _ I1 Hg) as I2.
      pose proof (inv_objects_GetOrCreatePoolRoot _ _ _ _ I1 J1 Hg) as J2.
      pose proof (GetOrCreatePoolRoot_spec _ _ _ _ Hg) as (HP & HC & _).
      cbn [ObjectPools ActorToClassMap set_ActorToClassMap set_engine set_ObjectPools] in HP, HC.
      assert (Hrec : ActorToClassMap s2 !! a = Some (Some c)).
      { rewrite HC. apply lookup_insert_eq. }
      apply (inv_objects_step (Some a) s2); [done | | done.. | | |].
      * eapply keeps_objects_trans;
          [|apply (keeps_objects_placed_active _ loc rot (set_engine _ s2))].
        cbn [engine set_engine]. apply keeps_objects_AttachToActor.
      * intros c' x Hx. left. split; [exact Hx|]. intros [= ->].
        assert (Hx' : x ∈ pool_of c' s).
        { unfold placed_active in Hx. rewrite !pool_of_set_engine in Hx.
          unfold pool_of in Hx. rewrite HP in Hx.
          destruct (decide (c = c')) as [<-|Hne].
          - rewrite lookup_insert_eq in Hx. simpl in Hx.
            eapply PopValid_prefix; [exact Hpop | exact Hx].
          - by rewrite lookup_insert_ne in Hx. }
        apply (inv_typed _ I), mk_is_Some, (inv_allocated _ _ I) in Hx'. lia.
      * intros m Hm [= ->]. destruct (inv_main _ I2 m Hm) as [_ Hnone]. congruence.
      * intros pt' r Hr [= ->]. destruct (inv_roots _ I2 pt' r Hr) as (_ & Hnone & _).
        congruence.
    + apply SpawnActor_refused in Hs as [Hcan _].
      rewrite (SpawnObject_refused _ _ _ _ _ _ Hw Hpop Hcan). by intros [= <- <-].
Qed.

Lemma inv_objects_ReturnObjectToPool Actor s :
  inv s → inv_objects s → inv_objects (ReturnObjectToPool Actor s).
Proof.
  intros I J. destruct (IsValid Actor (engine s)) eqn:Hv.
  2:{ by rewrite ReturnObjectToPool_invalid. }
  destruct Actor as [a|]; [|done].
  assert (Hforeign : inv_objects (set_engine (λ e, Destroy a (Log (Warning_NotPooled a) e)) s)).
  { apply (inv_objects_step None s); [done | | done.. | |done|done].
    - cbn [engine set_engine].
      eapply keeps_objects_trans; [apply keeps_objects_Log | apply keeps_objects_Destroy].
    - intros c x Hx. left. by rewrite pool_of_set_engine in Hx. }
  destruct (ActorToClassMap s !! a) as [[c|]|] eqn:Hc.
  - destruct (ReturnObjectToPool_managed_facts a c s Hv Hc)
      as (Hp & Ho & Hm & _ & _ & _ & Hact).
    apply (inv_objects_step (Some a) s); [done | | done | | | | |].
    + apply keeps_objects_ReturnObjectToPool.
    + by rewrite (ReturnObjectToPool_managed a c).
    + by rewrite (ReturnObjectToPool_managed a c).
    + intros c' x Hx. destruct (decide (x = a)) as [->|Hne].
      * right. exact Hact.
      * left. split; [|congruence]. destruct (decide (c' = c)) as [->|Hnc].
        -- rewrite Hp in Hx. apply AddUnique_elem in Hx as [?|?]; done.
        -- by rewrite (pool_of_lookup_eq c' s _) in Hx by by apply Ho.
    + intros m Hm' [= ->]. destruct (inv_main _ I m Hm') as [_ Hnone]. congruence.
    + intros pt' r Hr [= ->]. destruct (inv_roots _ I pt' r Hr) as (_ & Hnone & _).
      congruence.
  - by rewrite ReturnObjectToPool_foreign by auto.
  - by rewrite ReturnObjectToPool_foreign by auto.
Qed.

Lemma inv_objects_Deinitialize s : inv_objects s → inv_objects (Deinitialize s).
Proof.
  intros J. destruct (Deinitialize_spec s) as (HP & HC & HR & Hinv & _ & _ & _ & Hmain & _).
  split.
  - intros a v. by rewrite HC, lookup_empty.
  - intros c a. unfold pool_of. rewrite HP, lookup_empty. by intros ?%elem_of_nil.
  - intros pt1 pt2 r. by rewrite HR, lookup_empty.
  - intros pt r. by rewrite HR, lookup_empty.
  - intros m Hm. destruct Hmain as [E|E]; [congruence|]. rewrite E in Hm.
    destruct (inv_main_label _ J m Hm) as (st & Hst & Hc & Hl & Hp).
    destruct (keeps_objects_Deinitialize s m st Hst) as (st' & Hst' & Hc' & Hl' & _ & Hs).
    destruct Hs as (_ & _ & _ & _ & _ & _ & Hp'); [done|].
    exists st'. split_and!; [done | congruence | congruence |].
    destruct Hp' as [Hp'|Hp']; congruence.
Qed.

Lemma inv_objects_InitializePool_loop n c pt s u s' :
  inv s → inv_objects s →
  InitializePool_loop n c pt s = Some (u, s') → inv_objects s'.
Proof.
  revert s. induction n as [|n IH]; intros s I J; simpl.
  - by intros [= <- <-].
  - unfold_M. destruct (SpawnObject (Some c) ZeroVector ZeroRotator pt s)
      as [[r s1]|] eqn:Hs; simpl; [|done].
    pose proof (inv_SpawnObject _ _ _ _ _ _ _ I Hs) as I1.
    pose proof (inv_objects_SpawnObject _ _ _ _ _ _ _ I J Hs) as J1.
    destruct r as [a|]; simpl; apply IH; auto.
    + by apply inv_ReturnObjectToPool.
    + by apply inv_objects_ReturnObjectToPool.
Qed.

Lemma inv_objects_exec op s s' :
  inv s → inv_objects s → exec op s = Some s' → inv_objects s'.
Proof.
  intros I J. destruct op as [c loc rot pt|Actor|c n pt| |a|c loc rot]; simpl.
  - destruct (SpawnObject _ _ _ _ s) as [[r s1]|] eqn:Hs; simpl; [|done].
    intros [= <-]. by eapply inv_objects_SpawnObject.
  - intros [= <-]. by apply inv_objects_ReturnObjectToPool.
  - destruct c as [c|]; simpl; [|by intros [= <-]].
    destruct (InitializePool_loop _ _ _ s) as [[u s1]|] eqn:Hs; simpl; [|done].
    intros [= <-]. by eapply inv_objects_InitializePool_loop.
  - intros [= <-]. by apply inv_objects_Deinitialize.
  - intros [= <-]. apply (inv_objects_step None s); [done | | done.. | |done|done].
    + apply keeps_objects_Destroy.
    + intros c' x Hx. by left.
  - intros [= <-]. apply (inv_objects_step None s); [done | | done.. | |done|done].
    + apply keeps_objects_grows; [apply I | apply SpawnActor_grows].
    + intros c' x Hx. by left.
Qed.

Lemma inv_objects_run ops s s' :
  inv s → inv_objects s → run ops s = Some s' → inv_objects s'.
Proof.
  revert s. induction ops as [|op ops IH]; intros s I J; simpl.
  - by intros [= <-].
  - destruct (exec op s) as [s1|] eqn:He; [|done].
    apply IH; [by eapply inv_exec | by eapply inv_objects_exec].
Qed.

Lemma reachable_inv_objects s : reachable s → inv_objects s.
Proof.
  intros (e & ops & Hok & Hrun).
  eapply inv_objects_run; [| |exact Hrun]; [by apply inv_Initialize|].
  apply inv_objects_Initialize.
Qed.

End ObjectsInvariant.

(** ** What holds in every reachable state *)

(** X13: in every state the subsystem can reach, an actor of a free list
    is switched off: hidden, without collision and tick, every component
    inactive.  It is an object of the class of the list, and it is neither
    the main root nor the root of a category. *)
Theorem pooled_actor_off `{HostPolicy} s c a :
  reachable s → a ∈ pool_of c s →
  activation a (engine s) false ∧
  (∃ st, Actors (engine s) !! a = Some st ∧ ActorClass st = c) ∧
  MainPoolRoot s ≠ Some a ∧ ∀ pt, PoolRoots s !! pt ≠ Some a.
Proof.
  intros R Hin. pose proof (reachable_inv _ R) as I.
  pose proof (reachable_inv_objects _ R) as J.
  pose proof (inv_typed _ I c a Hin) as Hrec.
  split_and!.
  - by apply (inv_off _ J c).
  - destruct (inv_class _ J a _ Hrec) as (c' & st & [= <-] & Hst & Hc). by exists st.
  - intros Hm. destruct (inv_main _ I a Hm) as [_ Hnone]. congruence.
  - intros pt Hr. destruct (inv_roots _ I pt a Hr) as (_ & Hnone & _). congruence.
Qed.

Lemma pooled_actor_off_witness :
  activation 1%positive (engine (after (H:=willing_host) pooled_trace)) false.
Proof.
  destruct (pooled_actor_off (H:=willing_host) (after (H:=willing_host) pooled_trace)
              Bullet 1%positive) as [Hoff _].
  - apply (reachable_run world0 pooled_trace); [apply engine_ok_world0 | vm_compute; reflexivity].
  - vm_compute. apply elem_of_cons. by left.
  - exact Hoff.
Defined.

(** X14: in every state the subsystem can reach, the root stored for a
    category is a plain actor labelled [PoolRoot_] followed by the name of
    the category, attached to nothing or to an actor that has been
    allocated; it is not recorded in the class map, is not the main root,
    and is the root of no other category; and the main root is a plain
    actor labelled [ObjectPools_Root], attached to nothing and not
    recorded in the class map. *)
Theorem roots_well_formed `{HostPolicy} s :
  reachable s →
  (∀ pt r, PoolRoots s !! pt = Some r →
     (∃ st, Actors (engine s) !! r = Some st ∧
            ActorClass st = AActor_StaticClass ∧
            ActorLabel st = "PoolRoot_" +:+ EnumName pt ∧
            ∀ p, AttachParent st = Some p → is_Some (Actors (engine s) !! p)) ∧
     ActorToClassMap s !! r = None ∧
     MainPoolRoot s ≠ Some r ∧
     ∀ pt', PoolRoots s !! pt' = Some r → pt' = pt) ∧
  (∀ m, MainPoolRoot s = Some m →
     (∃ st, Actors (engine s) !! m = Some st ∧
            ActorClass st = AActor_StaticClass ∧
            ActorLabel st = "ObjectPools_Root" ∧ AttachParent st = None) ∧
     ActorToClassMap s !! m = None).
Proof.
  intros R. pose proof (reachable_inv _ R) as I.
  pose proof (reachable_inv_objects _ R) as J. split.
  - intros pt r Hr. destruct (inv_roots _ I pt r Hr) as (_ & Hnone & Hmain).
    split_and!; [by apply (inv_root_label _ J) | done | done |].
    intros pt' Hr'. by apply (inv_roots_inj _ J pt' pt r).
  - intros m Hm. destruct (inv_main _ I m Hm) as [_ Hnone].
    split; [by apply (inv_main_label _ J) | done].
Qed.

Lemma roots_well_formed_witness :
  ∃ st, Actors (engine (after (H:=willing_host) pooled_trace)) !! 3%positive = Some st ∧
        ActorClass st = AActor_StaticClass ∧
        ActorLabel st = "PoolRoot_" +:+ EnumName GameObjects.
Proof.
  destruct (roots_well_formed (H:=willing_host) (after (H:=willing_host) pooled_trace))
    as [Hroots _].
  - apply (reachable_run world0 pooled_trace); [apply engine_ok_world0 | vm_compute; reflexivity].
  - destruct (Hroots GameObjects 3%positive) as [(st & Hst & Hc & Hl & _) _];
      [vm_compute; reflexivity|].
    by exists st.
Defined.

(** X15: in every state the subsystem can reach, a record of the class
    map holds a class that is not null, and the recorded actor is an
    allocated object of that class.  So the second half of the test
    [ClassPtr && *ClassPtr] in [ReturnObjectToPool] never decides: a valid
    actor is released into a free list exactly when it has a record, and
    is destroyed with a warning exactly when it has none. *)
Theorem records_well_formed `{HostPolicy} s a :
  reachable s →
  (∀ v, ActorToClassMap s !! a = Some v →
     ∃ c st, v = Some c ∧ Actors (engine s) !! a = Some st ∧ ActorClass st = c) ∧
  (IsValid (Some a) (engine s) = true →
     (is_Some (ActorToClassMap s !! a) ↔ pooled (ReturnObjectToPool (Some a) s) a) ∧
     (ActorToClassMap s !! a = None ↔
      IsValid (Some a) (engine (ReturnObjectToPool (Some a) s)) = false)).
Proof.
  intros R. pose proof (reachable_inv _ R) as I.
  pose proof (reachable_inv_objects _ R) as J. split; [apply (inv_class _ J)|].
  intros Hv. destruct (ActorToClassMap s !! a) as [v|] eqn:Hrec.
  - destruct (inv_class _ J a v Hrec) as (c & st & -> & _).
    destruct (ReturnObjectToPool_managed_facts a c s Hv Hrec) as (Hp & _ & _ & Hval & _).
    split; split; [| done | done |].
    + intros _. exists c. rewrite Hp. apply AddUnique_elem. by left.
    + by rewrite Hval, Hv.
  - rewrite ReturnObjectToPool_foreign by auto. split; split; [ | | | done].
    + by intros [? ?].
    + intros [c Hin]. rewrite pool_of_set_engine in Hin.
      apply (inv_typed _ I) in Hin. congruence.
    + intros _. cbn [engine set_engine]. rewrite IsValid_Destroy.
      rewrite bool_decide_eq_false_2 by (by intros []). apply andb_false_r.
Qed.

Lemma records_well_formed_witness :
  ∃ c st, Some Bullet = Some c ∧
          Actors (engine (after (H:=willing_host) spawn_trace)) !! 1%positive = Some st ∧
          ActorClass st = c.
Proof.
  destruct (records_well_formed (H:=willing_host) (after (H:=willing_host) spawn_trace)
              1%positive) as [Hrec _].
  - apply (reachable_run world0 spawn_trace); [apply engine_ok_world0 | vm_compute; reflexivity].
  - apply (Hrec (Some Bullet)). vm_compute; reflexivity.
Defined.

(** ** The template overload *)

Section TemplateFacts.
Context `{HostPolicy} `{ClassHierarchy}.

(** The object behind the actor [SpawnObject] returns is of the class
    asked for. *)
Lemma SpawnObject_class T loc rot pt s a s' :
  inv s → inv_objects s →
  SpawnObject (Some T) loc rot pt s = Some (Some a, s') →
  ∃ st, Actors (engine s') !! a = Some st ∧ ActorClass st = T.
Proof.
  intros I J Hs.
  destruct (SpawnObject_returned _ _ _ _ _ _ _ Hs)
    as [(st0 & Hst0 & Hin & Hst & _)|(_ & _ & root & _ & _ & Hst)].
  - eexists. split; [exact Hst|]. simpl.
    apply (inv_typed _ I) in Hin.
    destruct (inv_class _ J a _ Hin) as (c & st & [= <-] & Hst' & Hc). congruence.
  - eexists. split; [exact Hst|]. done.
Qed.

End TemplateFacts.

(** X16: the template overload [SpawnObject<T>].  For a class that is not
    a child of [T], and for a null class, it returns null and changes
    nothing.  For a class that is a child of [T], in a state the subsystem
    can reach, it does exactly what [SpawnObject] does and returns what
    [SpawnObject] returns: the cast never turns a returned actor into
    null, because a returned actor is an object of the class asked for. *)
Theorem SpawnObjectT_spec `{HostPolicy} `{ClassHierarchy} T c loc rot pt s :
  (IsChildOf c T = false → SpawnObjectT T (Some c) loc rot pt s = Some (nullptr, s)) ∧
  SpawnObjectT T nullptr loc rot pt s = Some (nullptr, s) ∧
  (reachable s → IsChildOf c T = true →
   SpawnObjectT T (Some c) loc rot pt s = SpawnObject (Some c) loc rot pt s).
Proof.
  split_and!.
  - intros Hc. unfold SpawnObjectT, TSubclassOf_deref. by rewrite Hc.
  - done.
  - intros R Hc. pose proof (reachable_inv _ R) as I.
    pose proof (reachable_inv_objects _ R) as J.
    unfold SpawnObjectT, TSubclassOf_deref. rewrite Hc. unfold_M.
    destruct (SpawnObject (Some c) loc rot pt s) as [[[a|] s']|] eqn:Hs; simpl; [|done..].
    destruct (SpawnObject_class _ _ _ _ _ _ _ I J Hs) as (st & Hst & Hcl).
    by rewrite Hst, Hcl, Hc.
Qed.

Lemma SpawnObjectT_spec_witness :
  SpawnObjectT (H:=willing_host) (H0:=flat_hierarchy) AActor_StaticClass (Some Bullet)
    ZeroVector ZeroRotator GameObjects (after (H:=willing_host) pooled_trace)
  = SpawnObject (H:=willing_host) (Some Bullet)
      ZeroVector ZeroRotator GameObjects (after (H:=willing_host) pooled_trace).
Proof.
  destruct (SpawnObjectT_spec (H:=willing_host) (H0:=flat_hierarchy) AActor_StaticClass Bullet
              ZeroVector ZeroRotator GameObjects (after (H:=willing_host) pooled_trace))
    as (_ & _ & Heq).
  apply Heq.
  - apply (reachable_run world0 pooled_trace); [apply engine_ok_world0 | vm_compute; reflexivity].
  - vm_compute; reflexivity.
Defined.

(** ** The log *)

Section LogFacts.
Context `{HostPolicy}.

Lemma InitializePool_loop_log n T pt s u s' :
  inv s → InitializePool_loop n T pt s = Some (u, s') →
  LogTemp (engine s') = LogTemp (engine s).
Proof.
  revert s. induction n as [|n IH]; intros s I; simpl.
  - by intros [= <- <-].
  - unfold_M. destruct (SpawnObject (Some T) ZeroVector ZeroRotator pt s)
      as [[r s1]|] eqn:Hs; simpl; [|done].
    pose proof (inv_SpawnObject _ _ _ _ _ _ _ I Hs) as I1.
    destruct (SpawnObject_engine _ _ _ _ _ _ _ Hs) as (_ & Hl1 & _).
    destruct r as [a|]; simpl.
    + destruct (SpawnObject_active_for _ _ _ _ _ _ _ I Hs) as [(Hv & Hrec & _) _].
      destruct (ReturnObjectToPool_managed_facts a T s1 Hv Hrec) as (_ & _ & _ & _ & _ & Hl2 & _).
      intros Hl. apply IH in Hl; [|by apply inv_ReturnObjectToPool]. congruence.
    + intros Hl. apply IH in Hl; [|done]. congruence.
Qed.

End LogFacts.

(** X17: the one log line of the subsystem is written by
    [ReturnObjectToPool] of a valid actor without a record, and by
    nothing else.  In a state the subsystem can reach, a call or host
    event leaves the log as it is, unless it is such a release, which
    puts the warning naming the actor in front; in particular prewarming
    never releases an actor it does not know. *)
Theorem log_written_by_foreign_release `{HostPolicy} op s s' :
  reachable s → exec op s = Some s' →
  LogTemp (engine s') = LogTemp (engine s) ∨
  ∃ a, op = CallReturnObjectToPool (Some a) ∧
       IsValid (Some a) (engine s) = true ∧
       ActorToClassMap s !! a = None ∧
       LogTemp (engine s') = Warning_NotPooled a :: LogTemp (engine s).
Proof.
  intros R. pose proof (reachable_inv _ R) as I.
  pose proof (reachable_inv_objects _ R) as J.
  destruct op as [c loc rot pt|Actor|c n pt| |a|c loc rot]; simpl.
  - destruct (SpawnObject _ _ _ _ s) as [[r s1]|] eqn:Hs; simpl; [|done].
    intros [= <-]. left. by destruct (SpawnObject_engine _ _ _ _ _ _ _ Hs) as (_ & Hl & _).
  - intros [= <-]. destruct (IsValid Actor (engine s)) eqn:Hv.
    2:{ left. by rewrite ReturnObjectToPool_invalid. }
    destruct Actor as [a|]; [|done].
    destruct (ActorToClassMap s !! a) as [v|] eqn:Hrec.
    + destruct (inv_class _ J a v Hrec) as (T & st & -> & _).
      left. by destruct (ReturnObjectToPool_managed_facts a T s Hv Hrec)
        as (_ & _ & _ & _ & _ & Hl & _).
    + right. exists a. rewrite ReturnObjectToPool_foreign by auto. by split_and!.
  - destruct c as [c|]; simpl; [|intros [= <-]; by left].
    destruct (InitializePool_loop _ _ _ s) as [[u s1]|] eqn:Hs; simpl; [|done].
    intros [= <-]. left. by eapply InitializePool_loop_log.
  - intros [= <-]. left. by destruct (Deinitialize_spec s) as (_ & _ & _ & _ & _ & Hl & _).
  - intros [= <-]. by left.
  - intros [= <-]. left. apply (grows_log _ _ (SpawnActor_grows c loc rot (engine s))).
Qed.

Lemma log_written_by_foreign_release_witness :
  LogTemp (engine (after (H:=willing_host)
                     (spawn_trace ++ [CallReturnObjectToPool (Some 2%positive)])))
  = LogTemp (engine (after (H:=willing_host) spawn_trace)) ∨
  ∃ a, CallReturnObjectToPool (Some 2%positive) = CallReturnObjectToPool (Some a) ∧
       IsValid (Some a) (engine (after (H:=willing_host) spawn_trace)) = true ∧
       ActorToClassMap (after (H:=willing_host) spawn_trace) !! a = None ∧
       LogTemp (engine (after (H:=willing_host)
                          (spawn_trace ++ [CallReturnObjectToPool (Some 2%positive)])))
       = Warning_NotPooled a :: LogTemp (engine (after (H:=willing_host) spawn_trace)).
Proof.
  apply (log_written_by_foreign_release (H:=willing_host)
           (CallReturnObjectToPool (Some 2%positive))
           (after (H:=willing_host) spawn_trace)).
  - apply (reachable_run world0 spawn_trace); [apply engine_ok_world0 | vm_compute; reflexivity].
  - vm_compute; reflexivity.
Defined.

(** ** What the three mutators leave alone *)

(** X18: what the three mutators do to the actor objects that exist.
    In a state the subsystem can reach, [SpawnObject] leaves the object
    of every actor but the one it returns exactly as it is, and of a
    pooled actor it returns it keeps class, label, validity, parent and
    the number of components.  [ReturnObjectToPool] changes nothing when
    the actor is not valid; for a valid actor recorded for a class it
    leaves every other object exactly as it is and of the actor itself
    changes only the switches; for a valid actor without such a record it
    only destroys.  [Deinitialize] only destroys.  Only destroying means:
    every object is still there with its class, label, switches,
    components and placement, a dead one stays dead, and an actor keeps
    its parent or loses it because that parent is a destroyed object
    afterwards. *)
Theorem mutators_keep_objects `{HostPolicy} s :
  (∀ c loc rot pt r s' (x : AActor) st,
     reachable s → SpawnObject c loc rot pt s = Some (r, s') →
     Actors (engine s) !! x = Some st →
     (r ≠ Some x → Actors (engine s') !! x = Some st) ∧
     (r = Some x →
      ∃ st', Actors (engine s') !! x = Some st' ∧
             ActorClass st' = ActorClass st ∧ ActorLabel st' = ActorLabel st ∧
             bPendingKill st' = bPendingKill st ∧ AttachParent st' = AttachParent st ∧
             length (OwnedComponents st') = length (OwnedComponents st))) ∧
  (∀ Actor, IsValid Actor (engine s) = false →
     engine (ReturnObjectToPool Actor s) = engine s) ∧
  (∀ a c (x : AActor) st,
     IsValid (Some a) (engine s) = true → ActorToClassMap s !! a = Some (Some c) →
     Actors (engine s) !! x = Some st →
     ∃ st', Actors (engine (ReturnObjectToPool (Some a) s)) !! x = Some st' ∧
            same_but_switches st st' ∧ (x ≠ a → st' = st)) ∧
  (∀ a, IsValid (Some a) (engine s) = true →
     (∀ c, ActorToClassMap s !! a ≠ Some (Some c)) →
     destroys_only (engine s) (engine (ReturnObjectToPool (Some a) s))) ∧
  destroys_only (engine s) (engine (Deinitialize s)).
Proof.
  split_and!.
  - intros c loc rot pt r s' x st R%reachable_inv Hs Hx. split.
    + intros Hne. eapply SpawnObject_others; [apply R | exact Hs | exact Hx | exact Hne].
    + intros ->. destruct c as [T|]; [|done].
      destruct (SpawnObject_returned _ _ _ _ _ _ _ Hs)
        as [(st0 & Hst0 & _ & Hst & _)|(-> & _)].
      * rewrite Hx in Hst0. injection Hst0 as <-. eexists. split; [exact Hst|].
        simpl. split_and!; [done..|]. by rewrite length_fmap.
      * rewrite (engine_ok_fresh _ (inv_engine _ R)) in Hx. done.
  - intros Actor Hv. by rewrite ReturnObjectToPool_invalid.
  - intros a c x st Hv Hc Hx. rewrite (ReturnObjectToPool_managed a c) by done.
    cbn [engine set_ObjectPools set_engine]. rewrite Actors_SetActorActive by done.
    destruct (decide (a = x)) as [->|Hne].
    + rewrite Hx; simpl. eexists. split_and!; [done | apply set_active_same_but_switches|].
      by intros [].
    + exists st. split_and!; [done | by unfold same_but_switches | done].
  - intros a Hv Hc. rewrite ReturnObjectToPool_foreign; [| done |].
    + cbn [engine set_engine].
      eapply destroys_only_trans; [apply destroys_only_Log | by apply destroys_only_Destroy].
    + destruct (ActorToClassMap s !! a) as [[c|]|] eqn:E; [by destruct (Hc c) | by right | by left].
  - apply destroys_only_Deinitialize.
Qed.

Lemma mutators_keep_objects_witness :
  Actors (engine (after (H:=willing_host)
                    (pooled_trace ++
                     [CallSpawnObject (Some Bullet) (1, 2, 3)%Z ZeroRotator GameObjects])))
    !! 2%positive
  = Some {| ActorClass := AActor_StaticClass; bPendingKill := false; bHidden := true;
            bEnableCollision := false; bTickEnabled := false;
            OwnedComponents := [false; true];
            ActorLocation := ZeroVector; ActorRotation := ZeroRotator;
            AttachParent := None; ActorLabel := "ObjectPools_Root" |}.
Proof.
  destruct (mutators_keep_objects (H:=willing_host) (after (H:=willing_host) pooled_trace))
    as [Hspawn _].
  destruct (Hspawn (Some Bullet) (1, 2, 3)%Z ZeroRotator GameObjects (Some 1%positive)
              (after (H:=willing_host)
                 (pooled_trace ++
                  [CallSpawnObject (Some Bullet) (1, 2, 3)%Z ZeroRotator GameObjects]))
              2%positive
              {| ActorClass := AActor_StaticClass; bPendingKill := false; bHidden := true;
                 bEnableCollision := false; bTickEnabled := false;
                 OwnedComponents := [false; true];
                 ActorLocation := ZeroVector; ActorRotation := ZeroRotator;
                 AttachParent := None; ActorLabel := "ObjectPools_Root" |})
    as [Hother _].
  - apply (reachable_run world0 pooled_trace); [apply engine_ok_world0 | vm_compute; reflexivity].
  - vm_compute; reflexivity.
  - vm_compute; reflexivity.
  - apply Hother. discriminate.
Defined.

(** ** Prewarming hands nothing out *)

Section HandsOut.
Context `{HostPolicy}.

(** A handed-out actor of the state after [SpawnObject], other than the
    one returned, was handed out before. *)
Lemma SpawnObject_active_before T loc rot pt s r s' T' x :
  inv s → SpawnObject (Some T) loc rot pt s = Some (r, s') →
  r ≠ Some x → active_for T' x s' → active_for T' x s.
Proof.
  intros I Hs Hne (Hv & Hrec & Hnin).
  destruct (HasWorld (engine s)) eqn:Hw.
  2:{ rewrite SpawnObject_no_world in Hs by done. by injection Hs as <- <-. }
  destruct (SpawnObject_engine _ _ _ _ _ _ _ Hs) as (_ & _ & Hval).
  destruct (SpawnObject_cases _ _ _ _ _ _ _ Hw Hs) as (dropped & Hd & Hcase & Hother & _).
  assert (Hrec0 : ActorToClassMap s !! x = Some (Some T')).
  { destruct Hcase as [(a & _ & _ & _ & _ & Hmap)|[(-> & _ & _ & _ & Hmap)|(_ & _ & _ & _ & Hmap & _)]];
      rewrite Hmap in Hrec; [done | | done].
    rewrite lookup_insert_ne in Hrec; [done | congruence]. }
  assert (Hlt : (x < NextActor (engine s))%positive).
  { apply (inv_allocated _ _ I). by rewrite Hrec0. }
  assert (Hv0 : IsValid (Some x) (engine s) = true) by by rewrite <- Hval.
  split_and!; [done | done |].
  assert (Hdrop : x ∉ dropped).
  { intros Hin. apply (proj1 (Forall_forall _ _) Hd) in Hin. congruence. }
  destruct (decide (T' = T)) as [->|HneT].
  2:{ by rewrite <- (pool_of_lookup_eq T' s s') by by apply Hother. }
  destruct Hcase as [(a & -> & Hp & _)|[(_ & -> & _)|(_ & -> & _)]]; [|done..].
  rewrite Hp, elem_of_app, elem_of_cons. intros [?|[->|?]]; done.
Qed.

(** One round of the loop of [InitializePool] hands nothing out. *)
Lemma round_hands_out_nothing T pt s r s1 T' x :
  inv s → SpawnObject (Some T) ZeroVector ZeroRotator pt s = Some (r, s1) →
  active_for T' x (match r with
                   | Some a => ReturnObjectToPool (Some a) s1
                   | None => s1
                   end) →
  active_for T' x s.
Proof.
  intros I Hs Hact. destruct r as [a|].
  2:{ by eapply SpawnObject_active_before. }
  destruct (SpawnObject_active_for _ _ _ _ _ _ _ I Hs) as [(Hva & Hreca & _) _].
  destruct (ReturnObjectToPool_managed_facts a T s1 Hva Hreca)
    as (Hp & Ho & Hm & Hval & _).
  destruct Hact as (Hv & Hrec & Hnin).
  assert (Hne : x ≠ a).
  { intros ->. rewrite Hm, Hreca in Hrec. injection Hrec as <-.
    apply Hnin. rewrite Hp. apply AddUnique_elem. by left. }
  eapply SpawnObject_active_before; [done | exact Hs | congruence |].
  split_and!; [by rewrite <- Hval | by rewrite <- Hm |].
  destruct (decide (T' = T)) as [->|HneT].
  - intros Hin. apply Hnin. rewrite Hp. apply AddUnique_elem. by right.
  - by rewrite <- (pool_of_lookup_eq T' s1 _) by by apply Ho.
Qed.

Lemma InitializePool_loop_hands_out_nothing n T pt s u s' T' x :
  inv s → InitializePool_loop n T pt s = Some (u, s') →
  active_for T' x s' → active_for T' x s.
Proof.
  revert s. induction n as [|n IH]; intros s I; simpl.
  - by intros [= <- <-].
  - unfold_M. destruct (SpawnObject (Some T) ZeroVector ZeroRotator pt s)
      as [[r s1]|] eqn:Hs; simpl; [|done].
    pose proof (inv_SpawnObject _ _ _ _ _ _ _ I Hs) as I1.
    intros Hl Hact. apply (round_hands_out_nothing T pt s r s1); [done | done |].
    destruct r as [a|]; simpl in Hl; (eapply IH; [|exact Hl|exact Hact]).
    + by apply inv_ReturnObjectToPool.
    + done.
Qed.

End HandsOut.

(** X19: prewarming hands nothing out.  In a state the subsystem can
    reach, every actor that is handed out after [InitializePool] (valid,
    recorded for a class and not in the free list of that class) was
    handed out before the call: whatever the call spawned or took from a
    free list is in a free list when it returns. *)
Theorem InitializePool_hands_out_nothing `{HostPolicy} c (Count : Z) pt s s' T' x :
  reachable s → InitializePool c Count pt s = Some ((), s') →
  active_for T' x s' → active_for T' x s.
Proof.
  intros I%reachable_inv. destruct c as [T|]; simpl; [|by intros [= <-]].
  by apply InitializePool_loop_hands_out_nothing.
Qed.

Lemma InitializePool_hands_out_nothing_witness :
  active_for Bullet 1%positive (after (H:=willing_host) spawn_trace).
Proof.
  apply (InitializePool_hands_out_nothing (H:=willing_host) (Some Enemy) 2 Nodes
           (after (H:=willing_host) spawn_trace)
           (after (H:=willing_host) (spawn_trace ++ [CallInitializePool (Some Enemy) 2 Nodes]))
           Bullet 1%positive).
  - apply (reachable_run world0 spawn_trace); [apply engine_ok_world0 | vm_compute; reflexivity].
  - vm_compute; reflexivity.
  - split_and!; [vm_compute; reflexivity | vm_compute; reflexivity |].
    vm_compute. apply not_elem_of_nil.
Defined.

(** ** A category root that outlives the main root *)


